(** * cpom: closest point on a mesh

    A shallow embedding of the cpom query engine (Float3.h, OctreeNode.h,
    ClosestPointQuery.cpp) and the properties of its specification.

    Arithmetic.  The C++ code computes on [float], IEEE 754 binary32.
    Here a [float] is a rational, or one of the three special values
    that the code itself manipulates: the two infinities and NaN.  The
    program is embedded twice, from the same source text.

    - In the module [Binary32], below, with the arithmetic of the
      machine: every operation is rounded to binary32 ([round32]), with
      overflow and gradual underflow.  The theorems that depend on the
      values computed are stated on this embedding.

    - First, with exact operations on the rationals and the IEEE rules on
      the special values: no rounding, no overflow, no underflow.  This
      embedding serves the theorems that hold by the control flow and
      the comparisons alone, whatever the arithmetic, and the runs on
      small integers and dyadic fractions, on which no operation rounds.

    In both, the sign of a zero is not modelled: a zero divisor behaves
    as +0. *)

From Stdlib Require Import String.
From Stdlib Require Import QArith Qabs Qround Qpower Lqa ZArith List Bool Lia.
From Stdlib Require Import Permutation.
Import ListNotations.

Set Implicit Arguments.

(** ** Floats *)

Inductive float : Type :=
| Fin (q : Q)
| PInf
| NInf
| NaN.

Declare Scope fl_scope.
Delimit Scope fl_scope with fl.
Bind Scope fl_scope with float.

Definition nan : float := NaN.
Definition infinity : float := PInf.

Definition Qlt_bool (a b : Q) : bool := negb (Qle_bool b a).

Definition mul_sign (s1 s2 : comparison) : comparison :=
  match s1, s2 with
  | Eq, _ | _, Eq => Eq
  | Gt, Gt | Lt, Lt => Gt
  | _, _ => Lt
  end.

Definition inf_of_sign (s : comparison) : float :=
  match s with Gt => PInf | Lt => NInf | Eq => NaN end.

Definition fsign (u : float) : comparison :=
  match u with
  | Fin q => (q ?= 0)%Q
  | PInf => Gt
  | NInf => Lt
  | NaN => Eq
  end.

Definition fopp (u : float) : float :=
  match u with
  | Fin q => Fin (- q)
  | PInf => NInf
  | NInf => PInf
  | NaN => NaN
  end.

Definition fadd (u v : float) : float :=
  match u, v with
  | NaN, _ | _, NaN => NaN
  | Fin a, Fin b => Fin (a + b)
  | PInf, NInf | NInf, PInf => NaN
  | PInf, _ | _, PInf => PInf
  | NInf, _ | _, NInf => NInf
  end.

Definition fsub (u v : float) : float := fadd u (fopp v).

Definition fmul (u v : float) : float :=
  match u, v with
  | NaN, _ | _, NaN => NaN
  | Fin a, Fin b => Fin (a * b)
  | _, _ => inf_of_sign (mul_sign (fsign u) (fsign v))
  end.

Definition fdiv (u v : float) : float :=
  match u, v with
  | NaN, _ | _, NaN => NaN
  | Fin a, Fin b =>
      if Qeq_bool b 0 then inf_of_sign (a ?= 0)%Q else Fin (a / b)
  | Fin _, _ => Fin 0
  | _, Fin b => match (b ?= 0)%Q with Lt => fopp u | _ => u end
  | _, _ => NaN
  end.

Definition flt (u v : float) : bool :=
  match u, v with
  | NaN, _ | _, NaN => false
  | Fin a, Fin b => Qlt_bool a b
  | NInf, NInf => false
  | NInf, _ => true
  | PInf, _ => false
  | Fin _, PInf => true
  | Fin _, NInf => false
  end.

Definition feq (u v : float) : bool :=
  match u, v with
  | Fin a, Fin b => Qeq_bool a b
  | PInf, PInf | NInf, NInf => true
  | _, _ => false
  end.

Definition fle (u v : float) : bool := flt u v || feq u v.
Definition fgt (u v : float) : bool := flt v u.
Definition fge (u v : float) : bool := fle v u.

(** [std::abs], [std::max] and [std::min] on floats; the last two are
    the comparisons of the C++ standard library, [(a < b) ? b : a] and
    [(b < a) ? b : a]. *)
Definition fabs (u : float) : float :=
  match u with
  | Fin q => Fin (Qabs q)
  | PInf | NInf => PInf
  | NaN => NaN
  end.

Definition fmax (u v : float) : float := if flt u v then v else u.
Definition fmin (u v : float) : float := if flt v u then v else u.

Definition isnan (u : float) : bool :=
  match u with NaN => true | _ => false end.

(** Conversion of an [int] to [float]. *)
Definition of_int (n : Z) : float := Fin (inject_Z n).

Notation "0" := (Fin 0) : fl_scope.
Notation "1" := (Fin 1) : fl_scope.
Notation "2" := (Fin 2) : fl_scope.
Notation "u + v" := (fadd u v) : fl_scope.
Notation "u - v" := (fsub u v) : fl_scope.
Notation "u * v" := (fmul u v) : fl_scope.
Notation "u / v" := (fdiv u v) : fl_scope.
Notation "- u" := (fopp u) : fl_scope.
Notation "u <? v" := (flt u v) (at level 70, no associativity) : fl_scope.
Notation "u <=? v" := (fle u v) (at level 70, no associativity) : fl_scope.
Notation "u >? v" := (fgt u v) (at level 70, no associativity) : fl_scope.
Notation "u >=? v" := (fge u v) (at level 70, no associativity) : fl_scope.
Notation "u =? v" := (feq u v) (at level 70, no associativity) : fl_scope.

(** ** Float3.h *)

Module Float3.

Record t : Type := make { x : float; y : float; z : float }.

(** [Float3(float n)]: the three components equal to [n]. *)
Definition splat (n : float) : t := make n n n.

(** [operator==]: component-wise equality. *)
Definition eqb (p q : t) : bool :=
  ((x p =? x q) && (y p =? y q) && (z p =? z q))%fl.

(** [operator!=]. *)
Definition neq (p q : t) : bool := negb (eqb p q).

Definition add (p q : t) : t :=
  make (x p + x q) (y p + y q) (z p + z q).
Definition add_scalar (p : t) (r : float) : t :=
  make (x p + r) (y p + r) (z p + r).
Definition sub (p q : t) : t :=
  make (x p - x q) (y p - y q) (z p - z q).
Definition sub_scalar (p : t) (r : float) : t :=
  make (x p - r) (y p - r) (z p - r).
Definition mul_scalar (p : t) (r : float) : t :=
  make (x p * r) (y p * r) (z p * r).
(** The component-wise product and quotients. *)
Definition mul (p q : t) : t :=
  make (x p * x q) (y p * y q) (z p * z q).
Definition div (p q : t) : t :=
  make (x p / x q) (y p / y q) (z p / z q).
Definition div_scalar (p : t) (r : float) : t :=
  make (x p / r) (y p / r) (z p / r).

Definition dot (p q : t) : float :=
  x p * x q + y p * y q + z p * z q.

Definition abs (p : t) : t := make (fabs (x p)) (fabs (y p)) (fabs (z p)).

Definition sqrLength (p : t) : float := dot p p.

Definition hasNan (p : t) : bool :=
  isnan (x p) || isnan (y p) || isnan (z p).

End Float3.

Definition Point : Type := Float3.t.

(** ** Exceptions and undefined behaviour

    The code throws [std::invalid_argument] with three messages; the
    specification names them [EmptyMesh], [UnsupportedArity] and
    [DegenerateTriangle].  [std::vector::operator[]] out of range is
    undefined behaviour, kept apart as [Undefined].  [UnsafeDivision] is
    raised only by the checked divisions [Binary32.checked_divide] and
    [nonzero_divide], never by the program's own division.  [OutOfFuel]
    is the answer of a fuel-bounded loop of this model whose fuel ran
    out; the theorems on the queries show that the fuel of the search is
    always enough. *)

Inductive exception : Type :=
| invalid_argument (what : string).

Inductive outcome (A : Type) : Type :=
| Ok (a : A)
| Throw (e : exception)
| Undefined
| UnsafeDivision
| OutOfFuel.

Arguments Ok {A} a.
Arguments Throw {A} e.
Arguments Undefined {A}.
Arguments UnsafeDivision {A}.
Arguments OutOfFuel {A}.

Definition EmptyMesh : exception := invalid_argument "Empty mesh".
Definition UnsupportedArity : exception :=
  invalid_argument "Face has unsupported number of vertices".
Definition DegenerateTriangle : exception :=
  invalid_argument "Collinear triangle vertices".

Definition bind {A B : Type} (m : outcome A) (k : A -> outcome B) : outcome B :=
  match m with
  | Ok a => k a
  | Throw e => Throw e
  | Undefined => Undefined
  | UnsafeDivision => UnsafeDivision
  | OutOfFuel => OutOfFuel
  end.

Notation "x <- m ;; k" := (bind m (fun x => k))
  (at level 100, m at next level, right associativity).
Notation "' p <- m ;; k" := (bind m (fun p => k))
  (at level 100, p pattern, m at next level, right associativity).

(** ** ClosestPointQuery.cpp, anonymous namespace *)

Definition ClosestPointSpec : Type := (Point * float)%type.

(** The program's division: IEEE division, which always returns. *)
Definition ieee_divide (num den : float) : outcome float := Ok (num / den)%fl.

(** The operands of a division by a strictly positive divisor, either
    [1 / den] or a proper fraction [0 < num < den]. *)
Definition safe_operands (num den : float) : bool :=
  ((0 <? den) && ((num =? 1) || ((0 <? num) && (num <? den))))%fl.

Section Triangle.

(** The division used by the solver: [ieee_divide] in the program. *)
Variable divide : float -> float -> outcome float.

Open Scope fl_scope.

(** The region analysis of [computeClosestPointOnTriangle]: from the
    five dot products to the final parameters [(s2, t2)]. *)
Definition triangleParameters (a b c d e : float) : outcome (float * float) :=
  let det := a * c - b * b in
  let s1 := b * e - c * d in
  let t1 := b * d - a * e in
  if det =? 0 then Throw DegenerateTriangle
  else
    if s1 + t1 <=? det then
      if s1 <? 0 then
        if t1 <? 0 then
          (* Region 4 *)
          if d <? 0 then
            s2 <- (if - d >=? a then Ok 1 else divide (- d) a) ;;
            Ok (s2, 0)
          else
            t2 <- (if e >=? 0 then Ok 0
                   else if - e >=? c then Ok 1
                   else divide (- e) c) ;;
            Ok (0, t2)
        else
          (* Region 3 *)
          t2 <- (if e >=? 0 then Ok 0
                 else if - e >=? c then Ok 1
                 else divide (- e) c) ;;
          Ok (0, t2)
      else if t1 <? 0 then
        (* Region 5 *)
        s2 <- (if d >=? 0 then Ok 0
               else if - d >=? a then Ok 1
               else divide (- d) a) ;;
        Ok (s2, 0)
      else
        (* Region 0 *)
        invDet <- divide 1 det ;;
        Ok (s1 * invDet, t1 * invDet)
    else
      if s1 <? 0 then
        (* Region 2 *)
        let tmp0 := b + d in
        let tmp1 := c + e in
        if tmp1 >? tmp0 then
          let num := tmp1 - tmp0 in
          let denom := a - 2 * b + c in
          s2 <- (if num >=? denom then Ok 1 else divide num denom) ;;
          Ok (s2, 1 - s2)
        else
          t2 <- (if tmp1 <=? 0 then Ok 1
                 else if e >=? 0 then Ok 0
                 else divide (- e) c) ;;
          Ok (0, t2)
      else if t1 <? 0 then
        (* Region 6 *)
        let tmp0 := b + e in
        let tmp1 := a + d in
        if tmp1 >? tmp0 then
          let num := tmp1 - tmp0 in
          let denom := a - 2 * b + c in
          t2 <- (if num >=? denom then Ok 1 else divide num denom) ;;
          (* [s2 = 1 - s2;] and [s2] still holds [s1] here *)
          Ok (1 - s1, t2)
        else
          s2 <- (if tmp1 <=? 0 then Ok 1
                 else if d >=? 0 then Ok 0
                 else divide (- d) a) ;;
          Ok (s2, 0)
      else
        (* Region 1 *)
        let num := c + e - b - d in
        s2 <- (if num <=? 0 then Ok 0
               else
                 let denom := a - 2 * b + c in
                 if num >=? denom then Ok 1 else divide num denom) ;;
        Ok (s2, 1 - s2).

Definition computeClosestPointOnTriangleWith
    (vertex0 vertex1 vertex2 fromPoint : Point) : outcome ClosestPointSpec :=
  let edge0 := Float3.sub vertex1 vertex0 in
  let edge1 := Float3.sub vertex2 vertex0 in
  let v0 := Float3.sub vertex0 fromPoint in
  let a := Float3.dot edge0 edge0 in
  let b := Float3.dot edge0 edge1 in
  let c := Float3.dot edge1 edge1 in
  let d := Float3.dot edge0 v0 in
  let e := Float3.dot edge1 v0 in
  '(s2, t2) <- triangleParameters a b c d e ;;
  let closestPoint :=
    Float3.add (Float3.add vertex0 (Float3.mul_scalar edge0 s2))
               (Float3.mul_scalar edge1 t2) in
  let sqrDistance := Float3.sqrLength (Float3.sub fromPoint closestPoint) in
  Ok (closestPoint, sqrDistance).

End Triangle.

Definition computeClosestPointOnTriangle :
    Point -> Point -> Point -> Point -> outcome ClosestPointSpec :=
  computeClosestPointOnTriangleWith ieee_divide.

(** The path condition of the edge branch of Region 6, the branch that
    executes [s2 = 1 - s2]. *)
Definition inRegion6Edge (a b c d e : float) : bool :=
  (let det := a * c - b * b in
   let s1 := b * e - c * d in
   let t1 := b * d - a * e in
   negb (det =? 0) && negb (s1 + t1 <=? det) && negb (s1 <? 0)
   && (t1 <? 0) && (a + d >? b + e))%fl.

Definition takesRegion6Edge (vertex0 vertex1 vertex2 fromPoint : Point)
    : bool :=
  let edge0 := Float3.sub vertex1 vertex0 in
  let edge1 := Float3.sub vertex2 vertex0 in
  let v0 := Float3.sub vertex0 fromPoint in
  inRegion6Edge (Float3.dot edge0 edge0) (Float3.dot edge0 edge1)
                (Float3.dot edge1 edge1) (Float3.dot edge0 v0)
                (Float3.dot edge1 v0).

(** ** Mesh.h *)

Record Face : Type := mkFace { vertexIds : list Z }.

Record Mesh : Type := mkMesh { getVertices : list Point; getFaces : list Face }.

(** [vertices[i]] on a [std::vector]: no bounds check. *)
Definition at_index {A : Type} (v : list A) (i : Z) : outcome A :=
  if (i <? 0)%Z then Undefined
  else match nth_error v (Z.to_nat i) with
       | Some a => Ok a
       | None => Undefined
       end.

(** ** OctreeNode.h *)

Module AABCube.
Record t : Type := make { center : Point; halfWidth : float }.
End AABCube.

(** The second half of [getChildBounds]: the bounds of the child of index
    [index], computed from the bounds of its parent. *)
Definition computedChildBounds (bounds : AABCube.t) (index : Z) : AABCube.t :=
  let halfWidth := (AABCube.halfWidth bounds * Fin (1#2))%fl in
  let sign (bit : Z) : float :=
    if Z.testbit index bit then Fin 1 else Fin (-1) in
  let center := AABCube.center bounds in
  AABCube.make
    (Float3.make (Float3.x center + sign 0%Z * halfWidth)%fl
                 (Float3.y center + sign 1%Z * halfWidth)%fl
                 (Float3.z center + sign 2%Z * halfWidth)%fl)
    halfWidth.

#[local] Set Warnings "-register-all".

Inductive OctreeNode (T : Type) : Type :=
  mkOctreeNode {
      m_elements : list T;
      m_children : list (option (OctreeNode T));
      m_bounds : AABCube.t;
      m_isLeaf : bool }.

#[local] Set Warnings "register-all".

Section Octree.

Variable T : Type.

Definition Intersect : Type := AABCube.t -> T -> bool.

(** The constructor: eight null children, a leaf. *)
Definition newOctreeNode (bounds : AABCube.t) : OctreeNode T :=
  mkOctreeNode [] (repeat None 8) bounds true.

Definition isLeaf (node : OctreeNode T) : bool := m_isLeaf node.
Definition getBounds (node : OctreeNode T) : AABCube.t := m_bounds node.

(** [accept(visitChild)]: the existing children, in index order. *)
Fixpoint presentChildren (children : list (option (OctreeNode T)))
    : list (OctreeNode T) :=
  match children with
  | [] => []
  | Some child :: rest => child :: presentChildren rest
  | None :: rest => presentChildren rest
  end.

Definition acceptChildren {S : Type} (node : OctreeNode T)
    (visitChild : S -> OctreeNode T -> S) (s : S) : S :=
  fold_left visitChild (presentChildren (m_children node)) s.

(** [accept(visitElement)]: the elements, in insertion order; the
    visitor may throw. *)
Definition acceptElements {S : Type} (node : OctreeNode T)
    (visitElement : S -> T -> outcome S) (s : S) : outcome S :=
  fold_left (fun acc element => s' <- acc ;; visitElement s' element)
            (m_elements node) (Ok s).

(** The bounds of the child in slot [index], [child] being the content
    of that slot: those of the child if it exists, otherwise those
    computed from the bounds of the parent. *)
Definition childBoundsOf (bounds : AABCube.t) (child : option (OctreeNode T))
    (index : Z) : AABCube.t :=
  match child with
  | Some node => m_bounds node
  | None => computedChildBounds bounds index
  end.

Definition getChildBounds (node : OctreeNode T) (index : Z) : AABCube.t :=
  childBoundsOf (m_bounds node)
                (nth (Z.to_nat index) (m_children node) None) index.

Definition set_isLeaf (b : bool) (node : OctreeNode T) : OctreeNode T :=
  mkOctreeNode (m_elements node) (m_children node) (m_bounds node) b.
Definition set_elements (l : list T) (node : OctreeNode T) : OctreeNode T :=
  mkOctreeNode l (m_children node) (m_bounds node) (m_isLeaf node).
Definition set_children (l : list (option (OctreeNode T)))
    (node : OctreeNode T) : OctreeNode T :=
  mkOctreeNode (m_elements node) l (m_bounds node) (m_isLeaf node).

Definition push_back (element : T) (node : OctreeNode T) : OctreeNode T :=
  set_elements (m_elements node ++ [element]) node.
Definition pop_back (node : OctreeNode T) : OctreeNode T :=
  set_elements (removelast (m_elements node)) node.

Section Insert.

Variable intersect : Intersect.
Variable maxDepth : Z.
Variable maxFill : float.

(** The range-for loop over [m_children] of [walkInsert], with its
  running [childIndex]; [walk] is the recursive call on a child. *)
Fixpoint insertInChildren (walk : OctreeNode T -> outcome (OctreeNode T))
  (bounds : AABCube.t) (element : T) (childIndex : Z)
  (children : list (option (OctreeNode T)))
  : outcome (list (option (OctreeNode T))) :=
  match children with
  | [] => Ok []
  | child :: rest =>
    let childBounds := childBoundsOf bounds child childIndex in
    child' <- (if intersect childBounds element then
                 let node := match child with
                             | Some node => node
                             | None => newOctreeNode childBounds
                             end in
                 node' <- walk node ;; Ok (Some node')
               else Ok child) ;;
    rest' <- insertInChildren walk bounds element (childIndex + 1) rest ;;
    Ok (child' :: rest')
  end.

Fixpoint walkInsert (fuel : nat) (element : T) (depth : Z)
  (node : OctreeNode T) : outcome (OctreeNode T) :=
  match fuel with
  | O => OutOfFuel
  | S fuel' =>
    if isLeaf node then
      let depthFillRatio :=
        (of_int (Z.of_nat (length (m_elements node)))
         / of_int (1 + depth))%fl in
      let shouldSubdivide :=
        (depthFillRatio >? maxFill)%fl && (depth <? maxDepth)%Z in
      if shouldSubdivide then
        (* the while loop: re-insert the last element, then pop it *)
        node1 <- fold_left
                   (fun acc back =>
                      n <- acc ;;
                      n' <- walkInsert fuel' back depth n ;;
                      Ok (pop_back n'))
                   (rev (m_elements node))
                   (Ok (set_isLeaf false node)) ;;
        walkInsert fuel' element depth node1
      else Ok (push_back element node)
    else
      children <- insertInChildren
                    (walkInsert fuel' element (depth + 1))
                    (m_bounds node) element 0 (m_children node) ;;
      Ok (set_children children node)
  end.

(** [insert]: [walkInsert] from depth 0.  A leaf is subdivided only
  above [maxDepth], and a call on a node at depth [k] nests at most
  [2 * (maxDepth - k) + 1] calls. *)
Definition insertFuel : nat := S (2 * Z.to_nat maxDepth).

Definition insert (element : T) (node : OctreeNode T)
  : outcome (OctreeNode T) :=
  walkInsert insertFuel element 0 node.

End Insert.

End Octree.

Arguments newOctreeNode {T} bounds.

(** ** ClosestPointQuery.cpp, continued *)

Module AABBox.
Record t : Type := make { center : Point; halfWidth : Float3.t }.
End AABBox.

Definition Extent : Type := (Point * Point)%type.
Definition OctreeElement : Type := (Face * AABBox.t)%type.
Definition Node : Type := OctreeNode OctreeElement.

Definition intersect (cube : AABCube.t) (element : OctreeElement) : bool :=
  let box := snd element in
  let distances :=
    Float3.abs (Float3.sub (AABCube.center cube) (AABBox.center box)) in
  let halfWidthSum :=
    Float3.add (Float3.splat (AABCube.halfWidth cube)) (AABBox.halfWidth box) in
  (Float3.x distances <=? Float3.x halfWidthSum)%fl
  && (Float3.y distances <=? Float3.y halfWidthSum)%fl
  && (Float3.z distances <=? Float3.z halfWidthSum)%fl.

Definition computeClosestPointOnFace (face : Face) (vertices : list Point)
    (queryPoint : Point) : outcome ClosestPointSpec :=
  let size := length (vertexIds face) in
  if (size <? 3)%nat || (4 <? size)%nat then Throw UnsupportedArity
  else
    v0 <- at_index vertices (nth 0 (vertexIds face) 0%Z) ;;
    v1 <- at_index vertices (nth 1 (vertexIds face) 0%Z) ;;
    v2 <- at_index vertices (nth 2 (vertexIds face) 0%Z) ;;
    result1 <- computeClosestPointOnTriangle v0 v1 v2 queryPoint ;;
    if (size =? 3)%nat then Ok result1
    else
      v3 <- at_index vertices (nth 3 (vertexIds face) 0%Z) ;;
      result2 <- computeClosestPointOnTriangle v2 v3 v0 queryPoint ;;
      Ok (if (snd result2 <? snd result1)%fl then result2 else result1).

Definition growExtent (extent : Extent) (point : Point) : Extent :=
  let resultMin :=
    Float3.make (fmin (Float3.x (fst extent)) (Float3.x point))
                (fmin (Float3.y (fst extent)) (Float3.y point))
                (fmin (Float3.z (fst extent)) (Float3.z point)) in
  let resultMax :=
    Float3.make (fmax (Float3.x (snd extent)) (Float3.x point))
                (fmax (Float3.y (snd extent)) (Float3.y point))
                (fmax (Float3.z (snd extent)) (Float3.z point)) in
  (resultMin, resultMax).

Definition computeCubicBounds (extent : Extent) : AABCube.t :=
  let dimensions := Float3.sub (snd extent) (fst extent) in
  AABCube.make
    (Float3.mul_scalar (Float3.add (fst extent) (snd extent)) (Fin (1#2)))
    (Fin (1#2) * fmax (Float3.x dimensions)
                      (fmax (Float3.y dimensions) (Float3.z dimensions)))%fl.

Definition computeBounds (extent : Extent) : AABBox.t :=
  let dimensions := Float3.sub (snd extent) (fst extent) in
  AABBox.make
    (Float3.mul_scalar (Float3.add (fst extent) (snd extent)) (Fin (1#2)))
    (Float3.mul_scalar dimensions (Fin (1#2))).

Definition computeSqrDistanceToBounds (queryPoint : Point)
    (bounds : AABCube.t) : float :=
  let d := Float3.sub_scalar
             (Float3.abs (Float3.sub queryPoint (AABCube.center bounds)))
             (AABCube.halfWidth bounds) in
  Float3.sqrLength
    (Float3.make (fmax (Float3.x d) 0%fl)
                 (fmax (Float3.y d) 0%fl)
                 (fmax (Float3.z d) 0%fl)).

(** ** struct ClosestPointQuery::Impl *)

Record Impl : Type := mkImpl {
  m_vertices : list Point;
  m_faces : list Face;
  m_partitionedSpace : option Node }.

Definition minSpacePartitioningFaces : Z := 32.

(** Default arguments of [OctreeNode::insert]. *)
Definition defaultMaxDepth : Z := 10.
Definition defaultMaxFill : float := Fin 3.

Definition emptyExtent : Extent :=
  (Float3.splat infinity, Float3.splat (- infinity)%fl).

(** The lambda [insertFace] of [partitionSpace]: the extent of the
    vertices of the face ([std::accumulate] with [growFaceExtent]), then
    the insertion. *)
Definition faceExtent (vertices : list Point) (face : Face) : outcome Extent :=
  fold_left
    (fun acc vertexId =>
       extent <- acc ;;
       vertex <- at_index vertices vertexId ;;
       Ok (growExtent extent vertex))
    (vertexIds face) (Ok emptyExtent).

Definition insertFace (vertices : list Point) (rootNode : Node) (face : Face)
    : outcome Node :=
  extent <- faceExtent vertices face ;;
  insert intersect defaultMaxDepth defaultMaxFill
         (face, computeBounds extent) rootNode.

Definition partitionSpace (vertices : list Point) (faces : list Face)
    : outcome Node :=
  let meshExtent := fold_left growExtent vertices emptyExtent in
  let rootNode := newOctreeNode (computeCubicBounds meshExtent) in
  fold_left (fun acc face => root <- acc ;; insertFace vertices root face)
            faces (Ok rootNode).

(** The constructor [Impl::Impl(const Mesh &)]. *)
Definition newImpl (m : Mesh) : outcome Impl :=
  let vertices := getVertices m in
  let faces := getFaces m in
  match vertices with
  | [] => Throw EmptyMesh
  | _ :: _ =>
      if (Z.of_nat (List.length faces) >=? minSpacePartitioningFaces)%Z then
        root <- partitionSpace vertices faces ;;
        Ok (mkImpl vertices faces (Some root))
      else Ok (mkImpl vertices faces None)
  end.

(** The lambda [reduceClosestPointOnFace] of [processMesh]. *)
Definition reduceClosestPointOnFace (vertices : list Point)
    (queryPoint : Point) (sqrMaxDist : float)
    (inputClosest : ClosestPointSpec) (face : Face)
    : outcome ClosestPointSpec :=
  faceClosest <- computeClosestPointOnFace face vertices queryPoint ;;
  Ok (if (snd faceClosest <? sqrMaxDist)%fl
         && (snd faceClosest <? snd inputClosest)%fl
      then faceClosest else inputClosest).

Definition noResult : ClosestPointSpec := (Float3.splat nan, infinity).

Definition processMesh (impl : Impl) (queryPoint : Point) (sqrMaxDist : float)
    : outcome Point :=
  closest <- fold_left
               (fun acc face =>
                  inputClosest <- acc ;;
                  reduceClosestPointOnFace (m_vertices impl) queryPoint
                                           sqrMaxDist inputClosest face)
               (m_faces impl) (Ok noResult) ;;
  Ok (fst closest).

(** *** The heap of the best-first search

    [std::priority_queue] with [heapCompare]: [top] is an entry of least
    squared distance.  Which of several entries of equal distance comes
    first is not specified by the C++ standard; the model keeps the
    entries in a list, newest first, and takes the first least one. *)

Definition HeapEntry : Type := (Node * float)%type.
Definition Heap : Type := list HeapEntry.

Definition heapCompare (a b : HeapEntry) : bool := (snd a >? snd b)%fl.

Definition heap_push (entry : HeapEntry) (heap : Heap) : Heap := entry :: heap.

Fixpoint heap_top (heap : Heap) : option HeapEntry :=
  match heap with
  | [] => None
  | entry :: rest =>
      match heap_top rest with
      | None => Some entry
      | Some best => Some (if heapCompare entry best then best else entry)
      end
  end.

Fixpoint heap_pop (heap : Heap) : Heap :=
  match heap with
  | [] => []
  | entry :: rest =>
      match heap_top rest with
      | None => []
      | Some best =>
          if heapCompare entry best then entry :: heap_pop rest else rest
      end
  end.

(** The lambdas [visitElement] and [visitChild]. *)
Definition visitElement (vertices : list Point) (queryPoint : Point)
    (sqrMaxDist : float) (result : ClosestPointSpec) (element : OctreeElement)
    : outcome ClosestPointSpec :=
  let face := fst element in
  faceClosest <- computeClosestPointOnFace face vertices queryPoint ;;
  Ok (if (snd faceClosest <? sqrMaxDist)%fl
         && (snd faceClosest <? snd result)%fl
      then faceClosest else result).

Definition visitChild (queryPoint : Point) (result : ClosestPointSpec)
    (heap : Heap) (child : Node) : Heap :=
  let nodeSqrDist := computeSqrDistanceToBounds queryPoint (getBounds child) in
  if (nodeSqrDist <? snd result)%fl then heap_push (child, nodeSqrDist) heap
  else heap.

(** The [while] loop of [processPartitionedSpace]. *)
Fixpoint bestFirstSearch (fuel : nat) (vertices : list Point)
    (queryPoint : Point) (sqrMaxDist : float)
    (heap : Heap) (result : ClosestPointSpec) : outcome ClosestPointSpec :=
  match heap_top heap with
  | None => Ok result
  | Some top =>
      if (snd top <? snd result)%fl then
        match fuel with
        | O => OutOfFuel
        | S fuel' =>
            let node := fst top in
            let heap := heap_pop heap in
            if isLeaf node then
              result' <- acceptElements node
                           (visitElement vertices queryPoint sqrMaxDist)
                           result ;;
              bestFirstSearch fuel' vertices queryPoint sqrMaxDist heap result'
            else
              let heap' := acceptChildren node (visitChild queryPoint result)
                                          heap in
              bestFirstSearch fuel' vertices queryPoint sqrMaxDist heap' result
        end
      else Ok result
  end.

(** The number of nodes of a tree: every iteration of the search pops a
    node, and no node is pushed twice. *)
Fixpoint countNodes (node : Node) : nat :=
  match node with
  | mkOctreeNode _ children _ _ =>
      S ((fix countList (l : list (option Node)) : nat :=
            match l with
            | [] => 0%nat
            | None :: rest => countList rest
            | Some child :: rest => (countNodes child + countList rest)%nat
            end) children)
  end.

Definition processPartitionedSpace (impl : Impl) (queryPoint : Point)
    (sqrMaxDist : float) : outcome Point :=
  match m_partitionedSpace impl with
  | None => Undefined
  | Some rootNode =>
      let rootSqrDist :=
        computeSqrDistanceToBounds queryPoint (getBounds rootNode) in
      let heap := heap_push (rootNode, rootSqrDist) [] in
      result <- bestFirstSearch (countNodes rootNode) (m_vertices impl)
                                queryPoint sqrMaxDist heap noResult ;;
      Ok (fst result)
  end.

(** [ClosestPointQuery::operator()]. *)
Definition query (impl : Impl) (queryPoint : Point) (maxDist : float)
    : outcome Point :=
  match m_partitionedSpace impl with
  | Some _ => processPartitionedSpace impl queryPoint (maxDist * maxDist)%fl
  | None => processMesh impl queryPoint (maxDist * maxDist)%fl
  end.

(** ** OctreeNode.ut.cpp: the point-in-cube predicate of the unit test *)

Definition intersectPoint (cube : AABCube.t) (point : Point) : bool :=
  let distances := Float3.abs (Float3.sub (AABCube.center cube) point) in
  (Float3.x distances <=? AABCube.halfWidth cube)%fl
  && (Float3.y distances <=? AABCube.halfWidth cube)%fl
  && (Float3.z distances <=? AABCube.halfWidth cube)%fl.

(** The traversal [visitNode] of the unit test: the depth of the deepest
    leaf and the size of the fullest leaf. *)
Fixpoint visitNode {T : Type} (node : OctreeNode T) (depth : Z) : Z * Z :=
  match node with
  | mkOctreeNode elements children _ leaf =>
      if leaf then (depth, Z.of_nat (List.length elements))
      else
        (fix visitList (l : list (option (OctreeNode T))) : Z * Z :=
           match l with
           | [] => (0, 0)%Z
           | None :: rest => visitList rest
           | Some child :: rest =>
               let here := visitNode child (depth + 1) in
               let there := visitList rest in
               (Z.max (fst here) (fst there), Z.max (snd here) (snd there))
           end) children
  end.

(** The loop of the unit test: [n] insertions of the same point. *)
Fixpoint insertRepeatedly (n : nat) (maxDepth : Z) (maxFill : float)
    (point : Point) (node : OctreeNode Point) : outcome (OctreeNode Point) :=
  match n with
  | O => Ok node
  | S n' =>
      node' <- insert intersectPoint maxDepth maxFill point node ;;
      insertRepeatedly n' maxDepth maxFill point node'
  end.

(** ** Rational points

    The statements below range over points with rational coordinates,
    injected into [Point] by [pt]. *)

Record Q3 : Type := q3 { qx : Q; qy : Q; qz : Q }.

Definition pt (u : Q3) : Point :=
  Float3.make (Fin (qx u)) (Fin (qy u)) (Fin (qz u)).

Definition qadd (u v : Q3) : Q3 := q3 (qx u + qx v) (qy u + qy v) (qz u + qz v).
Definition qsub (u v : Q3) : Q3 := q3 (qx u - qx v) (qy u - qy v) (qz u - qz v).
Definition qscale (u : Q3) (k : Q) : Q3 := q3 (qx u * k) (qy u * k) (qz u * k).
Definition qdot (u v : Q3) : Q := qx u * qx v + qy u * qy v + qz u * qz v.
Definition qsqr (u : Q3) : Q := qdot u u.

(** Squared Euclidean distance. *)
Definition sqrDist (u v : Q3) : Q := qsqr (qsub u v).

(** [clamp x 0 1] of the specification. *)
Definition clamp01 (x : Q) : Q :=
  if Qlt_bool x 0 then 0 else if Qlt_bool 1 x then 1 else x.

(** Region 2 in the words of the specification... *)
Definition region2_as_specified (a b c d e : Q) : Q * Q :=
  let tmp0 := b + d in
  let tmp1 := c + e in
  if Qlt_bool tmp0 tmp1 then
    let s := clamp01 ((tmp1 - tmp0) / (a - 2 * b + c)) in (s, 1 - s)
  else
    (0, if Qle_bool tmp1 0 then 0
        else if Qle_bool 0 e then 0 else clamp01 (- e / c)).

(** Region 6 in the words of the specification: Region 2 with the roles
    of [s] and [t] swapped. *)
Definition region6_as_specified (a b c d e : Q) : Q * Q :=
  let tmp0 := b + e in
  let tmp1 := a + d in
  if Qlt_bool tmp0 tmp1 then
    let t := clamp01 ((tmp1 - tmp0) / (a - 2 * b + c)) in (1 - t, t)
  else
    (if Qle_bool tmp1 0 then 1
     else if Qle_bool 0 d then 0 else - d / a, 0).

(** The five dot products of the solver, on rational points. *)
Definition gram_a (v0 v1 : Q3) : Q := qsqr (qsub v1 v0).
Definition gram_b (v0 v1 v2 : Q3) : Q := qdot (qsub v1 v0) (qsub v2 v0).
Definition gram_c (v0 v2 : Q3) : Q := qsqr (qsub v2 v0).
Definition gram_d (v0 v1 q : Q3) : Q := qdot (qsub v1 v0) (qsub v0 q).
Definition gram_e (v0 v2 q : Q3) : Q := qdot (qsub v2 v0) (qsub v0 q).

(** ** Points of a triangle and of a cube *)

(** Componentwise equality of rational points. *)
Definition q3eq (u v : Q3) : Prop :=
  qx u == qx v /\ qy u == qy v /\ qz u == qz v.

(** The point of parameters [(s, t)] of the triangle [(v0, v1, v2)]. *)
Definition triangle_point (v0 v1 v2 : Q3) (s t : Q) : Q3 :=
  qadd (qadd v0 (qscale (qsub v1 v0) s)) (qscale (qsub v2 v0) t).


(** [x] lies in the cube of centre [center] and half width [halfWidth]. *)
Definition in_cube (center : Q3) (halfWidth : Q) (x : Q3) : Prop :=
  Qabs (qx x - qx center) <= halfWidth
  /\ Qabs (qy x - qy center) <= halfWidth
  /\ Qabs (qz x - qz center) <= halfWidth.

(** The triangle of the unit tests and of Section 8 of the specification. *)
Definition vertexA : Q3 := q3 0 0 0.
Definition vertexB : Q3 := q3 1 0 0.
Definition vertexC : Q3 := q3 0 1 0.

(** ** Invariants of the octree *)

(** The bounds of the child in the empty slot [index]. *)
Definition octant (bounds : AABCube.t) (index : nat) : AABCube.t :=
  computedChildBounds bounds (Z.of_nat index).

Section TreeInvariant.

Variable T : Type.
Variable intersects : Intersect T.
Variable maxDepth : Z.
(** What is known of every element stored in the tree. *)
Variable valid : T -> Prop.

(** [tree_inv depth reached node]: [node], at depth [depth], has
    received the elements [reached].  Its bounds are finite, a leaf has
    no child and holds the elements it received, an internal node lies
    above [maxDepth], the bounds of a child are the octant of its slot,
    an empty slot has met no element, and a child has received the
    elements that meet its bounds. *)
Inductive tree_inv : Z -> list T -> OctreeNode T -> Prop :=
  | tree_inv_leaf : forall depth reached node center halfWidth,
    isLeaf node = true ->
    m_bounds node = AABCube.make (pt center) (Fin halfWidth) ->
    m_children node = repeat None 8 ->
    incl reached (m_elements node) ->
    Forall valid (m_elements node) ->
    tree_inv depth reached node
  | tree_inv_internal : forall depth reached node center halfWidth,
    isLeaf node = false ->
    m_bounds node = AABCube.make (pt center) (Fin halfWidth) ->
    List.length (m_children node) = 8%nat ->
    (depth < maxDepth)%Z ->
    (forall i, nth_error (m_children node) i = Some None ->
               forall e, In e reached ->
                         intersects (octant (m_bounds node) i) e
                         = false) ->
    (forall i child, nth_error (m_children node) i = Some (Some child) ->
                     m_bounds child = octant (m_bounds node) i) ->
    (forall i child, nth_error (m_children node) i = Some (Some child) ->
                     tree_inv (depth + 1)
                              (filter (intersects (m_bounds child)) reached)
                              child) ->
    tree_inv depth reached node.

(** The fuel that [walkInsert] needs on a node at depth [depth]. *)
Definition fuelNeeded (depth : Z) (node : OctreeNode T) : nat :=
  if isLeaf node then S (2 * Z.to_nat (maxDepth - depth))
  else (2 * Z.to_nat (maxDepth - depth))%nat.

End TreeInvariant.

(** Componentwise order on rational points. *)
Definition le3 (u v : Q3) : Prop :=
  qx u <= qx v /\ qy u <= qy v /\ qz u <= qz v.

(** The vertex of index [i] of a list of rational vertices. *)
Definition vertex_at (vs : list Q3) (i : Z) : option Q3 :=
  if (i <? 0)%Z then None else nth_error vs (Z.to_nat i).

(** The element under which [insertFace] files a face. *)
Definition elementOf (vertices : list Point) (face : Face)
    : outcome OctreeElement :=
  extent <- faceExtent vertices face ;;
  Ok (face, computeBounds extent).

(** The nodes reachable from the entries of a heap. *)
Definition heapMeasure (heap : Heap) : nat :=
  fold_right (fun entry total => (countNodes (fst entry) + total)%nat) 0%nat
             heap.

(** The element comes from a face of the mesh. *)
Definition fromFaces (faces : list Face) (e : OctreeElement) : Prop :=
  In (fst e) faces.

(** ** Invariants of the two searches *)

Section SearchInvariant.

Variable vertices : list Point.
Variable q : Q3.
Variable sqrMaxDist : float.
Variable faces : list Face.

(** The face solver returns the point [p] at squared distance [d]. *)
Definition solves (face : Face) (p : Q3) (d : Q) : Prop :=
  computeClosestPointOnFace face vertices (pt q) = Ok (pt p, Fin d).

End SearchInvariant.

(** The nodes of a list of trees. *)
Definition countAll (nodes : list Node) : nat :=
  fold_right (fun node total => (countNodes node + total)%nat) 0%nat nodes.

(** ** The surface of the mesh *)

(** The triangles that the face solver evaluates on a face. *)
Definition faceTriangles (vs : list Q3) (face : Face)
    : list (Q3 * Q3 * Q3) :=
  match vertexIds face with
  | [i0; i1; i2] =>
      match vertex_at vs i0, vertex_at vs i1, vertex_at vs i2 with
      | Some v0, Some v1, Some v2 => [(v0, v1, v2)]
      | _, _, _ => []
      end
  | [i0; i1; i2; i3] =>
      match vertex_at vs i0, vertex_at vs i1, vertex_at vs i2,
            vertex_at vs i3 with
      | Some v0, Some v1, Some v2, Some v3 => [(v0, v1, v2); (v2, v3, v0)]
      | _, _, _, _ => []
      end
  | _ => []
  end.



(** ** Two meshes

    A flat grid of 4 x 4 cells on the vertices [(i, j, 0)], each cell cut
    into two triangles: 25 vertices and 32 faces, the threshold at which
    the index is built. *)
Definition gridVertices : list Q3 :=
  flat_map (fun j => map (fun i => q3 (inject_Z i) (inject_Z j) 0)
                         [0; 1; 2; 3; 4]%Z)
           [0; 1; 2; 3; 4]%Z.

Definition gridFaces : list Face :=
  flat_map (fun j =>
              flat_map (fun i =>
                          [mkFace [5 * j + i; 5 * j + i + 1; 5 * (j + 1) + i];
                           mkFace [5 * j + i + 1; 5 * (j + 1) + i + 1;
                                   5 * (j + 1) + i]]%Z)
                       [0; 1; 2; 3]%Z)
           [0; 1; 2; 3]%Z.

(** The grid, and far from it one more face whose three vertices lie on a
    line. *)
Definition farVertices : list Q3 :=
  gridVertices ++ [q3 100 100 100; q3 101 101 101; q3 102 102 102].

Definition farFaces : list Face := gridFaces ++ [mkFace [25; 26; 27]%Z].

(** ** Degenerate faces and the faces a query evaluates *)

(** [x] lies on the line through [o] of direction [dir]. *)
Definition on_line (o dir x : Q3) : Prop :=
  exists k : Q, q3eq x (qadd o (qscale dir k)).

(** All the vertices of the face lie on one line. *)
Definition collinear_face (vs : list Q3) (face : Face) : Prop :=
  exists o dir : Q3,
    forall id, In id (vertexIds face) ->
               exists x, vertex_at vs id = Some x /\ on_line o dir x.

(** Every vertex index of the face is an index of [vs]. *)
Definition in_range (vs : list Q3) (face : Face) : Prop :=
  forall id, In id (vertexIds face) -> vertex_at vs id <> None.

(** The loop of a caller: the insertion of the elements of a list, in
    order. *)
Definition insertAll {T : Type} (intersects : Intersect T) (maxDepth : Z)
    (maxFill : float) (elements : list T) (node : OctreeNode T)
    : outcome (OctreeNode T) :=
  fold_left (fun acc element =>
               n <- acc ;; insert intersects maxDepth maxFill element n)
            elements (Ok node).

(** The third scenario of the unit test: the eight corners of a cube, in
    a root of half width 2, with [maxDepth = 10] and [maxFill = 1]. *)
Definition cornerPoints : list Point :=
  map pt [q3 (-1) (-1) (-1); q3 1 (-1) (-1); q3 (-1) 1 (-1); q3 1 1 (-1);
          q3 (-1) (-1) 1; q3 1 (-1) 1; q3 (-1) 1 1; q3 1 1 1].

Definition cornerRoot : OctreeNode Point :=
  newOctreeNode (AABCube.make (pt (q3 0 0 0)) (Fin 2)).

Definition cornerTree : OctreeNode Point :=
  match insertAll intersectPoint 10 (Fin 1) cornerPoints cornerRoot with
  | Ok node => node
  | _ => cornerRoot
  end.

(** What a query may answer: a value, one of the two exceptions of the
    face solver, or the undefined behaviour of a vertex index out of
    range. *)
Definition query_outcome {A : Type} (o : outcome A) : Prop :=
  (exists a, o = Ok a) \/ o = Throw UnsupportedArity
  \/ o = Throw DegenerateTriangle \/ o = Undefined.

(** [acc] is what the scan holds after the faces [done]: the initial
    result when none of them is under the squared radius, and otherwise
    the result of the first of them that is closest. *)
Definition first_closest (vertices : list Point) (q : Q3)
    (sqrMaxDist : float) (done : list Face) (acc : ClosestPointSpec) : Prop :=
  (acc = noResult
   /\ forall f u d, In f done -> solves vertices q f u d ->
                    (Fin d <? sqrMaxDist)%fl = false)
  \/ exists before face after u d,
       done = before ++ face :: after
       /\ solves vertices q face u d
       /\ acc = (pt u, Fin d)
       /\ (Fin d <? sqrMaxDist)%fl = true
       /\ (forall f u' d', In f before -> solves vertices q f u' d' ->
                           (Fin d' <? sqrMaxDist)%fl = true -> d < d')
       /\ (forall f u' d', In f after -> solves vertices q f u' d' ->
                           (Fin d' <? sqrMaxDist)%fl = true -> d <= d').

(** [leads_to intersects element root leaf]: one reaches [leaf] from
    [root] through children whose bounds [element] intersects. *)
Inductive leads_to (T : Type) (intersects : Intersect T) (element : T)
    (root : OctreeNode T) : OctreeNode T -> Prop :=
  | leads_to_root : leads_to intersects element root root
  | leads_to_child : forall node child,
    leads_to intersects element root node ->
    isLeaf node = false ->
    In (Some child) (m_children node) ->
    intersects (m_bounds child) element = true ->
    leads_to intersects element root child.

(** * The program on IEEE binary32

    The definitions above compute on exact rationals.  The program
    computes on [float], IEEE 754 binary32: every addition, subtraction,
    multiplication, division and conversion from [int] is rounded once
    to the nearest number of 24 significant bits, ties to the even
    significand, with gradual underflow (least exponent -149) and
    overflow to an infinity from 2^128 on.  This part defines that
    rounding and the program built on the rounded operations: the same
    [float] values, the same comparisons, [std::abs], [std::min] and
    [std::max] (which are exact), and the rounded arithmetic.

    A number of binary32 is a [Fin q] that rounding leaves unchanged
    ([representable]).  The sign of a zero is not modelled: the
    comparisons of the program do not distinguish the two zeros, and the
    only operation that does, a division by zero, is executed by the
    program with the divisor [0] only where that divisor is a sum of
    squares, never negative. *)

Definition pow2 (e : Z) : Q := (2 ^ e)%Q.

(** The integer [k] with [2^k <= q < 2^(k+1)], for [0 < q]. *)
Definition log2_floor (q : Q) : Z :=
  let k := (Z.log2 (Qnum q) - Z.log2 (Z.pos (Qden q)))%Z in
  if Qle_bool (pow2 k) q then k else (k - 1)%Z.

(** The nearest integer, a tie going to the even one. *)
Definition round_half_even (x : Q) : Z :=
  let f := Qfloor x in
  match (x - inject_Z f ?= 1 # 2)%Q with
  | Lt => f
  | Gt => (f + 1)%Z
  | Eq => if Z.even f then f else (f + 1)%Z
  end.

(** The exponent of the last bit of the significand of a binary32 number
    of the magnitude of [q]. *)
Definition quantum (q : Q) : Z := Z.max (log2_floor q - 23) (-149).

(** Rounding of [0 < q]. *)
Definition round_pos (q : Q) : float :=
  let e := quantum q in
  let r := (inject_Z (round_half_even (q / pow2 e)) * pow2 e)%Q in
  if Qle_bool (pow2 128) r then PInf else Fin (Qred r).

Definition round32 (q : Q) : float :=
  match (q ?= 0)%Q with
  | Eq => Fin 0
  | Gt => round_pos q
  | Lt => fopp (round_pos (- q))
  end.

(** Rounding of the exact result of an operation. *)
Definition rnd (u : float) : float :=
  match u with
  | Fin q => round32 q
  | _ => u
  end.

(** The values of binary32: the infinities, NaN, and the rationals that
    rounding leaves unchanged. *)
Definition representable (u : float) : bool :=
  match u with
  | Fin q => feq (round32 q) u
  | _ => true
  end.

(** [h] is a multiple of [2^e]. *)
Definition on_grid (e : Z) (h : Q) : Prop :=
  exists j : Z, (h == inject_Z j * pow2 e)%Q.

Definition finite (u : float) : bool :=
  match u with
  | Fin _ => true
  | _ => false
  end.

Definition fadd32 (u v : float) : float := rnd (fadd u v).
Definition fsub32 (u v : float) : float := rnd (fsub u v).
Definition fmul32 (u v : float) : float := rnd (fmul u v).
Definition fdiv32 (u v : float) : float := rnd (fdiv u v).
Definition of_int32 (n : Z) : float := round32 (inject_Z n).

(** ** The priority queue

    [std::priority_queue] shows with [top] one of its entries and removes
    it with [pop]; with the comparison [heapCompare] the entry is one of
    least squared distance, and which of several such entries comes
    first is left to the implementation of the standard library.
    [listQueue] is the queue of the definitions above; the properties
    that hold whatever entry comes first are stated for every
    [PriorityQueue] that [removes_top]. *)
Record PriorityQueue : Type := mkQueue {
  queue_top : Heap -> option HeapEntry;
  queue_pop : Heap -> Heap }.

Definition listQueue : PriorityQueue := mkQueue heap_top heap_pop.

Definition removes_top (queue : PriorityQueue) : Prop :=
  forall heap,
    match queue_top queue heap with
    | None => heap = []
    | Some top => Permutation heap (top :: queue_pop queue heap)
    end.

Module Binary32.

#[local] Set Warnings "-notation-overridden".

(** In this module the notations of arithmetic stand for the rounded
    operations. *)
#[local] Notation "u + v" := (fadd32 u v) : fl_scope.
#[local] Notation "u - v" := (fsub32 u v) : fl_scope.
#[local] Notation "u * v" := (fmul32 u v) : fl_scope.
#[local] Notation "u / v" := (fdiv32 u v) : fl_scope.

(** ** Float3.h *)

Module Float3.

Definition add (p q : Float3.t) : Float3.t :=
  Float3.make (Float3.x p + Float3.x q)%fl (Float3.y p + Float3.y q)%fl
              (Float3.z p + Float3.z q)%fl.
Definition add_scalar (p : Float3.t) (r : float) : Float3.t :=
  Float3.make (Float3.x p + r)%fl (Float3.y p + r)%fl (Float3.z p + r)%fl.
Definition sub (p q : Float3.t) : Float3.t :=
  Float3.make (Float3.x p - Float3.x q)%fl (Float3.y p - Float3.y q)%fl
              (Float3.z p - Float3.z q)%fl.
Definition sub_scalar (p : Float3.t) (r : float) : Float3.t :=
  Float3.make (Float3.x p - r)%fl (Float3.y p - r)%fl (Float3.z p - r)%fl.
Definition mul_scalar (p : Float3.t) (r : float) : Float3.t :=
  Float3.make (Float3.x p * r)%fl (Float3.y p * r)%fl (Float3.z p * r)%fl.

Definition dot (p q : Float3.t) : float :=
  (Float3.x p * Float3.x q + Float3.y p * Float3.y q
   + Float3.z p * Float3.z q)%fl.

Definition sqrLength (p : Float3.t) : float := dot p p.

End Float3.

(** ** ClosestPointQuery.cpp, anonymous namespace *)

Definition ieee_divide (num den : float) : outcome float :=
  Ok (num / den)%fl.

Definition checked_divide (num den : float) : outcome float :=
  if safe_operands num den then Ok (num / den)%fl else UnsafeDivision.

Section Triangle.

Variable divide : float -> float -> outcome float.

Open Scope fl_scope.

Definition triangleParameters (a b c d e : float) : outcome (float * float) :=
  let det := a * c - b * b in
  let s1 := b * e - c * d in
  let t1 := b * d - a * e in
  if det =? 0 then Throw DegenerateTriangle
  else
    if s1 + t1 <=? det then
      if s1 <? 0 then
        if t1 <? 0 then
          (* Region 4 *)
          if d <? 0 then
            s2 <- (if - d >=? a then Ok 1 else divide (- d) a) ;;
            Ok (s2, 0)
          else
            t2 <- (if e >=? 0 then Ok 0
                   else if - e >=? c then Ok 1
                   else divide (- e) c) ;;
            Ok (0, t2)
        else
          (* Region 3 *)
          t2 <- (if e >=? 0 then Ok 0
                 else if - e >=? c then Ok 1
                 else divide (- e) c) ;;
          Ok (0, t2)
      else if t1 <? 0 then
        (* Region 5 *)
        s2 <- (if d >=? 0 then Ok 0
               else if - d >=? a then Ok 1
               else divide (- d) a) ;;
        Ok (s2, 0)
      else
        (* Region 0 *)
        invDet <- divide 1 det ;;
        Ok (s1 * invDet, t1 * invDet)
    else
      if s1 <? 0 then
        (* Region 2 *)
        let tmp0 := b + d in
        let tmp1 := c + e in
        if tmp1 >? tmp0 then
          let num := tmp1 - tmp0 in
          let denom := a - 2 * b + c in
          s2 <- (if num >=? denom then Ok 1 else divide num denom) ;;
          Ok (s2, 1 - s2)
        else
          t2 <- (if tmp1 <=? 0 then Ok 1
                 else if e >=? 0 then Ok 0
                 else divide (- e) c) ;;
          Ok (0, t2)
      else if t1 <? 0 then
        (* Region 6 *)
        let tmp0 := b + e in
        let tmp1 := a + d in
        if tmp1 >? tmp0 then
          let num := tmp1 - tmp0 in
          let denom := a - 2 * b + c in
          t2 <- (if num >=? denom then Ok 1 else divide num denom) ;;
          (* [s2 = 1 - s2;] and [s2] still holds [s1] here *)
          Ok (1 - s1, t2)
        else
          s2 <- (if tmp1 <=? 0 then Ok 1
                 else if d >=? 0 then Ok 0
                 else divide (- d) a) ;;
          Ok (s2, 0)
      else
        (* Region 1 *)
        let num := c + e - b - d in
        s2 <- (if num <=? 0 then Ok 0
               else
                 let denom := a - 2 * b + c in
                 if num >=? denom then Ok 1 else divide num denom) ;;
        Ok (s2, 1 - s2).

(** The five dot products of the solver. *)
Definition dotProducts (vertex0 vertex1 vertex2 fromPoint : Point)
    : float * float * float * float * float :=
  let edge0 := Float3.sub vertex1 vertex0 in
  let edge1 := Float3.sub vertex2 vertex0 in
  let v0 := Float3.sub vertex0 fromPoint in
  (Float3.dot edge0 edge0, Float3.dot edge0 edge1, Float3.dot edge1 edge1,
   Float3.dot edge0 v0, Float3.dot edge1 v0).

Definition computeClosestPointOnTriangleWith
    (vertex0 vertex1 vertex2 fromPoint : Point) : outcome ClosestPointSpec :=
  let edge0 := Float3.sub vertex1 vertex0 in
  let edge1 := Float3.sub vertex2 vertex0 in
  let v0 := Float3.sub vertex0 fromPoint in
  let a := Float3.dot edge0 edge0 in
  let b := Float3.dot edge0 edge1 in
  let c := Float3.dot edge1 edge1 in
  let d := Float3.dot edge0 v0 in
  let e := Float3.dot edge1 v0 in
  '(s2, t2) <- triangleParameters a b c d e ;;
  let closestPoint :=
    Float3.add (Float3.add vertex0 (Float3.mul_scalar edge0 s2))
               (Float3.mul_scalar edge1 t2) in
  let sqrDistance := Float3.sqrLength (Float3.sub fromPoint closestPoint) in
  Ok (closestPoint, sqrDistance).

End Triangle.

Definition computeClosestPointOnTriangle :
    Point -> Point -> Point -> Point -> outcome ClosestPointSpec :=
  computeClosestPointOnTriangleWith ieee_divide.

(** ** OctreeNode.h *)

Definition computedChildBounds (bounds : AABCube.t) (index : Z) : AABCube.t :=
  let halfWidth := (AABCube.halfWidth bounds * Fin (1#2))%fl in
  let sign (bit : Z) : float :=
    if Z.testbit index bit then Fin 1 else Fin (-1) in
  let center := AABCube.center bounds in
  AABCube.make
    (Float3.make (Float3.x center + sign 0%Z * halfWidth)%fl
                 (Float3.y center + sign 1%Z * halfWidth)%fl
                 (Float3.z center + sign 2%Z * halfWidth)%fl)
    halfWidth.

(** The number of levels of a tree. *)
Fixpoint treeHeight {T : Type} (node : OctreeNode T) : nat :=
  match node with
  | mkOctreeNode _ children _ _ =>
      S ((fix heightList (l : list (option (OctreeNode T))) : nat :=
            match l with
            | [] => 0%nat
            | None :: rest => heightList rest
            | Some child :: rest => Nat.max (treeHeight child) (heightList rest)
            end) children)
  end.

Section Octree.

Variable T : Type.

Definition childBoundsOf (bounds : AABCube.t) (child : option (OctreeNode T))
    (index : Z) : AABCube.t :=
  match child with
  | Some node => m_bounds node
  | None => computedChildBounds bounds index
  end.

Definition getChildBounds (node : OctreeNode T) (index : Z) : AABCube.t :=
  childBoundsOf (m_bounds node)
                (nth (Z.to_nat index) (m_children node) None) index.

Section Insert.

Variable intersect : Intersect T.
Variable maxDepth : Z.
Variable maxFill : float.

Fixpoint insertInChildren (walk : OctreeNode T -> outcome (OctreeNode T))
  (bounds : AABCube.t) (element : T) (childIndex : Z)
  (children : list (option (OctreeNode T)))
  : outcome (list (option (OctreeNode T))) :=
  match children with
  | [] => Ok []
  | child :: rest =>
    let childBounds := childBoundsOf bounds child childIndex in
    child' <- (if intersect childBounds element then
                 let node := match child with
                             | Some node => node
                             | None => newOctreeNode childBounds
                             end in
                 node' <- walk node ;; Ok (Some node')
               else Ok child) ;;
    rest' <- insertInChildren walk bounds element (childIndex + 1) rest ;;
    Ok (child' :: rest')
  end.

Fixpoint walkInsert (fuel : nat) (element : T) (depth : Z)
  (node : OctreeNode T) : outcome (OctreeNode T) :=
  match fuel with
  | O => OutOfFuel
  | S fuel' =>
    if isLeaf node then
      let depthFillRatio :=
        (of_int32 (Z.of_nat (length (m_elements node)))
         / of_int32 (1 + depth))%fl in
      let shouldSubdivide :=
        (depthFillRatio >? maxFill)%fl && (depth <? maxDepth)%Z in
      if shouldSubdivide then
        (* the while loop: re-insert the last element, then pop it *)
        node1 <- fold_left
                   (fun acc back =>
                      n <- acc ;;
                      n' <- walkInsert fuel' back depth n ;;
                      Ok (pop_back n'))
                   (rev (m_elements node))
                   (Ok (set_isLeaf false node)) ;;
        walkInsert fuel' element depth node1
      else Ok (push_back element node)
    else
      children <- insertInChildren
                    (walkInsert fuel' element (depth + 1))
                    (m_bounds node) element 0 (m_children node) ;;
      Ok (set_children children node)
  end.

(** [insert]: [walkInsert] from depth 0.  A call descends through the
  levels the tree already has, and subdivides a leaf only above
  [maxDepth], each subdivision nesting two calls. *)
Definition insertFuel (node : OctreeNode T) : nat :=
  S (treeHeight node + 2 * Z.to_nat maxDepth).

Definition insert (element : T) (node : OctreeNode T)
  : outcome (OctreeNode T) :=
  walkInsert (insertFuel node) element 0 node.

End Insert.

End Octree.

(** ** ClosestPointQuery.cpp, continued *)

Definition intersect (cube : AABCube.t) (element : OctreeElement) : bool :=
  let box := snd element in
  let distances :=
    Float3.abs (Float3.sub (AABCube.center cube) (AABBox.center box)) in
  let halfWidthSum :=
    Float3.add (Float3.splat (AABCube.halfWidth cube)) (AABBox.halfWidth box) in
  (Float3.x distances <=? Float3.x halfWidthSum)%fl
  && (Float3.y distances <=? Float3.y halfWidthSum)%fl
  && (Float3.z distances <=? Float3.z halfWidthSum)%fl.

Definition computeClosestPointOnFace (face : Face) (vertices : list Point)
    (queryPoint : Point) : outcome ClosestPointSpec :=
  let size := length (vertexIds face) in
  if (size <? 3)%nat || (4 <? size)%nat then Throw UnsupportedArity
  else
    v0 <- at_index vertices (nth 0 (vertexIds face) 0%Z) ;;
    v1 <- at_index vertices (nth 1 (vertexIds face) 0%Z) ;;
    v2 <- at_index vertices (nth 2 (vertexIds face) 0%Z) ;;
    result1 <- computeClosestPointOnTriangle v0 v1 v2 queryPoint ;;
    if (size =? 3)%nat then Ok result1
    else
      v3 <- at_index vertices (nth 3 (vertexIds face) 0%Z) ;;
      result2 <- computeClosestPointOnTriangle v2 v3 v0 queryPoint ;;
      Ok (if (snd result2 <? snd result1)%fl then result2 else result1).

Definition computeCubicBounds (extent : Extent) : AABCube.t :=
  let dimensions := Float3.sub (snd extent) (fst extent) in
  AABCube.make
    (Float3.mul_scalar (Float3.add (fst extent) (snd extent)) (Fin (1#2)))
    (Fin (1#2) * fmax (Float3.x dimensions)
                      (fmax (Float3.y dimensions) (Float3.z dimensions)))%fl.

Definition computeBounds (extent : Extent) : AABBox.t :=
  let dimensions := Float3.sub (snd extent) (fst extent) in
  AABBox.make
    (Float3.mul_scalar (Float3.add (fst extent) (snd extent)) (Fin (1#2)))
    (Float3.mul_scalar dimensions (Fin (1#2))).

Definition computeSqrDistanceToBounds (queryPoint : Point)
    (bounds : AABCube.t) : float :=
  let d := Float3.sub_scalar
             (Float3.abs (Float3.sub queryPoint (AABCube.center bounds)))
             (AABCube.halfWidth bounds) in
  Float3.sqrLength
    (Float3.make (fmax (Float3.x d) 0%fl)
                 (fmax (Float3.y d) 0%fl)
                 (fmax (Float3.z d) 0%fl)).

Definition insertFace (vertices : list Point) (rootNode : Node) (face : Face)
    : outcome Node :=
  extent <- faceExtent vertices face ;;
  insert intersect defaultMaxDepth defaultMaxFill
         (face, computeBounds extent) rootNode.

Definition partitionSpace (vertices : list Point) (faces : list Face)
    : outcome Node :=
  let meshExtent := fold_left growExtent vertices emptyExtent in
  let rootNode := newOctreeNode (computeCubicBounds meshExtent) in
  fold_left (fun acc face => root <- acc ;; insertFace vertices root face)
            faces (Ok rootNode).

(** The constructor [Impl::Impl(const Mesh &)]. *)
Definition newImpl (m : Mesh) : outcome Impl :=
  let vertices := getVertices m in
  let faces := getFaces m in
  match vertices with
  | [] => Throw EmptyMesh
  | _ :: _ =>
      if (Z.of_nat (List.length faces) >=? minSpacePartitioningFaces)%Z then
        root <- partitionSpace vertices faces ;;
        Ok (mkImpl vertices faces (Some root))
      else Ok (mkImpl vertices faces None)
  end.

(** The lambda [reduceClosestPointOnFace] of [processMesh]. *)
Definition reduceClosestPointOnFace (vertices : list Point)
    (queryPoint : Point) (sqrMaxDist : float)
    (inputClosest : ClosestPointSpec) (face : Face)
    : outcome ClosestPointSpec :=
  faceClosest <- computeClosestPointOnFace face vertices queryPoint ;;
  Ok (if (snd faceClosest <? sqrMaxDist)%fl
         && (snd faceClosest <? snd inputClosest)%fl
      then faceClosest else inputClosest).

Definition processMesh (impl : Impl) (queryPoint : Point) (sqrMaxDist : float)
    : outcome Point :=
  closest <- fold_left
               (fun acc face =>
                  inputClosest <- acc ;;
                  reduceClosestPointOnFace (m_vertices impl) queryPoint
                                           sqrMaxDist inputClosest face)
               (m_faces impl) (Ok noResult) ;;
  Ok (fst closest).

(** The lambdas [visitElement] and [visitChild]. *)
Definition visitElement (vertices : list Point) (queryPoint : Point)
    (sqrMaxDist : float) (result : ClosestPointSpec) (element : OctreeElement)
    : outcome ClosestPointSpec :=
  let face := fst element in
  faceClosest <- computeClosestPointOnFace face vertices queryPoint ;;
  Ok (if (snd faceClosest <? sqrMaxDist)%fl
         && (snd faceClosest <? snd result)%fl
      then faceClosest else result).

Definition visitChild (queryPoint : Point) (result : ClosestPointSpec)
    (heap : Heap) (child : Node) : Heap :=
  let nodeSqrDist := computeSqrDistanceToBounds queryPoint (getBounds child) in
  if (nodeSqrDist <? snd result)%fl then heap_push (child, nodeSqrDist) heap
  else heap.

Section Search.

(** The priority queue of the search; [listQueue] in the program as
    modelled here, any [PriorityQueue] in the theorems that do not depend
    on the order of the entries. *)
Variable queue : PriorityQueue.

(** The [while] loop of [processPartitionedSpace]. *)
Fixpoint bestFirstSearchWith (fuel : nat) (vertices : list Point)
    (queryPoint : Point) (sqrMaxDist : float)
    (heap : Heap) (result : ClosestPointSpec) : outcome ClosestPointSpec :=
  match queue_top queue heap with
  | None => Ok result
  | Some top =>
      if (snd top <? snd result)%fl then
        match fuel with
        | O => OutOfFuel
        | S fuel' =>
            let node := fst top in
            let heap := queue_pop queue heap in
            if isLeaf node then
              result' <- acceptElements node
                           (visitElement vertices queryPoint sqrMaxDist)
                           result ;;
              bestFirstSearchWith fuel' vertices queryPoint sqrMaxDist heap
                                  result'
            else
              let heap' := acceptChildren node (visitChild queryPoint result)
                                          heap in
              bestFirstSearchWith fuel' vertices queryPoint sqrMaxDist heap'
                                  result
        end
      else Ok result
  end.

Definition processPartitionedSpaceWith (impl : Impl) (queryPoint : Point)
    (sqrMaxDist : float) : outcome Point :=
  match m_partitionedSpace impl with
  | None => Undefined
  | Some rootNode =>
      let rootSqrDist :=
        computeSqrDistanceToBounds queryPoint (getBounds rootNode) in
      let heap := heap_push (rootNode, rootSqrDist) [] in
      result <- bestFirstSearchWith (countNodes rootNode) (m_vertices impl)
                                    queryPoint sqrMaxDist heap noResult ;;
      Ok (fst result)
  end.

(** [ClosestPointQuery::operator()]. *)
Definition queryWith (impl : Impl) (queryPoint : Point) (maxDist : float)
    : outcome Point :=
  match m_partitionedSpace impl with
  | Some _ =>
      processPartitionedSpaceWith impl queryPoint (maxDist * maxDist)%fl
  | None => processMesh impl queryPoint (maxDist * maxDist)%fl
  end.

End Search.

Definition bestFirstSearch :
    nat -> list Point -> Point -> float -> Heap -> ClosestPointSpec
    -> outcome ClosestPointSpec :=
  bestFirstSearchWith listQueue.

Definition processPartitionedSpace : Impl -> Point -> float -> outcome Point :=
  processPartitionedSpaceWith listQueue.

Definition query : Impl -> Point -> float -> outcome Point :=
  queryWith listQueue.

End Binary32.

(** A float whose finite value is a multiple of [2^-149]: every result of
    a rounded operation is one. *)
Definition gridded (u : float) : Prop :=
  match u with
  | Fin r => on_grid (-149) r
  | _ => True
  end.

(** The five dot products are finite: none of them overflowed. *)
Definition finiteDots (dots : float * float * float * float * float) : bool :=
  let '(a, b, c, d, e) := dots in
  finite a && finite b && finite c && finite d && finite e.

(** A division that refuses a zero divisor, and only that. *)
Definition nonzero_divide (num den : float) : outcome float :=
  if feq den (Fin 0) then UnsafeDivision else Ok (fdiv32 num den).

(** A point whose three coordinates are values of binary32. *)
Definition binary32Point (v : Point) : bool :=
  representable (Float3.x v) && representable (Float3.y v)
  && representable (Float3.z v).

(** [u] lies between 0 and 1. *)
Definition in_unit (u : float) : bool := fle (Fin 0) u && fle u (Fin 1).

(** Region 2 on binary32 in the words of the amended claim: the
    parameters [(s, t)] from the five dot products, with [t = 1] at the
    vertex [v2] and the one-sided tests of the code in place of a clamp. *)
Definition region2_on_binary32 (a b c d e : float) : float * float :=
  let tmp0 := fadd32 b d in
  let tmp1 := fadd32 c e in
  if fgt tmp1 tmp0 then
    let num := fsub32 tmp1 tmp0 in
    let denom := fadd32 (fsub32 a (fmul32 (Fin 2) b)) c in
    let s := if fge num denom then Fin 1 else fdiv32 num denom in
    (s, fsub32 (Fin 1) s)
  else
    (Fin 0,
     if fle tmp1 (Fin 0) then Fin 1
     else if fge e (Fin 0) then Fin 0 else fdiv32 (fopp e) c).

(** The tests that lead the solver to Region 2. *)
Definition inRegion2 (a b c d e : float) : bool :=
  let det := fsub32 (fmul32 a c) (fmul32 b b) in
  let s1 := fsub32 (fmul32 b e) (fmul32 c d) in
  let t1 := fsub32 (fmul32 b d) (fmul32 a e) in
  negb (feq det (Fin 0)) && negb (fle (fadd32 s1 t1) det) && flt s1 (Fin 0).

(** A quadrilateral whose four vertices lie on the line through the
    origin of direction [(4097, 1, 0)]; the coordinates are integers
    below [2^24], numbers of binary32. *)
Definition lineVertices : list Q3 :=
  [q3 0 0 0; q3 4097 1 0; q3 12291 3 0; q3 8194 2 0].

Definition lineQuad : Face := mkFace [0; 1; 2; 3]%Z.

(** ** A mesh whose index loses a face

    A grid of 32 triangles on the square [-1, 1] x [-1, 1] of the plane
    [z = 0], and one more triangle in the plane [x = 1 + 2^-23].  All the
    coordinates are numbers of binary32. *)
Definition edgeVertices : list Q3 :=
  flat_map (fun j => map (fun i => q3 (inject_Z i / 2 - 1)
                                      (inject_Z j / 2 - 1) 0)
                         [0; 1; 2; 3; 4]%Z)
           [0; 1; 2; 3; 4]%Z
  ++ [q3 (1 + pow2 (-23)) 0 0; q3 (1 + pow2 (-23)) 1 0;
      q3 (1 + pow2 (-23)) 0 1].

Definition edgeFace : Face := mkFace [25; 26; 27]%Z.

Definition edgeFaces : list Face := gridFaces ++ [edgeFace].

Definition edgeMesh : Mesh := mkMesh (map pt edgeVertices) edgeFaces.

(** A point of [edgeFace]. *)
Definition edgePoint : Point := pt (q3 (1 + pow2 (-23)) (1 # 4) (1 # 4)).

(** The faces stored in a tree, in all its nodes. *)
Fixpoint storedFaces (node : Node) : list Face :=
  match node with
  | mkOctreeNode elements children _ _ =>
      map fst elements
      ++ (fix storedList (l : list (option Node)) : list Face :=
            match l with
            | [] => []
            | None :: rest => storedList rest
            | Some child :: rest => storedFaces child ++ storedList rest
            end) children
  end.

Definition Q_eq_dec (a b : Q) : {a = b} + {a <> b}.
Proof. decide equality; [apply Pos.eq_dec | apply Z.eq_dec]. Defined.

Definition float_eq_dec (u v : float) : {u = v} + {u <> v}.
Proof. decide equality. apply Q_eq_dec. Defined.

Definition Point_eq_dec (p q : Point) : {p = q} + {p <> q}.
Proof. decide equality; apply float_eq_dec. Defined.

Definition Face_eq_dec (f g : Face) : {f = g} + {f <> g}.
Proof. decide equality. apply (list_eq_dec Z.eq_dec). Defined.

(** The query answers the point [p]. *)
Definition answers (o : outcome Point) (p : Point) : bool :=
  match o with
  | Ok p' => if Point_eq_dec p' p then true else false
  | _ => false
  end.

(** On the face, the solver computes a point other than [avoid], at a
    squared distance that is not below [least]. *)
Definition solvesAwayFrom (vertices : list Point) (queryPoint avoid : Point)
    (least : float) (face : Face) : bool :=
  match Binary32.computeClosestPointOnFace face vertices queryPoint with
  | Ok (p, d) =>
      (if Point_eq_dec p avoid then false else true) && negb (flt d least)
  | _ => false
  end.

(** ** What a query answers on binary32 *)

Section Answers.

Variable vertices : list Point.
Variable queryPoint : Point.
Variable sqrMaxDist : float.
(** The faces of the mesh. *)
Variable faces : list Face.

(** [result] is the initial result of a search, or what the face solver
    computes on a face of the mesh, at a computed squared distance
    strictly below [sqrMaxDist]. *)
Definition accepted (result : ClosestPointSpec) : Prop :=
  result = noResult
  \/ exists face,
       In face faces
       /\ Binary32.computeClosestPointOnFace face vertices queryPoint
          = Ok result
       /\ flt (snd result) sqrMaxDist = true.

(** An outcome is a value that satisfies [good], or the error that the
    face solver raises on a face of the mesh; nothing else. *)
Definition sound (A : Type) (good : A -> Prop) (o : outcome A) : Prop :=
  match o with
  | Ok a => good a
  | Throw e =>
      exists face,
        In face faces
        /\ Binary32.computeClosestPointOnFace face vertices queryPoint
           = Throw e
  | Undefined =>
      exists face,
        In face faces
        /\ Binary32.computeClosestPointOnFace face vertices queryPoint
           = Undefined
  | UnsafeDivision | OutOfFuel => False
  end.


End Answers.


(** * Properties *)


(** ** Comparisons and arithmetic on finite floats *)

Lemma Qlt_bool_spec (a b : Q) : reflect (a < b) (Qlt_bool a b).
Proof.
  unfold Qlt_bool. destruct (Qle_bool b a) eqn:E; constructor.
  - apply Qle_bool_iff in E. lra.
  - destruct (Qlt_le_dec a b) as [H|H]; [exact H|].
    apply Qle_bool_iff in H. congruence.
Qed.

Lemma Qle_bool_spec (a b : Q) : reflect (a <= b) (Qle_bool a b).
Proof.
  destruct (Qle_bool a b) eqn:E; constructor.
  - now apply Qle_bool_iff.
  - intro H. apply Qle_bool_iff in H. congruence.
Qed.

Lemma Qeq_bool_spec (a b : Q) : reflect (a == b) (Qeq_bool a b).
Proof.
  destruct (Qeq_bool a b) eqn:E; constructor.
  - now apply Qeq_bool_iff.
  - now apply Qeq_bool_neq.
Qed.

Lemma flt_spec (a b : Q) : reflect (a < b) (Fin a <? Fin b)%fl.
Proof. apply Qlt_bool_spec. Qed.

Lemma feq_spec (a b : Q) : reflect (a == b) (Fin a =? Fin b)%fl.
Proof. apply Qeq_bool_spec. Qed.

Lemma fle_spec (a b : Q) : reflect (a <= b) (Fin a <=? Fin b)%fl.
Proof.
  unfold fle. cbn [flt feq].
  destruct (Qlt_bool_spec a b), (Qeq_bool_spec a b); constructor; lra.
Qed.

Lemma fdiv_Fin (a b : Q) : ~ b == 0 -> (Fin a / Fin b)%fl = Fin (a / b).
Proof.
  intro H. cbn [fdiv].
  destruct (Qeq_bool_spec b 0); [contradiction | reflexivity].
Qed.

(** Reduce float arithmetic on finite operands to rational arithmetic. *)
Ltac fin_arith :=
  unfold fgt, fge in *;
  cbn [fadd fsub fmul fopp Float3.dot Float3.sub Float3.add
       Float3.mul_scalar Float3.sqrLength Float3.x Float3.y Float3.z
       pt fst snd] in *.

(** Decide one comparison of the goal. *)
Ltac fcase :=
  match goal with
  | |- context [feq (Fin ?a) (Fin ?b)] => destruct (feq_spec a b)
  | |- context [flt (Fin ?a) (Fin ?b)] => destruct (flt_spec a b)
  | |- context [fle (Fin ?a) (Fin ?b)] => destruct (fle_spec a b)
  | |- context [Qlt_bool ?a ?b] => destruct (Qlt_bool_spec a b)
  | |- context [Qle_bool ?a ?b] => destruct (Qle_bool_spec a b)
  | |- context [Qeq_bool ?a ?b] => destruct (Qeq_bool_spec a b)
  end.

Lemma Qsquare_nonneg (x : Q) : 0 <= x * x.
Proof. nra. Qed.

(** ** The Gram determinant *)

Lemma gram_positive (a b c : Q) :
  0 <= a -> 0 <= c -> b * b <= a * c -> ~ a * c - b * b == 0 ->
  0 < a /\ 0 < c /\ 0 < a * c - b * b /\ 0 < a - 2 * b + c.
Proof.
  intros Ha Hc Hb Hdet.
  assert (Hd : 0 < a * c - b * b).
  { destruct (Qlt_le_dec 0 (a * c - b * b)) as [H|H]; [exact H|].
    exfalso. apply Hdet. lra. }
  assert (Ha' : 0 < a).
  { destruct (Qlt_le_dec 0 a) as [H|H]; [exact H|].
    assert (a == 0) by lra. nra. }
  assert (Hc' : 0 < c).
  { destruct (Qlt_le_dec 0 c) as [H|H]; [exact H|].
    assert (c == 0) by lra. nra. }
  repeat split; try assumption.
  destruct (Qlt_le_dec 0 (a - 2 * b + c)) as [H|H]; [exact H|].
  assert (H1 : a * (a - 2 * b + c) == (a - b) * (a - b) + (a * c - b * b))
    by ring.
  pose proof (Qsquare_nonneg (a - b)) as H2.
  assert (H3 : a * (a - 2 * b + c) <= 0) by nra.
  lra.
Qed.

(** Cauchy-Schwarz, through Lagrange's identity. *)
Lemma cauchy_schwarz (u v : Q3) : qdot u v * qdot u v <= qsqr u * qsqr v.
Proof.
  destruct u as [u1 u2 u3], v as [v1 v2 v3]. unfold qsqr, qdot; cbn [qx qy qz].
  pose proof (Qsquare_nonneg (u1 * v2 - u2 * v1)).
  pose proof (Qsquare_nonneg (u1 * v3 - u3 * v1)).
  pose proof (Qsquare_nonneg (u2 * v3 - u3 * v2)).
  assert (E : (u1 * u1 + u2 * u2 + u3 * u3) * (v1 * v1 + v2 * v2 + v3 * v3)
              - (u1 * v1 + u2 * v2 + u3 * v3) * (u1 * v1 + u2 * v2 + u3 * v3)
              == (u1 * v2 - u2 * v1) * (u1 * v2 - u2 * v1)
                 + (u1 * v3 - u3 * v1) * (u1 * v3 - u3 * v1)
                 + (u2 * v3 - u3 * v2) * (u2 * v3 - u3 * v2)) by ring.
  lra.
Qed.

Lemma qsqr_nonneg (u : Q3) : 0 <= qsqr u.
Proof.
  destruct u as [u1 u2 u3]. unfold qsqr, qdot; cbn [qx qy qz].
  pose proof (Qsquare_nonneg u1). pose proof (Qsquare_nonneg u2).
  pose proof (Qsquare_nonneg u3). lra.
Qed.

(** ** The region analysis of the triangle solver *)

(** Replace the quotient of the one division of a branch by a variable
    [r] with [r * divisor == numerator]. *)
Ltac divide_out :=
  match goal with
  | |- context [ieee_divide (Fin ?n) (Fin ?m)] =>
      unfold ieee_divide; rewrite (@fdiv_Fin n m) by lra;
      let s := fresh "r" in
      let H := fresh "Hr" in
      assert (H : (n / m) * m == n) by (field; lra);
      set (s := n / m) in *; clearbody s
  end.

(** ** The triangle solver on rational points *)

Lemma solver_on_rationals (divide : float -> float -> outcome float)
    (v0 v1 v2 q : Q3) :
  computeClosestPointOnTriangleWith divide (pt v0) (pt v1) (pt v2) (pt q)
  = ('(s2, t2) <- triangleParameters divide
                    (Fin (gram_a v0 v1)) (Fin (gram_b v0 v1 v2))
                    (Fin (gram_c v0 v2)) (Fin (gram_d v0 v1 q))
                    (Fin (gram_e v0 v2 q)) ;;
     let closestPoint :=
       Float3.add (Float3.add (pt v0)
                              (Float3.mul_scalar (pt (qsub v1 v0)) s2))
                  (Float3.mul_scalar (pt (qsub v2 v0)) t2) in
     Ok (closestPoint,
         Float3.sqrLength (Float3.sub (pt q) closestPoint))).
Proof. reflexivity. Qed.

Lemma gram_facts (v0 v1 v2 : Q3) :
  0 <= gram_a v0 v1 /\ 0 <= gram_c v0 v2
  /\ gram_b v0 v1 v2 * gram_b v0 v1 v2 <= gram_a v0 v1 * gram_c v0 v2.
Proof.
  unfold gram_a, gram_b, gram_c. repeat split.
  - apply qsqr_nonneg.
  - apply qsqr_nonneg.
  - apply cauchy_schwarz.
Qed.

(** On Gram data the solver throws or returns finite parameters. *)
Lemma triangleParameters_finite (a b c d e : Q) :
  0 <= a -> 0 <= c -> b * b <= a * c ->
  (a * c - b * b == 0
   /\ triangleParameters ieee_divide (Fin a) (Fin b) (Fin c) (Fin d) (Fin e)
      = Throw DegenerateTriangle)
  \/ (~ a * c - b * b == 0
      /\ exists s t : Q,
           triangleParameters ieee_divide
             (Fin a) (Fin b) (Fin c) (Fin d) (Fin e) = Ok (Fin s, Fin t)).
Proof.
  intros Ha Hc Hb. unfold triangleParameters. fin_arith.
  fcase; [left; split; [assumption | reflexivity]|].
  right. split; [assumption|].
  destruct (@gram_positive _ _ _ Ha Hc Hb n) as (Ha' & Hc' & Hd' & Hden).
  repeat fcase; try divide_out; cbn [bind fsub fadd fopp fmul];
    eexists; eexists; reflexivity.
Qed.

Lemma triangle_solver_finite (v0 v1 v2 q : Q3) :
  (gram_a v0 v1 * gram_c v0 v2 - gram_b v0 v1 v2 * gram_b v0 v1 v2 == 0
   /\ computeClosestPointOnTriangle (pt v0) (pt v1) (pt v2) (pt q)
      = Throw DegenerateTriangle)
  \/ (~ gram_a v0 v1 * gram_c v0 v2 - gram_b v0 v1 v2 * gram_b v0 v1 v2 == 0
      /\ exists s t : Q,
           computeClosestPointOnTriangle (pt v0) (pt v1) (pt v2) (pt q)
           = Ok (pt (triangle_point v0 v1 v2 s t),
                 Fin (sqrDist q (triangle_point v0 v1 v2 s t)))).
Proof.
  destruct (gram_facts v0 v1 v2) as (Ha & Hc & Hb).
  unfold computeClosestPointOnTriangle. rewrite solver_on_rationals.
  destruct (@triangleParameters_finite _ _ _ (gram_d v0 v1 q) (gram_e v0 v2 q)
              Ha Hc Hb) as [[Hz E]|[Hnz (s & t & E)]]; rewrite E.
  - left. split; [exact Hz | reflexivity].
  - right. split; [exact Hnz|]. exists s, t. reflexivity.
Qed.

(** ** Region 6 and Region 2 of the triangle solver *)

(** C3. Region 6, edge branch, at [v0 = (0,0,0)], [v1 = (1,0,0)],
    [v2 = (2,1,0)] and [q = (3,-1,0)]: the code computes [t = 1/2] but
    [s = 1 - s1 = -4], where the specification (Region 2 with the roles of
    [s] and [t] swapped) has [s = 1 - t = 1/2]; the returned point is
    [(-3, 1/2, 0)], outside the triangle. *)
Theorem region6_edge_slip :
  let v0 := q3 0 0 0 in
  let v1 := q3 1 0 0 in
  let v2 := q3 2 1 0 in
  let q := q3 3 (-1) 0 in
  let a := gram_a v0 v1 in
  let b := gram_b v0 v1 v2 in
  let c := gram_c v0 v2 in
  let d := gram_d v0 v1 q in
  let e := gram_e v0 v2 q in
  takesRegion6Edge (pt v0) (pt v1) (pt v2) (pt q) = true
  /\ exists s t : Q,
       triangleParameters ieee_divide (Fin a) (Fin b) (Fin c) (Fin d) (Fin e)
       = Ok (Fin s, Fin t)
       /\ s == -4 /\ t == 1 # 2
       /\ snd (region6_as_specified a b c d e) == t
       /\ fst (region6_as_specified a b c d e) == 1 # 2
       /\ ~ s == fst (region6_as_specified a b c d e)
       /\ exists result : ClosestPointSpec,
            computeClosestPointOnTriangle (pt v0) (pt v1) (pt v2) (pt q)
            = Ok result
            /\ Float3.eqb (fst result) (pt (q3 (-3) (1 # 2) 0)) = true
            /\ (snd result =? Fin (153 # 4))%fl = true.
Proof.
  cbv zeta. split; [vm_compute; reflexivity|].
  eexists; eexists. split; [vm_compute; reflexivity|].
  repeat split; try (vm_compute; reflexivity).
  - vm_compute. discriminate.
  - eexists. split; [vm_compute; reflexivity|].
    split; vm_compute; reflexivity.
Qed.

(** C4 as stated fails at the vertex [v2]: for the triangle [A B C] and
    [q = (-1/2, 2, 0)], in Region 2 with [tmp1 = -1 <= 0], the code
    returns [t = 1] (the point [C], as Section 8 of the specification
    expects) and not [t = 0].  No operation of this run rounds: the
    solver on binary32 returns the same parameters. *)
Lemma region2_as_specified_fails :
  let q := q3 (- (1 # 2)) 2 0 in
  let a := gram_a vertexA vertexB in
  let b := gram_b vertexA vertexB vertexC in
  let c := gram_c vertexA vertexC in
  let d := gram_d vertexA vertexB q in
  let e := gram_e vertexA vertexC q in
  (a * c - b * b < (b * e - c * d) + (b * d - a * e) /\ b * e - c * d < 0)
  /\ c + e <= 0
  /\ triangleParameters ieee_divide (Fin a) (Fin b) (Fin c) (Fin d) (Fin e)
     = Ok (Fin 0, Fin 1)
  /\ region2_as_specified a b c d e = (0, 0)
  /\ inRegion2 (Fin a) (Fin b) (Fin c) (Fin d) (Fin e) = true
  /\ Binary32.triangleParameters Binary32.ieee_divide
       (Fin a) (Fin b) (Fin c) (Fin d) (Fin e) = Ok (Fin 0, Fin 1)
  /\ ~ (exists s t : Q,
          triangleParameters ieee_divide
            (Fin a) (Fin b) (Fin c) (Fin d) (Fin e) = Ok (Fin s, Fin t)
          /\ s == fst (region2_as_specified a b c d e)
          /\ t == snd (region2_as_specified a b c d e)).
Proof.
  cbv zeta. repeat split; try (vm_compute; reflexivity).
  - vm_compute. discriminate.
  - intros (s & t & E & _ & Ht).
    vm_compute in E. injection E as _ Et. subst t.
    vm_compute in Ht. discriminate.
Qed.

(** ** [std::max] and [std::min] on finite floats *)

Lemma fmax_Fin (u v : Q) :
  fmax (Fin u) (Fin v) = Fin (if Qlt_bool u v then v else u).
Proof. unfold fmax. cbn [flt]. destruct (Qlt_bool u v); reflexivity. Qed.

Lemma fmin_Fin (u v : Q) :
  fmin (Fin u) (Fin v) = Fin (if Qlt_bool v u then v else u).
Proof. unfold fmin. cbn [flt]. destruct (Qlt_bool v u); reflexivity. Qed.

(** ** The face solver *)

(** C6. The face solver on a quadrilateral returns the result of the
    triangle solver on [(v0, v1, v2)] or on [(v2, v3, v0)], whichever has
    the smaller squared distance, and the first one when the two squared
    distances are equal; on a triangle it returns the result of the
    triangle solver; and a face of any other arity raises
    [UnsupportedArity]. *)
Theorem face_solver_cases (vertices : list Point) (queryPoint : Point) :
  (forall i0 i1 i2 i3 v0 v1 v2 v3 result1 result2,
      at_index vertices i0 = Ok v0 -> at_index vertices i1 = Ok v1 ->
      at_index vertices i2 = Ok v2 -> at_index vertices i3 = Ok v3 ->
      computeClosestPointOnTriangle v0 v1 v2 queryPoint = Ok result1 ->
      computeClosestPointOnTriangle v2 v3 v0 queryPoint = Ok result2 ->
      let answer :=
        computeClosestPointOnFace (mkFace [i0; i1; i2; i3]) vertices
                                  queryPoint in
      ((snd result2 <? snd result1)%fl = true -> answer = Ok result2)
      /\ ((snd result1 <? snd result2)%fl = true -> answer = Ok result1)
      /\ ((snd result1 =? snd result2)%fl = true -> answer = Ok result1)
      /\ (answer = Ok result1 \/ answer = Ok result2))
  /\ (forall i0 i1 i2 v0 v1 v2,
         at_index vertices i0 = Ok v0 -> at_index vertices i1 = Ok v1 ->
         at_index vertices i2 = Ok v2 ->
         computeClosestPointOnFace (mkFace [i0; i1; i2]) vertices queryPoint
         = computeClosestPointOnTriangle v0 v1 v2 queryPoint)
  /\ (forall face,
         List.length (vertexIds face) <> 3%nat ->
         List.length (vertexIds face) <> 4%nat ->
         computeClosestPointOnFace face vertices queryPoint
         = Throw UnsupportedArity).
Proof.
  split; [|split].
  - intros i0 i1 i2 i3 v0 v1 v2 v3 [p1 d1] [p2 d2] E0 E1 E2 E3 R1 R2 answer.
    assert (Ea : answer
                 = Ok (if (d2 <? d1)%fl then (p2, d2) else (p1, d1))).
    { unfold answer, computeClosestPointOnFace.
      cbn [vertexIds List.length Nat.ltb Nat.leb Nat.eqb orb nth].
      rewrite E0, E1, E2. cbn [bind]. rewrite R1. cbn [bind].
      rewrite E3. cbn [bind]. rewrite R2. reflexivity. }
    rewrite Ea. cbn [snd].
    assert (Hasym : (d1 <? d2)%fl = true -> (d2 <? d1)%fl = false).
    { destruct d1 as [x| | |], d2 as [y| | |]; cbn; try discriminate;
        try reflexivity.
      destruct (Qlt_bool_spec x y), (Qlt_bool_spec y x);
        try reflexivity; try discriminate. lra. }
    assert (Htie : (d1 =? d2)%fl = true -> (d2 <? d1)%fl = false).
    { destruct d1 as [x| | |], d2 as [y| | |]; cbn; try discriminate;
        try reflexivity.
      destruct (Qeq_bool_spec x y), (Qlt_bool_spec y x);
        try reflexivity; try discriminate. lra. }
    repeat split.
    + intros ->. reflexivity.
    + intro H. rewrite (Hasym H). reflexivity.
    + intro H. rewrite (Htie H). reflexivity.
    + destruct (d2 <? d1)%fl; [right|left]; reflexivity.
  - intros i0 i1 i2 v0 v1 v2 E0 E1 E2.
    unfold computeClosestPointOnFace.
    cbn [vertexIds List.length Nat.ltb Nat.leb Nat.eqb orb nth].
    rewrite E0, E1, E2. cbn [bind].
    destruct (computeClosestPointOnTriangle v0 v1 v2 queryPoint); reflexivity.
  - intros [ids] H3 H4. unfold computeClosestPointOnFace.
    cbn [vertexIds] in *.
    destruct (Nat.ltb_spec (List.length ids) 3) as [Hlt|Hge];
      [reflexivity|].
    destruct (Nat.ltb_spec 4 (List.length ids)) as [Hgt|Hle];
      [reflexivity|].
    lia.
Qed.

(** A witness for C6: the unit square, split along its diagonal, seen
    from above its centre (a tie), and a pentagon. *)
Lemma face_solver_cases_witness :
  let vertices :=
    [pt (q3 0 0 0); pt (q3 1 0 0); pt (q3 1 1 0); pt (q3 0 1 0);
     pt (q3 0 (1 # 2) 0)] in
  let q := pt (q3 (1 # 2) (1 # 2) 1) in
  (exists result1,
      computeClosestPointOnTriangle (pt (q3 0 0 0)) (pt (q3 1 0 0))
                                    (pt (q3 1 1 0)) q = Ok result1
      /\ computeClosestPointOnFace (mkFace [0; 1; 2; 3]%Z) vertices q
         = Ok result1)
  /\ computeClosestPointOnFace (mkFace [0; 1; 2; 3; 4]%Z) vertices q
     = Throw UnsupportedArity.
Proof.
  cbv zeta.
  destruct (face_solver_cases
              [pt (q3 0 0 0); pt (q3 1 0 0); pt (q3 1 1 0); pt (q3 0 1 0);
               pt (q3 0 (1 # 2) 0)]
              (pt (q3 (1 # 2) (1 # 2) 1))) as (Hquad & _ & Harity).
  split.
  - eexists. split; [vm_compute; reflexivity|].
    refine (proj1 (proj2 (proj2
      (Hquad 0%Z 1%Z 2%Z 3%Z _ _ _ _ _ _
         eq_refl eq_refl eq_refl eq_refl _ _))) _).
    + vm_compute; reflexivity.
    + vm_compute; reflexivity.
    + vm_compute; reflexivity.
  - apply Harity; cbn; discriminate.
Defined.

(** ** The octree of the unit test *)

(** C8. Inserting 20 points at the origin into an octree whose root cube
    is centred at the origin with half width 0.5, with the point-in-cube
    predicate, [maxDepth = 100] and [maxFill = 3], gives a tree whose root
    is not a leaf, whose deepest leaf is at depth 6 and whose fullest leaf
    holds the 20 points; at depth 6 the fill ratio [20 / (1 + 6)] does not
    exceed 3, and after 19 insertions the deepest leaf is still at
    depth 5. *)
Theorem twenty_coincident_points :
  let origin := Float3.splat (Fin 0) in
  let rootNode := newOctreeNode (AABCube.make origin (Fin (1 # 2))) in
  (exists tree : OctreeNode Point,
      insertRepeatedly 20 100 (Fin 3) origin rootNode = Ok tree
      /\ isLeaf tree = false
      /\ visitNode tree 0 = (6, 20)%Z)
  /\ (of_int 20 / of_int (1 + 6) >? Fin 3)%fl = false
  /\ (exists tree : OctreeNode Point,
         insertRepeatedly 19 100 (Fin 3) origin rootNode = Ok tree
         /\ visitNode tree 0 = (5, 19)%Z).
Proof.
  cbv zeta. split; [|split].
  - eexists. split; [vm_compute; reflexivity|].
    split; vm_compute; reflexivity.
  - vm_compute. reflexivity.
  - eexists. split; [vm_compute; reflexivity|]. vm_compute; reflexivity.
Qed.

(** ** Construction and the empty face list *)

Lemma newImpl_below_threshold (v : Point) (vs : list Point)
    (faces : list Face) :
  (Z.of_nat (List.length faces) < minSpacePartitioningFaces)%Z ->
  newImpl (mkMesh (v :: vs) faces) = Ok (mkImpl (v :: vs) faces None).
Proof.
  intro H. unfold newImpl. cbn [getVertices getFaces].
  destruct (Z.geb_spec (Z.of_nat (List.length faces))
                       minSpacePartitioningFaces) as [Hge|Hlt];
    [lia | reflexivity].
Qed.

(** C10. A mesh with at least one vertex and no face is accepted by the
    constructor, which builds no index; every query on it returns the
    all-NaN point and raises nothing.  An empty vertex list raises
    [EmptyMesh], whatever the faces; and below 32 faces no index is
    built. *)
Theorem faceless_mesh_answers_nan (v : Point) (vs : list Point) :
  newImpl (mkMesh (v :: vs) []) = Ok (mkImpl (v :: vs) [] None)
  /\ (forall (queryPoint : Point) (maxDist : float),
         query (mkImpl (v :: vs) [] None) queryPoint maxDist
         = Ok (Float3.splat nan))
  /\ Float3.hasNan (Float3.splat nan) = true
  /\ (forall faces : list Face,
         newImpl (mkMesh [] faces) = Throw EmptyMesh)
  /\ (forall faces : list Face,
         (Z.of_nat (List.length faces) < 32)%Z ->
         newImpl (mkMesh (v :: vs) faces)
         = Ok (mkImpl (v :: vs) faces None)).
Proof.
  repeat split.
  - intros faces H. apply newImpl_below_threshold. exact H.
Qed.

(** A witness for C10: one vertex, and then one triangle on three
    vertices. *)
Lemma faceless_mesh_answers_nan_witness :
  query (mkImpl [pt vertexA] [] None) (pt (q3 1 2 3)) (Fin 5)
  = Ok (Float3.splat nan)
  /\ newImpl (mkMesh [pt vertexA; pt vertexB; pt vertexC]
                     [mkFace [0; 1; 2]%Z])
     = Ok (mkImpl [pt vertexA; pt vertexB; pt vertexC]
                  [mkFace [0; 1; 2]%Z] None).
Proof.
  destruct (faceless_mesh_answers_nan (pt vertexA) []) as (_ & Hq & _ & _ & _).
  split; [apply Hq|].
  destruct (faceless_mesh_answers_nan (pt vertexA) [pt vertexB; pt vertexC])
    as (_ & _ & _ & _ & Hsmall).
  apply Hsmall. cbn. lia.
Defined.

(** ** Insertion in the octree: it returns, and it keeps the invariant *)

Section InsertProofs.

Variable T : Type.
Variable intersects : Intersect T.
Variable maxDepth : Z.
Variable maxFill : float.
Variable valid : T -> Prop.

Lemma insertInChildren_spec (walk : OctreeNode T -> outcome (OctreeNode T))
    (bounds : AABCube.t) (elt : T) :
  forall children idx children',
    insertInChildren intersects walk bounds elt idx children = Ok children' ->
    List.length children' = List.length children
    /\ forall i slot,
         nth_error children i = Some slot ->
         if intersects (childBoundsOf bounds slot (idx + Z.of_nat i)) elt
         then exists n',
                walk (match slot with
                      | Some n => n
                      | None => newOctreeNode
                                  (childBoundsOf bounds slot
                                                 (idx + Z.of_nat i))
                      end) = Ok n'
                /\ nth_error children' i = Some (Some n')
         else nth_error children' i = Some slot.
Proof.
  induction children as [|child rest IH]; intros idx children' E.
  - cbn in E. injection E as <-. split; [reflexivity|].
    intros [|i] slot H; discriminate H.
  - cbn [insertInChildren] in E.
    destruct (intersects (childBoundsOf bounds child idx) elt) eqn:Hi.
    + destruct (walk match child with
                     | Some node => node
                     | None => newOctreeNode (childBoundsOf bounds child idx)
                     end) as [n'| | | |] eqn:Hw; try discriminate E.
      cbn [bind] in E.
      destruct (insertInChildren intersects walk bounds elt (idx + 1) rest)
        as [rest'| | | |] eqn:Hr; try discriminate E.
      cbn [bind] in E. injection E as <-.
      destruct (IH _ _ Hr) as [Hlen Hnth].
      split; [cbn; congruence|].
      intros [|i] slot H.
      * cbn in H. injection H as <-.
        replace (idx + Z.of_nat 0)%Z with idx by lia.
        rewrite Hi. exists n'. split; [exact Hw | reflexivity].
      * cbn in H. specialize (Hnth i slot H).
        replace (idx + Z.of_nat (S i))%Z with (idx + 1 + Z.of_nat i)%Z
          by lia.
        exact Hnth.
    + cbn [bind] in E.
      destruct (insertInChildren intersects walk bounds elt (idx + 1) rest)
        as [rest'| | | |] eqn:Hr; try discriminate E.
      cbn [bind] in E. injection E as <-.
      destruct (IH _ _ Hr) as [Hlen Hnth].
      split; [cbn; congruence|].
      intros [|i] slot H.
      * cbn in H. injection H as <-.
        replace (idx + Z.of_nat 0)%Z with idx by lia.
        rewrite Hi. reflexivity.
      * cbn in H. specialize (Hnth i slot H).
        replace (idx + Z.of_nat (S i))%Z with (idx + 1 + Z.of_nat i)%Z
          by lia.
        exact Hnth.
Qed.

Lemma insertInChildren_total (walk : OctreeNode T -> outcome (OctreeNode T))
    (bounds : AABCube.t) (elt : T) :
  forall children idx,
    (forall i slot,
        nth_error children i = Some slot ->
        intersects (childBoundsOf bounds slot (idx + Z.of_nat i)) elt = true ->
        exists n',
          walk (match slot with
                | Some n => n
                | None => newOctreeNode
                            (childBoundsOf bounds slot (idx + Z.of_nat i))
                end) = Ok n') ->
    exists children',
      insertInChildren intersects walk bounds elt idx children = Ok children'.
Proof.
  induction children as [|child rest IH]; intros idx H.
  - exists []. reflexivity.
  - cbn [insertInChildren].
    destruct (IH (idx + 1)%Z) as [rest' Hr].
    { intros i slot Hn Hi. specialize (H (S i) slot Hn).
      replace (idx + Z.of_nat (S i))%Z with (idx + 1 + Z.of_nat i)%Z in H
        by lia.
      exact (H Hi). }
    rewrite Hr.
    destruct (intersects (childBoundsOf bounds child idx) elt) eqn:Hi.
    + specialize (H 0%nat child eq_refl).
      replace (idx + Z.of_nat 0)%Z with idx in H by lia.
      destruct (H Hi) as [n' Hw]. rewrite Hw. cbn [bind].
      eexists. reflexivity.
    + cbn [bind]. eexists. reflexivity.
Qed.

Lemma tree_inv_incl (depth : Z) (reached' : list T) (node : OctreeNode T) :
  tree_inv intersects maxDepth valid depth reached' node ->
  forall reached, incl reached reached' ->
  tree_inv intersects maxDepth valid depth reached node.
Proof.
  induction 1 as [depth reached' node c h Hl Hb Hc Hin Hv
                 |depth reached' node c h Hl Hb Hlen Hd Hnone Hbc Hch IH];
    intros reached Hincl.
  - apply tree_inv_leaf with (center := c) (halfWidth := h);
      try assumption.
    intros e He. apply Hin, Hincl, He.
  - apply tree_inv_internal with (center := c) (halfWidth := h);
      try assumption.
    + intros i Hi e He. apply (Hnone i Hi). apply Hincl, He.
    + intros i child Hi. apply (IH i child Hi).
      intros e He. apply filter_In in He as [He1 He2].
      apply filter_In. split; [apply Hincl, He1 | exact He2].
Qed.

Lemma octant_finite (center : Q3) (halfWidth : Q) (i : nat) :
  exists center' halfWidth',
    octant (AABCube.make (pt center) (Fin halfWidth)) i
    = AABCube.make (pt center') (Fin halfWidth').
Proof.
  unfold octant, computedChildBounds.
  cbn [AABCube.center AABCube.halfWidth Float3.x Float3.y Float3.z pt fmul].
  destruct (Z.testbit (Z.of_nat i) 0), (Z.testbit (Z.of_nat i) 1),
           (Z.testbit (Z.of_nat i) 2);
    cbn [fmul fadd];
    match goal with
    | |- exists _ _, AABCube.make (Float3.make (Fin ?a) (Fin ?b) (Fin ?c))
                                  (Fin ?h) = _ =>
        exists (q3 a b c), h; reflexivity
    end.
Qed.

Lemma nth_error_repeat_None (A : Type) (n i : nat) (a : A) :
  nth_error (repeat (@None A) n) i <> Some (Some a).
Proof.
  revert i. induction n as [|n IH]; intros [|i]; cbn; try discriminate.
  apply IH.
Qed.

End InsertProofs.

Section InsertInvariant.

Variable T : Type.
Variable intersects : Intersect T.
Variable maxDepth : Z.
Variable maxFill : float.
Variable valid : T -> Prop.

Let inv := tree_inv intersects maxDepth valid.
Let walk := walkInsert intersects maxDepth maxFill.

Lemma fuelNeeded_child (depth : Z) (node child : OctreeNode T) (fuel : nat) :
  (depth < maxDepth)%Z -> isLeaf node = false ->
  (fuelNeeded maxDepth depth node <= S fuel)%nat ->
  (fuelNeeded maxDepth (depth + 1) child <= fuel)%nat.
Proof.
  unfold fuelNeeded. intros Hd -> Hf.
  replace (maxDepth - depth)%Z with (Z.succ (maxDepth - (depth + 1)))%Z in Hf
    by lia.
  rewrite Z2Nat.inj_succ in Hf by lia.
  destruct (isLeaf child); lia.
Qed.

(** The while loop of a subdivision. *)
Lemma reinsert_all (fuel : nat) (depth : Z) :
  (forall reached node elt,
      inv depth reached node -> isLeaf node = false -> valid elt ->
      exists node',
        walk fuel elt depth node = Ok node'
        /\ inv depth (elt :: reached) node'
        /\ m_bounds node' = m_bounds node
        /\ isLeaf node' = false) ->
  forall backs reached node,
    Forall valid backs ->
    inv depth reached node -> isLeaf node = false ->
    exists node',
      fold_left (fun acc back =>
                   n <- acc ;;
                   n' <- walk fuel back depth n ;;
                   Ok (pop_back n'))
                backs (Ok node) = Ok node'
      /\ inv depth (rev backs ++ reached) node'
      /\ m_bounds node' = m_bounds node
      /\ isLeaf node' = false.
Proof.
  intros Hwalk. induction backs as [|back backs IH];
    intros reached node Hv Hinv Hleaf.
  - exists node. repeat split; assumption.
  - inversion Hv as [|? ? Hback Hbacks]; subst.
    destruct (Hwalk reached node back Hinv Hleaf Hback)
      as (n' & Hw & Hinv' & Hb' & Hl').
    assert (Hpop : inv depth (back :: reached) (pop_back n')).
    { inversion Hinv' as [? ? ? c h Hl|? ? ? c h Hl Hbd Hlen Hd Hnone Hbc Hch];
        subst; [unfold isLeaf in *; congruence|].
      apply tree_inv_internal with (center := c) (halfWidth := h);
        assumption. }
    destruct (IH (back :: reached) (pop_back n') Hbacks Hpop Hl')
      as (n'' & Hf & Hinv'' & Hb'' & Hl'').
    exists n''. cbn [fold_left bind]. rewrite Hw. cbn [bind].
    split; [exact Hf|]. split; [|split].
    + cbn [rev]. rewrite <- app_assoc. exact Hinv''.
    + rewrite Hb''. exact Hb'.
    + exact Hl''.
Qed.

Lemma walkInsert_inv :
  forall fuel depth reached node elt,
    inv depth reached node -> valid elt ->
    (fuelNeeded maxDepth depth node <= fuel)%nat ->
    exists node',
      walk fuel elt depth node = Ok node'
      /\ inv depth (elt :: reached) node'
      /\ m_bounds node' = m_bounds node
      /\ (isLeaf node = false -> isLeaf node' = false).
Proof.
  induction fuel as [|fuel IH]; intros depth reached node elt Hinv Hv Hfuel.
  { exfalso. unfold fuelNeeded in Hfuel.
    inversion Hinv as [? ? ? c h Hl|? ? ? c h Hl Hbd Hlen Hd]; subst;
      rewrite Hl in Hfuel; [lia|].
    replace (maxDepth - depth)%Z with (Z.succ (maxDepth - (depth + 1)))%Z
      in Hfuel by lia.
    rewrite Z2Nat.inj_succ in Hfuel by lia. lia. }
  unfold walk. cbn [walkInsert]. fold walk.
  inversion Hinv as [? ? ? c h Hl Hb Hc Hin Hval
                    |? ? ? c h Hl Hb Hlen Hd Hnone Hbc Hch]; subst.
  - (* a leaf *)
    rewrite Hl.
    destruct ((of_int (Z.of_nat (List.length (m_elements node)))
               / of_int (1 + depth) >? maxFill)%fl
              && (depth <? maxDepth)%Z) eqn:Hsub.
    + apply andb_prop in Hsub as [_ Hd]. apply Z.ltb_lt in Hd.
      assert (Hfuel' : (2 * Z.to_nat (maxDepth - depth) <= fuel)%nat).
      { unfold fuelNeeded in Hfuel. rewrite Hl in Hfuel. lia. }
      assert (Hwalk : forall reached0 node0 elt0,
                 inv depth reached0 node0 -> isLeaf node0 = false ->
                 valid elt0 ->
                 exists node',
                   walk fuel elt0 depth node0 = Ok node'
                   /\ inv depth (elt0 :: reached0) node'
                   /\ m_bounds node' = m_bounds node0
                   /\ isLeaf node' = false).
      { intros reached0 node0 elt0 Hi0 Hl0 Hv0.
        destruct (IH depth reached0 node0 elt0 Hi0 Hv0)
          as (n' & Hw & Hi' & Hb' & Hl').
        { unfold fuelNeeded. rewrite Hl0. exact Hfuel'. }
        exists n'. repeat split; auto. }
      assert (Hinv0 : inv depth [] (set_isLeaf false node)).
      { apply tree_inv_internal with (center := c) (halfWidth := h);
          cbn [set_isLeaf isLeaf m_isLeaf m_bounds m_children];
          try assumption; try reflexivity.
        - rewrite Hc. reflexivity.
        - intros i _ e [].
        - intros i child Hi. rewrite Hc in Hi.
          exfalso. exact (nth_error_repeat_None _ _ Hi).
        - intros i child Hi. rewrite Hc in Hi.
          exfalso. exact (nth_error_repeat_None _ _ Hi). }
      assert (Hvr : Forall valid (rev (m_elements node))).
      { apply Forall_forall. intros e He. apply in_rev in He.
        revert e He. apply Forall_forall. exact Hval. }
      destruct (@reinsert_all fuel depth Hwalk (rev (m_elements node)) []
                  (set_isLeaf false node) Hvr Hinv0 eq_refl)
        as (node1 & Hf & Hinv1 & Hb1 & Hl1).
      fold walk. rewrite Hf. cbn [bind].
      destruct (Hwalk _ node1 elt Hinv1 Hl1 Hv) as (node' & Hw & Hi' & Hb' & Hl').
      exists node'. split; [exact Hw|]. split; [|split].
      * apply tree_inv_incl with (reached' := elt :: rev (rev (m_elements node)) ++ []).
        -- exact Hi'.
        -- rewrite rev_involutive, app_nil_r.
           intros e [<-|He]; [left; reflexivity | right; apply Hin, He].
      * rewrite Hb', Hb1. reflexivity.
      * intros _. exact Hl'.
    + exists (push_back elt node). split; [reflexivity|]. split; [|split].
      * apply tree_inv_leaf with (center := c) (halfWidth := h);
          cbn [push_back set_elements isLeaf m_isLeaf m_bounds m_children
               m_elements]; try assumption.
        -- intros e [<-|He]; apply in_or_app;
             [right; left; reflexivity | left; apply Hin, He].
        -- apply Forall_app. split; [exact Hval|]. constructor; [exact Hv|constructor].
      * reflexivity.
      * unfold isLeaf in *. intro; congruence.
  - (* an internal node *)
    rewrite Hl.
    assert (Hslot : forall i slot,
               nth_error (m_children node) i = Some slot ->
               let cb := childBoundsOf (m_bounds node) slot (Z.of_nat i) in
               cb = octant (m_bounds node) i
               /\ exists n',
                    walk fuel elt (depth + 1)%Z
                         (match slot with
                          | Some n => n
                          | None => newOctreeNode cb
                          end) = Ok n'
                    /\ inv (depth + 1)%Z
                           (elt :: filter (intersects cb) reached) n'
                    /\ m_bounds n' = cb).
    { intros i slot Hi cb. destruct slot as [child|]; subst cb;
        cbn [childBoundsOf].
      - split; [exact (Hbc i child Hi)|].
        destruct (IH (depth + 1)%Z _ child elt (Hch i child Hi) Hv)
          as (n' & Hw & Hi' & Hb' & _).
        { eapply fuelNeeded_child; eauto. }
        exists n'. repeat split; assumption.
      - fold (octant (m_bounds node) i). split; [reflexivity|].
        destruct (octant_finite c h i) as (c' & h' & Ho).
        rewrite <- Hb in Ho.
        assert (Hfresh : inv (depth + 1)%Z
                           (filter (intersects (octant (m_bounds node) i))
                                   reached)
                           (newOctreeNode (T := T)
                                          (octant (m_bounds node) i))).
        { apply tree_inv_leaf with (center := c') (halfWidth := h').
          - reflexivity.
          - exact Ho.
          - reflexivity.
          - intros e He. apply filter_In in He as [He1 He2].
            rewrite (Hnone i Hi e He1) in He2. discriminate.
          - constructor. }
        destruct (IH (depth + 1)%Z _ _ elt Hfresh Hv)
          as (n' & Hw & Hi' & Hb' & _).
        { eapply fuelNeeded_child with (node := node); eauto. }
        exists n'. repeat split; assumption. }
    destruct (@insertInChildren_total T intersects
                (walk fuel elt (depth + 1)%Z)
                (m_bounds node) elt (m_children node) 0%Z)
      as [children' Hins].
    { intros i slot Hi _. cbn [Z.add].
      destruct (Hslot i slot Hi) as (_ & n' & Hw & _).
      exists n'. exact Hw. }
    fold walk. rewrite Hins. cbn [bind].
    exists (set_children children' node). split; [reflexivity|].
    destruct (insertInChildren_spec _ _ _ _ _ _ Hins) as [Hlen' Hnth].
    assert (Hcases : forall i slot',
               nth_error children' i = Some slot' ->
               exists slot,
                 nth_error (m_children node) i = Some slot
                 /\ let cb := childBoundsOf (m_bounds node) slot
                                            (Z.of_nat i) in
                    cb = octant (m_bounds node) i
                    /\ ((intersects cb elt = false /\ slot' = slot)
                        \/ (intersects cb elt = true
                            /\ exists n',
                                 slot' = Some n'
                                 /\ inv (depth + 1)%Z
                                        (elt :: filter (intersects cb)
                                                       reached) n'
                                 /\ m_bounds n' = cb))).
    { intros i slot' Hi'.
      destruct (nth_error (m_children node) i) as [slot|] eqn:Hi.
      - exists slot. split; [reflexivity|]. cbv zeta.
        destruct (Hslot i slot Hi) as (Hcb & n' & Hw & Hi2 & Hb2).
        split; [exact Hcb|].
        specialize (Hnth i slot Hi). cbn [Z.add] in Hnth.
        destruct (intersects (childBoundsOf (m_bounds node) slot
                                            (Z.of_nat i)) elt).
        + right. split; [reflexivity|].
          destruct Hnth as (n'' & Hw' & Hn'').
          fold walk in Hw'. rewrite Hw in Hw'. injection Hw' as <-.
          exists n'. repeat split; try assumption. congruence.
        + left. split; [reflexivity|]. congruence.
      - apply nth_error_None in Hi.
        assert (Hs : nth_error children' i <> None) by congruence.
        apply nth_error_Some in Hs. lia. }
    split; [|split].
    + apply tree_inv_internal with (center := c) (halfWidth := h);
        change (m_children (set_children children' node)) with children';
        change (m_bounds (set_children children' node)) with (m_bounds node).
      * exact Hl.
      * exact Hb.
      * congruence.
      * exact Hd.
      * intros i Hi' e He.
        destruct (Hcases i None Hi') as (slot & Hi & Hcb & Hc).
        cbv zeta in Hcb. rewrite <- Hcb.
        destruct Hc as [[Hno Hs]|[_ (n' & Hn' & _)]]; [|discriminate].
        subst slot.
        destruct He as [<-|He]; [exact Hno|].
        rewrite Hcb. exact (Hnone i Hi e He).
      * intros i child' Hi'.
        destruct (Hcases i (Some child') Hi') as (slot & Hi & Hcb & Hc).
        cbv zeta in Hcb.
        destruct Hc as [[Hno Hs]|[_ (n' & Hn' & _ & Hb2)]].
        -- subst slot. exact (Hbc i child' Hi).
        -- injection Hn' as Hn'. subst n'. congruence.
      * intros i child' Hi'.
        destruct (Hcases i (Some child') Hi') as (slot & Hi & Hcb & Hc).
        cbv zeta in Hcb.
        destruct Hc as [[Hno Hs]|[Hyes (n' & Hn' & Hi2 & Hb2)]].
        -- subst slot. cbn [childBoundsOf] in Hno. cbn [filter].
           rewrite Hno. exact (Hch i child' Hi).
        -- injection Hn' as Hn'. subst n'. cbn [filter].
           rewrite Hb2. rewrite Hyes. exact Hi2.
    + reflexivity.
    + intros _. exact Hl.
Qed.

End InsertInvariant.


(** ** Extents *)

Lemma at_index_map_pt (vs : list Q3) (i : Z) :
  at_index (map pt vs) i
  = match vertex_at vs i with Some v => Ok (pt v) | None => Undefined end.
Proof.
  unfold at_index, vertex_at. destruct (i <? 0)%Z; [reflexivity|].
  rewrite nth_error_map. destruct (nth_error vs (Z.to_nat i)); reflexivity.
Qed.

Lemma growExtent_finite (lo hi p : Q3) :
  exists lo' hi',
    growExtent (pt lo, pt hi) (pt p) = (pt lo', pt hi')
    /\ le3 lo' lo /\ le3 hi hi' /\ le3 lo' p /\ le3 p hi'
    /\ forall L H, le3 L lo -> le3 hi H -> le3 L p -> le3 p H ->
                   le3 L lo' /\ le3 hi' H.
Proof.
  unfold growExtent. cbn [fst snd pt Float3.x Float3.y Float3.z].
  rewrite !fmin_Fin, !fmax_Fin.
  eexists (q3 _ _ _), (q3 _ _ _). split; [reflexivity|].
  unfold le3; cbn [qx qy qz].
  repeat match goal with
         | |- context [Qlt_bool ?a ?b] => destruct (Qlt_bool_spec a b)
         end;
    repeat split; try lra;
    intros L H (?&?&?) (?&?&?) (?&?&?) (?&?&?); repeat split; lra.
Qed.

Lemma growExtent_first (p : Q3) :
  growExtent emptyExtent (pt p) = (pt p, pt p).
Proof. destruct p as [x y z]. reflexivity. Qed.

Lemma le3_refl (u : Q3) : le3 u u.
Proof. unfold le3. repeat split; lra. Qed.

Lemma le3_trans (u v w : Q3) : le3 u v -> le3 v w -> le3 u w.
Proof. unfold le3. intros (?&?&?) (?&?&?). repeat split; lra. Qed.

Lemma fold_growExtent_finite (ps : list Q3) :
  forall lo hi,
  exists lo' hi',
    fold_left growExtent (map pt ps) (pt lo, pt hi) = (pt lo', pt hi')
    /\ le3 lo' lo /\ le3 hi hi'
    /\ (forall p, In p ps -> le3 lo' p /\ le3 p hi')
    /\ forall L H, le3 L lo -> le3 hi H ->
                   (forall p, In p ps -> le3 L p /\ le3 p H) ->
                   le3 L lo' /\ le3 hi' H.
Proof.
  induction ps as [|p ps IH]; intros lo hi.
  - exists lo, hi. cbn. split; [reflexivity|].
    split; [apply le3_refl|]. split; [apply le3_refl|].
    split; [intros q []|]. intros L H HL HH _. split; assumption.
  - destruct (growExtent_finite lo hi p)
      as (lo1 & hi1 & E1 & Hlo1 & Hhi1 & Hp1 & Hp2 & Ht1).
    destruct (IH lo1 hi1) as (lo2 & hi2 & E2 & Hlo2 & Hhi2 & Hall & Ht2).
    exists lo2, hi2. cbn [map fold_left]. rewrite E1, E2.
    split; [reflexivity|].
    split; [eapply le3_trans; eassumption|].
    split; [eapply le3_trans; eassumption|].
    split.
    + intros q [<-|Hq]; [|apply Hall, Hq].
      split; eapply le3_trans; eassumption.
    + intros L H HL HH Hps.
      destruct (Hps p (or_introl eq_refl)) as [HLp HpH].
      destruct (Ht1 L H HL HH HLp HpH) as [A B].
      apply (Ht2 L H A B). intros q Hq. apply Hps. right. exact Hq.
Qed.

(** The extent of a non-empty list of rational points. *)
Lemma extent_of_points (p : Q3) (ps : list Q3) :
  exists lo hi,
    fold_left growExtent (map pt (p :: ps)) emptyExtent = (pt lo, pt hi)
    /\ (forall u, In u (p :: ps) -> le3 lo u /\ le3 u hi)
    /\ forall L H, (forall u, In u (p :: ps) -> le3 L u /\ le3 u H) ->
                   le3 L lo /\ le3 hi H.
Proof.
  cbn [map fold_left]. rewrite growExtent_first.
  destruct (fold_growExtent_finite ps p p)
    as (lo & hi & E & Hlo & Hhi & Hall & Ht).
  exists lo, hi. split; [exact E|]. split.
  - intros u [<-|Hu]; [split; assumption | apply Hall, Hu].
  - intros L H Hps.
    destruct (Hps p (or_introl eq_refl)) as [HLp HpH].
    apply (Ht L H HLp HpH). intros q Hq. apply Hps. right. exact Hq.
Qed.

Lemma max_if_upper (a b : Q) :
  a <= (if Qlt_bool a b then b else a) /\ b <= (if Qlt_bool a b then b else a).
Proof. destruct (Qlt_bool_spec a b); split; lra. Qed.

Lemma computeCubicBounds_finite (lo hi : Q3) :
  exists center halfWidth,
    computeCubicBounds (pt lo, pt hi) = AABCube.make (pt center) (Fin halfWidth)
    /\ forall x, le3 lo x -> le3 x hi -> in_cube center halfWidth x.
Proof.
  set (dx := qx hi - qx lo). set (dy := qy hi - qy lo).
  set (dz := qz hi - qz lo).
  set (m := if Qlt_bool dy dz then dz else dy).
  set (mm := if Qlt_bool dx m then m else dx).
  exists (q3 ((qx lo + qx hi) * (1 # 2)) ((qy lo + qy hi) * (1 # 2))
             ((qz lo + qz hi) * (1 # 2))), ((1 # 2) * mm).
  split.
  - unfold computeCubicBounds.
    change (Float3.sub (snd (pt lo, pt hi)) (fst (pt lo, pt hi)))
      with (Float3.make (Fin dx) (Fin dy) (Fin dz)).
    change (Float3.x (Float3.make (Fin dx) (Fin dy) (Fin dz))) with (Fin dx).
    change (Float3.y (Float3.make (Fin dx) (Fin dy) (Fin dz))) with (Fin dy).
    change (Float3.z (Float3.make (Fin dx) (Fin dy) (Fin dz))) with (Fin dz).
    rewrite !fmax_Fin. reflexivity.
  - intros x (Hx1 & Hy1 & Hz1) (Hx2 & Hy2 & Hz2).
    destruct (max_if_upper dy dz) as [M1 M2]. fold m in M1, M2.
    destruct (max_if_upper dx m) as [M3 M4]. fold mm in M3, M4.
    assert (M5 : dy <= mm) by lra. assert (M6 : dz <= mm) by lra.
    unfold dx, dy, dz in M3, M5, M6. clearbody mm. clear M4 M1 M2 m dx dy dz.
    destruct lo as [l1 l2 l3], hi as [h1 h2 h3], x as [x1 x2 x3].
    unfold in_cube. cbn [qx qy qz] in *.
    repeat split; apply Qabs_Qle_condition; split; lra.
Qed.

(** The monadic fold of [faceExtent], on vertices that exist. *)
Lemma faceExtent_fold (vs : list Q3) (ids : list Z) (points : list Q3) :
  Forall2 (fun id p => vertex_at vs id = Some p) ids points ->
  forall init,
    fold_left (fun acc vertexId =>
                 extent <- acc ;;
                 vertex <- at_index (map pt vs) vertexId ;;
                 Ok (growExtent extent vertex))
              ids (Ok init)
    = Ok (fold_left growExtent (map pt points) init).
Proof.
  induction 1 as [|id p ids points Hid _ IH]; intro init; [reflexivity|].
  cbn [fold_left map bind]. rewrite at_index_map_pt, Hid. cbn [bind].
  apply IH.
Qed.

(** ** The index built by [partitionSpace] *)

Lemma insert_inv (faces : list Face) (elements : list OctreeElement)
    (root : Node) (e : OctreeElement) :
  tree_inv intersect defaultMaxDepth (fromFaces faces) 0 elements root ->
  fromFaces faces e ->
  exists root',
    insert intersect defaultMaxDepth defaultMaxFill e root = Ok root'
    /\ tree_inv intersect defaultMaxDepth (fromFaces faces) 0 (e :: elements)
                root'
    /\ m_bounds root' = m_bounds root.
Proof.
  intros Hinv Hv.
  destruct (@walkInsert_inv OctreeElement intersect defaultMaxDepth
              defaultMaxFill (fromFaces faces)
              (insertFuel defaultMaxDepth) 0%Z elements root e Hinv Hv)
    as (root' & Hw & Hi & Hb & _).
  { unfold fuelNeeded, insertFuel. destruct (isLeaf root); cbn; lia. }
  exists root'. repeat split; assumption.
Qed.

Lemma insertFaces_inv (vertices : list Point) (faces : list Face) :
  forall (fs : list Face) (elements : list OctreeElement) (root : Node),
    tree_inv intersect defaultMaxDepth (fromFaces faces) 0 elements root ->
    (forall f, In f fs ->
               In f faces /\ exists e, elementOf vertices f = Ok e) ->
    (forall e, In e elements ->
               elementOf vertices (fst e) = Ok e /\ In (fst e) faces) ->
    exists root' elements',
      fold_left (fun acc face => r <- acc ;; insertFace vertices r face)
                fs (Ok root) = Ok root'
      /\ tree_inv intersect defaultMaxDepth (fromFaces faces) 0 elements' root'
      /\ m_bounds root' = m_bounds root
      /\ incl elements elements'
      /\ (forall f, In f fs ->
                    exists e, In e elements' /\ elementOf vertices f = Ok e)
      /\ forall e, In e elements' ->
                   elementOf vertices (fst e) = Ok e /\ In (fst e) faces.
Proof.
  induction fs as [|f fs IH]; intros elements root Hinv Hfs Hprov.
  - exists root, elements. cbn [fold_left].
    split; [reflexivity|]. split; [exact Hinv|]. split; [reflexivity|].
    split; [apply incl_refl|]. split; [intros f []|exact Hprov].
  - destruct (Hfs f (or_introl eq_refl)) as [Hf [e He]].
    assert (Hfe : fst e = f).
    { unfold elementOf in He.
      destruct (faceExtent vertices f); try discriminate He.
      cbn in He. injection He as <-. reflexivity. }
    assert (Hfst : fromFaces faces e) by (unfold fromFaces; congruence).
    destruct (insert_inv e Hinv Hfst) as (root1 & Hins & Hinv1 & Hb1).
    destruct (IH (e :: elements) root1 Hinv1)
      as (root' & elements' & Hfold & Hinv' & Hb' & Hincl & Hall & Hprov').
    { intros g Hg. apply Hfs. right. exact Hg. }
    { intros x [<-|Hx]; [split; congruence | apply Hprov, Hx]. }
    exists root', elements'. cbn [fold_left bind].
    assert (Hface : insertFace vertices root f = Ok root1).
    { unfold insertFace. unfold elementOf in He.
      destruct (faceExtent vertices f) as [ext| | | |]; try discriminate He.
      cbn in He. injection He as <-. cbn [bind]. exact Hins. }
    rewrite Hface. split; [exact Hfold|]. split; [exact Hinv'|].
    split; [congruence|]. split; [|split].
    + intros x Hx. apply Hincl. right. exact Hx.
    + intros g [<-|Hg].
      * exists e. split; [apply Hincl; left; reflexivity | exact He].
      * apply Hall, Hg.
    + exact Hprov'.
Qed.

Lemma partitionSpace_inv (v : Q3) (vs : list Q3) (faces : list Face) :
  (forall f, In f faces -> exists e, elementOf (map pt (v :: vs)) f = Ok e) ->
  exists (root : Node) (elements : list OctreeElement) (lo hi : Q3),
    partitionSpace (map pt (v :: vs)) faces = Ok root
    /\ tree_inv intersect defaultMaxDepth (fromFaces faces) 0 elements root
    /\ (forall f, In f faces ->
                  exists e, In e elements
                            /\ elementOf (map pt (v :: vs)) f = Ok e)
    /\ (forall e, In e elements ->
                  elementOf (map pt (v :: vs)) (fst e) = Ok e
                  /\ In (fst e) faces)
    /\ m_bounds root = computeCubicBounds (pt lo, pt hi)
    /\ (forall u, In u (v :: vs) -> le3 lo u /\ le3 u hi).
Proof.
  intro Hel.
  destruct (extent_of_points v vs) as (lo & hi & E & Hin & _).
  destruct (computeCubicBounds_finite lo hi) as (c & h & Ec & _).
  assert (Hinv0 : tree_inv intersect defaultMaxDepth (fromFaces faces) 0 []
                    (newOctreeNode (T := OctreeElement)
                                   (computeCubicBounds (pt lo, pt hi)))).
  { apply tree_inv_leaf with (center := c) (halfWidth := h).
    - reflexivity.
    - exact Ec.
    - reflexivity.
    - intros e [].
    - constructor. }
  destruct (@insertFaces_inv (map pt (v :: vs)) faces faces [] _ Hinv0)
    as (root & elements & Hfold & Hinv & Hb & _ & Hall & Hprov).
  { intros f Hf. split; [exact Hf | apply Hel, Hf]. }
  { intros e []. }
  exists root, elements, lo, hi. unfold partitionSpace. rewrite E.
  split; [exact Hfold|]. split; [exact Hinv|]. split; [exact Hall|].
  split; [exact Hprov|]. split; [exact Hb | exact Hin].
Qed.

(** ** The heap *)

Lemma heap_top_none (heap : Heap) : heap_top heap = None -> heap = [].
Proof.
  destruct heap as [|e rest]; [reflexivity|]. cbn.
  destruct (heap_top rest); discriminate.
Qed.

Lemma heap_top_pop (heap : Heap) (top : HeapEntry) :
  heap_top heap = Some top -> Permutation heap (top :: heap_pop heap).
Proof.
  revert top. induction heap as [|e rest IH]; intros top H; [discriminate|].
  cbn in H |- *. destruct (heap_top rest) as [best|] eqn:Hr.
  - destruct (heapCompare e best); injection H as <-.
    + rewrite (IH best eq_refl) at 1. apply perm_swap.
    + apply Permutation_refl.
  - injection H as <-. apply heap_top_none in Hr. subst. apply Permutation_refl.
Qed.

Lemma heapMeasure_perm (h1 h2 : Heap) :
  Permutation h1 h2 -> heapMeasure h1 = heapMeasure h2.
Proof.
  induction 1; unfold heapMeasure in *; cbn; lia.
Qed.

(** ** The two searches *)

Lemma countNodes_children (node : Node) :
  countNodes node = S (countAll (presentChildren (m_children node))).
Proof.
  destruct node as [elements children bounds leaf].
  cbn [countNodes m_children]. f_equal.
  induction children as [|[child|] rest IH]; cbn; [reflexivity | | exact IH].
  unfold countAll in *. cbn. rewrite IH. reflexivity.
Qed.

(** What the face solver returns on rational vertices. *)
Lemma face_solver_finite (vs : list Q3) (q : Q3) (face : Face)
    (result : ClosestPointSpec) :
  computeClosestPointOnFace face (map pt vs) (pt q) = Ok result ->
  (exists v0 v1 v2 s t,
      In (v0, v1, v2) (faceTriangles vs face)
      /\ result = (pt (triangle_point v0 v1 v2 s t),
                   Fin (sqrDist q (triangle_point v0 v1 v2 s t))))
  /\ (exists u points,
         Forall2 (fun id w => vertex_at vs id = Some w) (vertexIds face)
                 (u :: points))
  /\ forall v0 v1 v2,
       In (v0, v1, v2) (faceTriangles vs face) ->
       exists s t,
         computeClosestPointOnTriangle (pt v0) (pt v1) (pt v2) (pt q)
         = Ok (pt (triangle_point v0 v1 v2 s t),
               Fin (sqrDist q (triangle_point v0 v1 v2 s t)))
         /\ (Fin (sqrDist q (triangle_point v0 v1 v2 s t))
             <? snd result)%fl = false.
Proof.
  destruct face as [ids]. unfold computeClosestPointOnFace, faceTriangles.
  cbn [vertexIds].
  destruct ids as [|i0 [|i1 [|i2 [|i3 [|i4 rest]]]]];
    cbn [List.length Nat.ltb Nat.leb Nat.eqb orb nth]; try discriminate.
  - (* a triangle *)
    rewrite !at_index_map_pt.
    destruct (vertex_at vs i0) as [v0|] eqn:E0; [|discriminate].
    destruct (vertex_at vs i1) as [v1|] eqn:E1; [|discriminate].
    destruct (vertex_at vs i2) as [v2|] eqn:E2; [|discriminate].
    cbn [bind].
    destruct (triangle_solver_finite v0 v1 v2 q) as [[_ E]|[_ (s & t & E)]];
      rewrite E; cbn [bind]; [discriminate|].
    intro H. injection H as <-. split; [|split].
    + exists v0, v1, v2, s, t. split; [left; reflexivity | reflexivity].
    + exists v0, [v1; v2]. repeat constructor; assumption.
    + intros w0 w1 w2 [Hw|[]]. injection Hw as <- <- <-.
      exists s, t. split; [exact E|]. cbn [snd].
      destruct (flt_spec (sqrDist q (triangle_point v0 v1 v2 s t))
                         (sqrDist q (triangle_point v0 v1 v2 s t)));
        [lra | reflexivity].
  - (* a quadrilateral *)
    rewrite !at_index_map_pt.
    destruct (vertex_at vs i0) as [v0|] eqn:E0; [|discriminate].
    destruct (vertex_at vs i1) as [v1|] eqn:E1; [|discriminate].
    destruct (vertex_at vs i2) as [v2|] eqn:E2; [|discriminate].
    cbn [bind].
    destruct (triangle_solver_finite v0 v1 v2 q) as [[_ E]|[_ (s & t & E)]];
      rewrite E; cbn [bind]; [discriminate|].
    destruct (vertex_at vs i3) as [v3|] eqn:E3; [|discriminate].
    cbn [bind].
    destruct (triangle_solver_finite v2 v3 v0 q)
      as [[_ E']|[_ (s' & t' & E')]];
      rewrite E'; cbn [bind snd]; [discriminate|].
    set (d1 := sqrDist q (triangle_point v0 v1 v2 s t)) in *.
    set (d2 := sqrDist q (triangle_point v2 v3 v0 s' t')) in *.
    cbn [flt]. intro H. injection H as <-. split; [|split].
    + destruct (Qlt_bool_spec d2 d1).
      * exists v2, v3, v0, s', t'.
        split; [right; left; reflexivity | reflexivity].
      * exists v0, v1, v2, s, t. split; [left; reflexivity | reflexivity].
    + exists v0, [v1; v2; v3]. repeat constructor; assumption.
    + intros w0 w1 w2 [Hw|[Hw|[]]]; injection Hw as <- <- <-.
      * exists s, t. split; [exact E|]. fold d1.
        destruct (Qlt_bool_spec d2 d1); cbn [snd flt].
        -- destruct (Qlt_bool_spec d1 d2); [lra | reflexivity].
        -- destruct (Qlt_bool_spec d1 d1); [lra | reflexivity].
      * exists s', t'. split; [exact E'|]. fold d2.
        destruct (Qlt_bool_spec d2 d1); cbn [snd flt].
        -- destruct (Qlt_bool_spec d2 d2); [lra | reflexivity].
        -- destruct (Qlt_bool_spec d2 d1); [lra | reflexivity].
Qed.

(** ** Faces that the solver solves *)

Section Solved.

Variable v : Q3.
Variable vs : list Q3.
Variable faces : list Face.
Variable q : Q3.

Hypothesis solved :
  forall face, In face faces ->
             exists result,
               computeClosestPointOnFace face (map pt (v :: vs)) (pt q)
               = Ok result.

Lemma faces_solved_finite :
  forall face, In face faces ->
             exists p d, solves (map pt (v :: vs)) q face p d.
Proof.
  intros face Hin. destruct (solved face Hin) as [r Hr].
  destruct (face_solver_finite _ _ _ Hr)
  as ((v0 & v1 & v2 & s & t & _ & ->) & _).
  eexists _, _. exact Hr.
Qed.

End Solved.

(** ** The visit of a leaf, and faces in range *)

Section Scan.

Variable vertices : list Point.
Variable queryPoint : Point.
Variable sqrMaxDist : float.

Lemma acceptElements_scan (node : Node) (result : ClosestPointSpec) :
  acceptElements node (visitElement vertices queryPoint sqrMaxDist) result
  = fold_left (fun acc f =>
                 r <- acc ;;
                 reduceClosestPointOnFace vertices queryPoint sqrMaxDist r f)
              (map fst (m_elements node)) (Ok result).
Proof.
  unfold acceptElements. generalize (Ok result) as acc.
  induction (m_elements node) as [|x xs IH]; intro acc; [reflexivity|].
  cbn [fold_left map]. apply IH.
Qed.

End Scan.

Lemma in_range_elementOf (vs : list Q3) (face : Face) :
  in_range vs face -> exists e, elementOf (map pt vs) face = Ok e.
Proof.
  intro H. destruct face as [ids]. unfold in_range in H. cbn [vertexIds] in H.
  assert (Hp : exists points,
             Forall2 (fun id p => vertex_at vs id = Some p) ids points).
  { induction ids as [|id ids IH]; [exists []; constructor|].
    destruct IH as [points Hp]; [intros i Hi; apply H; right; exact Hi|].
    destruct (vertex_at vs id) as [p|] eqn:E.
    - exists (p :: points). constructor; assumption.
    - exfalso. apply (H id); [left; reflexivity | exact E]. }
  destruct Hp as [points Hp].
  unfold elementOf, faceExtent. cbn [vertexIds].
  rewrite (@faceExtent_fold vs ids points Hp). cbn [bind]. eexists. reflexivity.
Qed.

Lemma in_range_checked (vs : list Q3) (faces : list Face) :
  forallb (fun f => forallb (fun id => match vertex_at vs id with
                                      | Some _ => true
                                      | None => false
                                      end) (vertexIds f)) faces = true ->
  forall f, In f faces -> in_range vs f.
Proof.
  intros H f Hf id Hid E.
  rewrite forallb_forall in H. specialize (H f Hf).
  rewrite forallb_forall in H. specialize (H id Hid).
  rewrite E in H. discriminate H.
Qed.

(** ** The contract of the query *)

Lemma solved_checked (vertices : list Point) (queryPoint : Point)
    (faces : list Face) :
  forallb (fun face =>
             match computeClosestPointOnFace face vertices queryPoint with
             | Ok _ => true
             | _ => false
             end) faces = true ->
  forall face, In face faces ->
               exists result,
                 computeClosestPointOnFace face vertices queryPoint
                 = Ok result.
Proof.
  intros H face Hin. rewrite forallb_forall in H. specialize (H face Hin).
  destruct (computeClosestPointOnFace face vertices queryPoint) as [r| | | |];
    try discriminate H.
  exists r. reflexivity.
Qed.


(** ** More on the octree *)

Section OctreeFacts.

Variable T : Type.
Variable intersects : Intersect T.
Variable maxDepth : Z.
Variable maxFill : float.

Lemma set_elements_same (node : OctreeNode T) :
  set_elements (m_elements node ++ []) node = node.
Proof. destruct node. unfold set_elements. cbn. rewrite app_nil_r. reflexivity. Qed.

Lemma set_children_same (node : OctreeNode T) :
  set_children (m_children node) node = node.
Proof. destruct node. reflexivity. Qed.

Lemma insertAll_at_depth_limit (elements : list T) :
  (maxDepth <= 0)%Z ->
  forall node,
    isLeaf node = true ->
    insertAll intersects maxDepth maxFill elements node
    = Ok (set_elements (m_elements node ++ elements) node).
Proof.
  intro Hd. unfold insertAll.
  induction elements as [|e es IH]; intros node Hl.
  - cbn [fold_left]. rewrite set_elements_same. reflexivity.
  - cbn [fold_left bind]. unfold insert at 2, insertFuel.
    cbn [walkInsert]. rewrite Hl.
    replace (0 <? maxDepth)%Z with false by (symmetry; apply Z.ltb_ge; lia).
    rewrite andb_false_r.
    rewrite IH by (destruct node; exact Hl).
    f_equal. destruct node. unfold set_elements, push_back. cbn.
    rewrite <- app_assoc. reflexivity.
Qed.

(** An element that meets no child of a node leaves the children as
    they are. *)
Lemma insertInChildren_none (walk : OctreeNode T -> outcome (OctreeNode T))
    (bounds : AABCube.t) (elt : T) :
  forall children idx,
    (forall i slot,
        nth_error children i = Some slot ->
        intersects (childBoundsOf bounds slot (idx + Z.of_nat i)) elt
        = false) ->
    insertInChildren intersects walk bounds elt idx children = Ok children.
Proof.
  induction children as [|child rest IH]; intros idx H; [reflexivity|].
  cbn [insertInChildren].
  pose proof (H 0%nat child eq_refl) as H0.
  replace (idx + Z.of_nat 0)%Z with idx in H0 by lia. rewrite H0.
  cbn [bind]. rewrite IH; [reflexivity|].
  intros i slot Hn. specialize (H (S i) slot Hn).
  replace (idx + 1 + Z.of_nat i)%Z with (idx + Z.of_nat (S i))%Z by lia.
  exact H.
Qed.

End OctreeFacts.

(** X9. With [maxDepth <= 0] the tree never grows: any sequence of
    insertions into a leaf returns the same leaf with the inserted
    elements appended in order, whether or not they intersect its
    bounds (a leaf stores an element without testing it). *)
Theorem no_subdivision_at_depth_limit (T : Type) (intersects : Intersect T)
    (maxDepth : Z) (maxFill : float) (elements : list T)
    (node : OctreeNode T) :
  (maxDepth <= 0)%Z -> isLeaf node = true ->
  exists node',
    insertAll intersects maxDepth maxFill elements node = Ok node'
    /\ isLeaf node' = true
    /\ m_elements node' = m_elements node ++ elements
    /\ m_children node' = m_children node
    /\ getBounds node' = getBounds node.
Proof.
  intros Hd Hl. eexists. split.
  - apply insertAll_at_depth_limit; assumption.
  - destruct node. cbn in *. repeat split. exact Hl.
Qed.

Lemma no_subdivision_at_depth_limit_witness :
  exists node',
    insertAll intersectPoint 0 (Fin 0)
              (repeat (pt (q3 0 0 0)) 10)
              (newOctreeNode (AABCube.make (pt (q3 0 0 0)) (Fin (1 # 2))))
    = Ok node'
    /\ isLeaf node' = true
    /\ m_elements node' = [] ++ repeat (pt (q3 0 0 0)) 10
    /\ m_children node' = repeat None 8
    /\ getBounds node' = AABCube.make (pt (q3 0 0 0)) (Fin (1 # 2)).
Proof.
  apply (@no_subdivision_at_depth_limit Point intersectPoint 0 (Fin 0)
           (repeat (pt (q3 0 0 0)) 10)
           (newOctreeNode (AABCube.make (pt (q3 0 0 0)) (Fin (1 # 2))))).
  - lia.
  - reflexivity.
Defined.

(** X10. An element that intersects the bounds of none of the child
    slots of an internal node is dropped: [insert] returns the tree
    unchanged, without raising an error. *)
Theorem element_outside_children_is_dropped (T : Type)
    (intersects : Intersect T) (maxDepth : Z) (maxFill : float)
    (element : T) (node : OctreeNode T) :
  isLeaf node = false ->
  (forall i, (i < List.length (m_children node))%nat ->
             intersects (getChildBounds node (Z.of_nat i)) element = false) ->
  insert intersects maxDepth maxFill element node = Ok node.
Proof.
  intros Hl Hnone. unfold insert, insertFuel. cbn [walkInsert]. rewrite Hl.
  rewrite insertInChildren_none.
  - cbn [bind]. rewrite set_children_same. reflexivity.
  - intros i slot Hn.
    assert (Hi : (i < List.length (m_children node))%nat)
      by (apply nth_error_Some; rewrite Hn; discriminate).
    specialize (Hnone i Hi). unfold getChildBounds in Hnone.
    rewrite Nat2Z.id in Hnone.
    rewrite (nth_error_nth _ _ None Hn) in Hnone. exact Hnone.
Qed.

Lemma element_outside_children_is_dropped_witness :
  insert intersectPoint 10 (Fin 1) (pt (q3 5 5 5)) cornerTree = Ok cornerTree.
Proof.
  apply element_outside_children_is_dropped.
  - vm_compute. reflexivity.
  - intros i Hi. change (List.length (m_children cornerTree)) with 8%nat in Hi.
    destruct i as [|[|[|[|[|[|[|[|i]]]]]]]]; try lia; vm_compute; reflexivity.
Defined.

(** The deepest leaf that [visitNode] meets. *)
Lemma visitNode_depth (T : Type) (intersects : Intersect T) (maxDepth : Z)
    (valid : T -> Prop) (depth : Z) (reached : list T) (node : OctreeNode T) :
  tree_inv intersects maxDepth valid depth reached node ->
  (0 <= depth)%Z ->
  (0 <= fst (visitNode node depth) <= Z.max depth maxDepth)%Z.
Proof.
  induction 1 as [depth reached node c h Hl Hb Hch Hincl Hv
                 |depth reached node c h Hl Hb Hlen Hd Hnone Hbc Hch IH];
    intro H0.
  - destruct node as [elements children bounds leaf]. cbn in Hl. subst leaf.
    cbn [visitNode fst]. lia.
  - destruct node as [elements children bounds leaf]. cbn in Hl. subst leaf.
    cbn [m_children] in *. cbn [visitNode].
    assert (Hall : forall child, In (Some child) children ->
                     (0 <= fst (visitNode child (depth + 1)) <= maxDepth)%Z).
    { intros child Hin. apply In_nth_error in Hin. destruct Hin as [i Hi].
      pose proof (IH i child Hi) as H. lia. }
    clear - Hall Hd H0.
    induction children as [|[child|] rest IHl].
    + cbn [fst]. lia.
    + cbn [fst].
      pose proof (Hall child (or_introl eq_refl)).
      assert (forall c, In (Some c) rest ->
                (0 <= fst (visitNode c (depth + 1)) <= maxDepth)%Z)
        by (intros c Hc; apply Hall; right; exact Hc).
      specialize (IHl H1). lia.
    + apply IHl. intros c Hc. apply Hall. right. exact Hc.
Qed.

Section InsertAll.

Variable T : Type.
Variable intersects : Intersect T.
Variable maxDepth : Z.
Variable maxFill : float.

(** Every insertion returns, and keeps the invariant of the tree. *)
Lemma insertAll_inv (elements : list T) :
  forall reached node,
    tree_inv intersects maxDepth (fun _ => True) 0 reached node ->
    exists node',
      insertAll intersects maxDepth maxFill elements node = Ok node'
      /\ tree_inv intersects maxDepth (fun _ => True) 0
                  (rev elements ++ reached) node'
      /\ m_bounds node' = m_bounds node.
Proof.
  unfold insertAll.
  induction elements as [|e es IH]; intros reached node Hinv.
  - exists node. repeat split. exact Hinv.
  - destruct (@walkInsert_inv T intersects maxDepth maxFill (fun _ => True)
                (insertFuel maxDepth) 0%Z reached node e Hinv I)
      as (node1 & Hw & Hi & Hb & _).
    { unfold fuelNeeded, insertFuel. destruct (isLeaf node); cbn; lia. }
    destruct (IH (e :: reached) node1 Hi) as (node' & E & Hinv' & Hb').
    exists node'. cbn [fold_left bind]. unfold insert at 2. rewrite Hw.
    split; [exact E|]. split.
    + cbn [rev]. rewrite <- app_assoc. exact Hinv'.
    + congruence.
Qed.

Lemma fresh_node_inv (center : Q3) (halfWidth : Q) :
  tree_inv intersects maxDepth (fun _ : T => True) 0 []
           (newOctreeNode (AABCube.make (pt center) (Fin halfWidth))).
Proof.
  apply tree_inv_leaf with (center := center) (halfWidth := halfWidth).
  - reflexivity.
  - reflexivity.
  - reflexivity.
  - intros e [].
  - constructor.
Qed.

End InsertAll.

(** X11. With [maxDepth >= 0], any sequence of insertions into a new
    node of finite bounds returns (the recursion of [walkInsert] ends),
    keeps the bounds of the root, and builds a tree whose deepest leaf,
    as the traversal of the unit test measures it, is at depth
    [maxDepth] at most. *)
Theorem insertions_return_within_depth (T : Type) (intersects : Intersect T)
    (maxDepth : Z) (maxFill : float) (center : Q3) (halfWidth : Q)
    (elements : list T) :
  (0 <= maxDepth)%Z ->
  exists root,
    insertAll intersects maxDepth maxFill elements
              (newOctreeNode (AABCube.make (pt center) (Fin halfWidth)))
    = Ok root
    /\ getBounds root = AABCube.make (pt center) (Fin halfWidth)
    /\ (0 <= fst (visitNode root 0) <= maxDepth)%Z.
Proof.
  intro Hd.
  destruct (@insertAll_inv T intersects maxDepth maxFill elements []
              _ (fresh_node_inv intersects maxDepth center halfWidth))
    as (root & E & Hinv & Hb).
  exists root. split; [exact E|]. split; [exact Hb|].
  pose proof (visitNode_depth Hinv (Z.le_refl 0)) as H. lia.
Qed.

Lemma insertions_return_within_depth_witness :
  exists root,
    insertAll intersectPoint 10 (Fin 1) cornerPoints
              (newOctreeNode (AABCube.make (pt (q3 0 0 0)) (Fin 2)))
    = Ok root
    /\ getBounds root = AABCube.make (pt (q3 0 0 0)) (Fin 2)
    /\ (0 <= fst (visitNode root 0) <= 10)%Z.
Proof.
  apply (@insertions_return_within_depth Point intersectPoint 10 (Fin 1)
           (q3 0 0 0) 2 cornerPoints).
  lia.
Defined.

(** ** More on the two searches *)

Lemma triangleParameters_outcome (a b c d e : float) :
  triangleParameters ieee_divide a b c d e = Throw DegenerateTriangle
  \/ exists s t, triangleParameters ieee_divide a b c d e = Ok (s, t).
Proof.
  unfold triangleParameters, ieee_divide.
  repeat match goal with
         | |- context [if ?c then _ else _] => destruct c
         end;
    cbn [bind];
    first [left; reflexivity | right; eexists; eexists; reflexivity].
Qed.

Lemma at_index_outcome (A : Type) (v : list A) (i : Z) :
  (exists a, at_index v i = Ok a) \/ at_index v i = Undefined.
Proof.
  unfold at_index. destruct (i <? 0)%Z; [right; reflexivity|].
  destruct (nth_error v (Z.to_nat i)) as [a|];
    [left; exists a|right]; reflexivity.
Qed.

Lemma triangle_solver_outcome (v0 v1 v2 q : Point) :
  query_outcome (computeClosestPointOnTriangle v0 v1 v2 q).
Proof.
  unfold computeClosestPointOnTriangle, computeClosestPointOnTriangleWith.
  cbv zeta.
  match goal with
  | |- context [triangleParameters ieee_divide ?a ?b ?c ?d ?e] =>
      destruct (triangleParameters_outcome a b c d e) as [E|(s & t & E)];
      rewrite E
  end.
  - right. right. left. reflexivity.
  - left. eexists. reflexivity.
Qed.

Lemma face_solver_outcome (face : Face) (vertices : list Point) (q : Point) :
  query_outcome (computeClosestPointOnFace face vertices q).
Proof.
  unfold computeClosestPointOnFace.
  destruct ((List.length (vertexIds face) <? 3)%nat
            || (4 <? List.length (vertexIds face))%nat);
    [right; left; reflexivity|].
  destruct (at_index_outcome vertices (nth 0 (vertexIds face) 0%Z))
    as [[v0 E0]|E0]; rewrite E0; cbn [bind];
    [|right; right; right; reflexivity].
  destruct (at_index_outcome vertices (nth 1 (vertexIds face) 0%Z))
    as [[v1 E1]|E1]; rewrite E1; cbn [bind];
    [|right; right; right; reflexivity].
  destruct (at_index_outcome vertices (nth 2 (vertexIds face) 0%Z))
    as [[v2 E2]|E2]; rewrite E2; cbn [bind];
    [|right; right; right; reflexivity].
  destruct (triangle_solver_outcome v0 v1 v2 q) as [[r1 T1]|[T1|[T1|T1]]];
    rewrite T1; cbn [bind];
    [|right; left; reflexivity | right; right; left; reflexivity
     |right; right; right; reflexivity].
  destruct (List.length (vertexIds face) =? 3)%nat;
    [left; eexists; reflexivity|].
  destruct (at_index_outcome vertices (nth 3 (vertexIds face) 0%Z))
    as [[v3 E3]|E3]; rewrite E3; cbn [bind];
    [|right; right; right; reflexivity].
  destruct (triangle_solver_outcome v2 v3 v0 q) as [[r2 T2]|[T2|[T2|T2]]];
    rewrite T2; cbn [bind];
    [|right; left; reflexivity | right; right; left; reflexivity
     |right; right; right; reflexivity].
  left. eexists. reflexivity.
Qed.

(** A scan of faces, from an outcome of a query. *)
Lemma scan_outcome (vertices : list Point) (q : Point) (sqrMaxDist : float)
    (faces : list Face) :
  forall acc,
    query_outcome acc ->
    query_outcome
      (fold_left (fun acc face =>
                    r <- acc ;;
                    reduceClosestPointOnFace vertices q sqrMaxDist r face)
                 faces acc).
Proof.
  induction faces as [|f fs IH]; intros acc Hacc; [exact Hacc|].
  cbn [fold_left]. apply IH.
  destruct Hacc as [[a ->]|[->|[->| ->]]]; cbn [bind];
    [|right; left; reflexivity | right; right; left; reflexivity
     |right; right; right; reflexivity].
  unfold reduceClosestPointOnFace.
  destruct (face_solver_outcome f vertices q) as [[r E]|[E|[E|E]]];
    rewrite E; cbn [bind];
    [left; eexists; reflexivity | right; left; reflexivity
    | right; right; left; reflexivity | right; right; right; reflexivity].
Qed.

Lemma visitChildren_measure (queryPoint : Point) (result : ClosestPointSpec)
    (children : list Node) :
  forall heap,
    (heapMeasure (fold_left (visitChild queryPoint result) children heap)
     <= heapMeasure heap + countAll children)%nat.
Proof.
  induction children as [|c cs IH]; intro heap.
  - unfold countAll. cbn [fold_left fold_right]. rewrite Nat.add_0_r.
    apply Nat.le_refl.
  - cbn [fold_left]. specialize (IH (visitChild queryPoint result heap c)).
    assert (heapMeasure (visitChild queryPoint result heap c)
            <= heapMeasure heap + countNodes c)%nat.
    { unfold visitChild.
      destruct (computeSqrDistanceToBounds queryPoint (getBounds c)
                <? snd result)%fl;
        unfold heapMeasure, heap_push; cbn; lia. }
    unfold countAll in *. cbn [fold_right]. lia.
Qed.

Lemma bestFirstSearch_outcome (vertices : list Point) (queryPoint : Point)
    (sqrMaxDist : float) (fuel : nat) :
  forall heap result,
    (heapMeasure heap <= fuel)%nat ->
    query_outcome
      (bestFirstSearch fuel vertices queryPoint sqrMaxDist heap result).
Proof.
  induction fuel as [|fuel IH]; intros heap result Hm.
  - destruct heap as [|[n k] rest].
    + left. eexists. reflexivity.
    + exfalso. unfold heapMeasure in Hm. cbn in Hm.
      rewrite countNodes_children in Hm. lia.
  - cbn [bestFirstSearch].
    destruct (heap_top heap) as [top|] eqn:Ht; [|left; eexists; reflexivity].
    destruct (snd top <? snd result)%fl; [|left; eexists; reflexivity].
    cbv zeta.
    assert (Hp : heapMeasure heap
                 = S (countAll (presentChildren (m_children (fst top)))
                      + heapMeasure (heap_pop heap))).
    { rewrite (heapMeasure_perm (heap_top_pop _ Ht)).
      rewrite <- plus_Sn_m, <- countNodes_children. reflexivity. }
    destruct (isLeaf (fst top)).
    + rewrite acceptElements_scan.
      destruct (@scan_outcome vertices queryPoint sqrMaxDist
                  (map fst (m_elements (fst top))) (Ok result)
                  (or_introl (ex_intro _ result eq_refl)))
        as [[r E]|[E|[E|E]]]; rewrite E; cbn [bind];
        [|right; left; reflexivity | right; right; left; reflexivity
         |right; right; right; reflexivity].
      apply IH. lia.
    + apply IH. unfold acceptChildren.
      eapply Nat.le_trans; [apply visitChildren_measure|]. lia.
Qed.

(** X13. A query always ends, on any engine, query point and maximum
    distance (NaN and infinities included): the best-first loop pops at
    most as many nodes as the index has, and the answer is a point, one
    of the two exceptions of the face solver ([UnsupportedArity],
    [DegenerateTriangle]), or the undefined behaviour of a vertex index
    out of range; a query raises nothing else. *)
Theorem query_ends_with_a_documented_outcome (impl : Impl)
    (queryPoint : Point) (maxDist : float) :
  query_outcome (query impl queryPoint maxDist).
Proof.
  unfold query.
  destruct (m_partitionedSpace impl) as [root|] eqn:E.
  - unfold processPartitionedSpace. rewrite E. cbv zeta.
    assert (Hm : (heapMeasure
                    (heap_push (root, computeSqrDistanceToBounds queryPoint
                                        (getBounds root)) [])
                  <= countNodes root)%nat)
      by (unfold heapMeasure, heap_push; cbn; lia).
    destruct (@bestFirstSearch_outcome (m_vertices impl) queryPoint
                (maxDist * maxDist)%fl (countNodes root) _ noResult Hm)
      as [[r Er]|[Er|[Er|Er]]];
      rewrite Er; cbn [bind];
      [left; eexists; reflexivity | right; left; reflexivity
      | right; right; left; reflexivity | right; right; right; reflexivity].
  - unfold processMesh.
    destruct (@scan_outcome (m_vertices impl) queryPoint
                (maxDist * maxDist)%fl (m_faces impl) (Ok noResult)
                (or_introl (ex_intro _ noResult eq_refl)))
      as [[r Er]|[Er|[Er|Er]]];
      rewrite Er; cbn [bind];
      [left; eexists; reflexivity | right; left; reflexivity
      | right; right; left; reflexivity | right; right; right; reflexivity].
Qed.

Section FirstClosest.

Variable vertices : list Point.
Variable q : Q3.
Variable sqrMaxDist : float.

Lemma solves_one (face : Face) (u u' : Q3) (d d' : Q) :
  solves vertices q face u d -> solves vertices q face u' d' ->
  u = u' /\ d = d'.
Proof.
  unfold solves. intros H H'. rewrite H in H'. injection H' as H1 H2 H3 H4.
  split; [|exact H4].
  destruct u as [p1 p2 p3], u' as [r1 r2 r3]; cbn [qx qy qz] in *. congruence.
Qed.

Lemma first_closest_step (done : list Face) (acc : ClosestPointSpec)
    (f : Face) (u : Q3) (d : Q) :
  first_closest vertices q sqrMaxDist done acc -> solves vertices q f u d ->
  reduceClosestPointOnFace vertices (pt q) sqrMaxDist acc f
  = Ok (if (Fin d <? sqrMaxDist)%fl && (Fin d <? snd acc)%fl
        then (pt u, Fin d) else acc)
  /\ first_closest vertices q sqrMaxDist (done ++ [f])
       (if (Fin d <? sqrMaxDist)%fl && (Fin d <? snd acc)%fl
        then (pt u, Fin d) else acc).
Proof.
  intros Hinv Hs. split.
  { unfold reduceClosestPointOnFace. unfold solves in Hs. rewrite Hs.
    reflexivity. }
  destruct Hinv as [[-> Hnone]
                   |(before & face & after & w & k & -> & Hw & -> & Hk
                     & Hbefore & Hafter)].
  - cbn [snd noResult].
    destruct (Fin d <? sqrMaxDist)%fl eqn:Hd.
    + replace (Fin d <? infinity)%fl with true by reflexivity. cbn [andb].
      right. exists done, f, [], u, d.
      split; [reflexivity|]. split; [exact Hs|]. split; [reflexivity|].
      split; [exact Hd|]. split.
      * intros g u' d' Hg Hsg Hwd. rewrite (Hnone g u' d' Hg Hsg) in Hwd.
        discriminate Hwd.
      * intros g u' d' [].
    + cbn [andb]. left. split; [reflexivity|].
      intros g u' d' Hg Hsg. apply in_app_or in Hg.
      destruct Hg as [Hg|[<-|[]]]; [exact (Hnone g u' d' Hg Hsg)|].
      destruct (solves_one Hs Hsg) as [_ <-]. exact Hd.
  - cbn [snd].
    destruct (Fin d <? sqrMaxDist)%fl eqn:Hd; cbn [andb].
    + destruct (flt_spec d k) as [Hlt|Hge].
      * right. exists (before ++ face :: after), f, [], u, d.
        split; [reflexivity|]. split; [exact Hs|]. split; [reflexivity|].
        split; [exact Hd|]. split; [|intros g u' d' []].
        intros g u' d' Hg Hsg Hwd. apply in_app_or in Hg.
        destruct Hg as [Hg|[<-|Hg]].
        -- pose proof (Hbefore g u' d' Hg Hsg Hwd). lra.
        -- destruct (solves_one Hw Hsg) as [_ <-]. exact Hlt.
        -- pose proof (Hafter g u' d' Hg Hsg Hwd). lra.
      * right. exists before, face, (after ++ [f]), w, k.
        split; [rewrite <- app_assoc; reflexivity|].
        split; [exact Hw|]. split; [reflexivity|]. split; [exact Hk|].
        split; [exact Hbefore|].
        intros g u' d' Hg Hsg Hwd. apply in_app_or in Hg.
        destruct Hg as [Hg|[<-|[]]]; [exact (Hafter g u' d' Hg Hsg Hwd)|].
        destruct (solves_one Hs Hsg) as [_ <-]. lra.
    + right. exists before, face, (after ++ [f]), w, k.
      split; [rewrite <- app_assoc; reflexivity|].
      split; [exact Hw|]. split; [reflexivity|]. split; [exact Hk|].
      split; [exact Hbefore|].
      intros g u' d' Hg Hsg Hwd. apply in_app_or in Hg.
      destruct Hg as [Hg|[<-|[]]]; [exact (Hafter g u' d' Hg Hsg Hwd)|].
      destruct (solves_one Hs Hsg) as [_ <-]. rewrite Hd in Hwd.
      discriminate Hwd.
Qed.

Lemma first_closest_fold (faces : list Face) :
  (forall f, In f faces -> exists u d, solves vertices q f u d) ->
  forall done acc,
    first_closest vertices q sqrMaxDist done acc ->
    exists result,
      fold_left (fun acc face =>
                   r <- acc ;;
                   reduceClosestPointOnFace vertices (pt q) sqrMaxDist r face)
                faces (Ok acc) = Ok result
      /\ first_closest vertices q sqrMaxDist (done ++ faces) result.
Proof.
  induction faces as [|f fs IH]; intros Hsolved done acc Hinv.
  - exists acc. rewrite app_nil_r. split; [reflexivity | exact Hinv].
  - destruct (Hsolved f (or_introl eq_refl)) as (u & d & Hs).
    destruct (first_closest_step Hinv Hs) as [E Hinv'].
    destruct (IH (fun g Hg => Hsolved g (or_intror Hg)) _ _ Hinv')
      as (result & Ef & Hr).
    exists result. cbn [fold_left bind]. rewrite E.
    split; [exact Ef|]. rewrite <- app_assoc in Hr. exact Hr.
Qed.

End FirstClosest.

(** X14. The linear scan breaks ties in favour of the face listed
    first: when no face raises, it returns the all-NaN point if no face
    result is under the squared radius, and otherwise the result of a
    face such that every earlier face under the radius is strictly
    farther and every later face under the radius is not closer. *)
Theorem linear_scan_keeps_first_closest_face (v : Q3) (vs : list Q3)
    (faces : list Face) (q : Q3) (sqrMaxDist : float) :
  (forall face, In face faces ->
                exists result,
                  computeClosestPointOnFace face (map pt (v :: vs)) (pt q)
                  = Ok result) ->
  exists result,
    processMesh (mkImpl (map pt (v :: vs)) faces None) (pt q) sqrMaxDist
    = Ok (fst result)
    /\ first_closest (map pt (v :: vs)) q sqrMaxDist faces result.
Proof.
  intro Hsolved.
  destruct (@first_closest_fold (map pt (v :: vs)) q sqrMaxDist faces
              (@faces_solved_finite v vs faces q Hsolved) [] noResult)
    as (result & E & Hr).
  { left. split; [reflexivity|]. intros f u d []. }
  exists result. split; [|exact Hr].
  unfold processMesh. cbn [m_faces m_vertices]. rewrite E. reflexivity.
Qed.

Lemma linear_scan_keeps_first_closest_face_witness :
  exists result,
    processMesh (mkImpl (map pt gridVertices) gridFaces None)
                (pt (q3 1 1 1)) infinity
    = Ok (fst result)
    /\ first_closest (map pt gridVertices) (q3 1 1 1) infinity gridFaces
                     result.
Proof.
  apply (@linear_scan_keeps_first_closest_face (q3 0 0 0) (tl gridVertices)
           gridFaces (q3 1 1 1) infinity).
  apply solved_checked. vm_compute. reflexivity.
Defined.

(** The square of a radius and of its opposite bound the same values. *)
Lemma square_of_opposite (maxDist x : float) :
  (x <? - maxDist * - maxDist)%fl = (x <? maxDist * maxDist)%fl.
Proof.
  destruct maxDist as [r| | |]; cbn [fopp fmul]; try reflexivity.
  destruct x as [a| | |]; cbn [flt]; try reflexivity.
  destruct (Qlt_bool_spec a (- r * - r)), (Qlt_bool_spec a (r * r));
    try reflexivity; exfalso;
    assert (E : - r * - r == r * r) by ring; lra.
Qed.

Section SameRadius.

Variable vertices : list Point.
Variable queryPoint : Point.
Variable s1 s2 : float.
Hypothesis same : forall x, (x <? s1)%fl = (x <? s2)%fl.

Lemma reduce_same_radius (acc : ClosestPointSpec) (face : Face) :
  reduceClosestPointOnFace vertices queryPoint s1 acc face
  = reduceClosestPointOnFace vertices queryPoint s2 acc face.
Proof.
  unfold reduceClosestPointOnFace.
  destruct (computeClosestPointOnFace face vertices queryPoint)
    as [r| | | |]; cbn [bind]; try reflexivity.
  rewrite same. reflexivity.
Qed.

Lemma scan_same_radius (faces : list Face) :
  forall acc,
    fold_left (fun acc face =>
                 r <- acc ;;
                 reduceClosestPointOnFace vertices queryPoint s1 r face)
              faces acc
    = fold_left (fun acc face =>
                   r <- acc ;;
                   reduceClosestPointOnFace vertices queryPoint s2 r face)
                faces acc.
Proof.
  induction faces as [|f fs IH]; intro acc; [reflexivity|].
  cbn [fold_left]. rewrite IH. f_equal.
  destruct acc as [a| | | |]; cbn [bind]; try reflexivity.
  apply reduce_same_radius.
Qed.

Lemma search_same_radius (fuel : nat) :
  forall heap result,
    bestFirstSearch fuel vertices queryPoint s1 heap result
    = bestFirstSearch fuel vertices queryPoint s2 heap result.
Proof.
  induction fuel as [|fuel IH]; intros heap result; [reflexivity|].
  cbn [bestFirstSearch].
  destruct (heap_top heap) as [top|]; [|reflexivity].
  destruct (snd top <? snd result)%fl; [|reflexivity].
  cbv zeta. destruct (isLeaf (fst top)); [|apply IH].
  rewrite !acceptElements_scan, scan_same_radius.
  destruct (fold_left
              (fun acc face =>
                 r <- acc ;;
                 reduceClosestPointOnFace vertices queryPoint s2 r face)
              (map fst (m_elements (fst top))) (Ok result)) as [r| | | |];
    cbn [bind]; try reflexivity.
  apply IH.
Qed.

End SameRadius.

(** X17. The sign of the maximum distance is ignored: only its square
    is used, so a query with [- maxDist] returns what the query with
    [maxDist] returns, on any engine and for any float. *)
Theorem opposite_radius_same_answer (impl : Impl) (queryPoint : Point)
    (maxDist : float) :
  query impl queryPoint (- maxDist)%fl = query impl queryPoint maxDist.
Proof.
  unfold query, processPartitionedSpace, processMesh.
  destruct (m_partitionedSpace impl) as [root|].
  - cbv zeta.
    rewrite (@search_same_radius (m_vertices impl) queryPoint
               (- maxDist * - maxDist)%fl (maxDist * maxDist)%fl
               (square_of_opposite maxDist)).
    reflexivity.
  - rewrite (@scan_same_radius (m_vertices impl) queryPoint
               (- maxDist * - maxDist)%fl (maxDist * maxDist)%fl
               (square_of_opposite maxDist)).
    reflexivity.
Qed.

(** ** Float3 and the extents *)

Lemma feq_nan_left (u v : float) : isnan u = true -> (u =? v)%fl = false.
Proof. destruct u; try discriminate. reflexivity. Qed.

Lemma feq_nan_right (u v : float) : isnan v = true -> (u =? v)%fl = false.
Proof. destruct v; try discriminate. destruct u; reflexivity. Qed.

Lemma feq_refl (u : float) : isnan u = false -> (u =? u)%fl = true.
Proof.
  destruct u as [a| | |]; try discriminate; try reflexivity.
  intros _. cbn. apply Qeq_bool_iff. reflexivity.
Qed.

(** X19. A point with a NaN component equals nothing, not even itself:
    [operator==] answers false and [operator!=] true against every
    point, so the all-NaN point that a query returns is recognised with
    [hasNan] only; a point without NaN equals itself. *)
Theorem nan_point_equals_nothing (p : Point) :
  (Float3.hasNan p = true ->
   forall p' : Point,
     Float3.eqb p p' = false /\ Float3.eqb p' p = false
     /\ Float3.neq p p' = true)
  /\ (Float3.hasNan p = false ->
      Float3.eqb p p = true /\ Float3.neq p p = false)
  /\ Float3.hasNan (Float3.splat nan) = true.
Proof.
  destruct p as [x y z]. unfold Float3.hasNan, Float3.neq, Float3.eqb.
  cbn [Float3.x Float3.y Float3.z]. split; [|split; [|reflexivity]].
  - intros H [x' y' z']. cbn [Float3.x Float3.y Float3.z].
    apply orb_true_iff in H. destruct H as [H|H].
    + apply orb_true_iff in H. destruct H as [H|H].
      * rewrite (@feq_nan_left x x' H), (@feq_nan_right x' x H).
        repeat split.
      * rewrite (@feq_nan_left y y' H), (@feq_nan_right y' y H).
        rewrite !andb_false_r. repeat split.
    + rewrite (@feq_nan_left z z' H), (@feq_nan_right z' z H).
      rewrite !andb_false_r. repeat split.
  - intro H. apply orb_false_iff in H. destruct H as [H Hz].
    apply orb_false_iff in H. destruct H as [Hx Hy].
    rewrite (@feq_refl x Hx), (@feq_refl y Hy), (@feq_refl z Hz).
    split; reflexivity.
Qed.

Lemma fsquare_sign (u : float) :
  (exists a, (u * u)%fl = Fin a /\ 0 <= a) \/ (u * u)%fl = PInf
  \/ (u * u)%fl = NaN.
Proof.
  destruct u as [a| | |].
  - left. exists (a * a). split; [reflexivity | apply Qsquare_nonneg].
  - right. left. reflexivity.
  - right. left. reflexivity.
  - right. right. reflexivity.
Qed.

(** X20. [sqrLength] is never negative, on any point, infinities and
    NaN included: the comparison of a squared length with zero fails. *)
Theorem squared_length_is_never_negative (p : Point) :
  (Float3.sqrLength p <? 0)%fl = false.
Proof.
  destruct p as [x y z]. unfold Float3.sqrLength, Float3.dot.
  cbn [Float3.x Float3.y Float3.z].
  destruct (fsquare_sign x) as [(a & -> & Ha)|[->| ->]];
    destruct (fsquare_sign y) as [(b & -> & Hb)|[->| ->]];
    destruct (fsquare_sign z) as [(c & -> & Hc)|[->| ->]];
    cbn [fadd flt]; try reflexivity.
  destruct (Qlt_bool_spec (a + b + c) 0); [lra | reflexivity].
Qed.

Lemma fmin_not_nan (u v : float) : isnan u = false -> isnan (fmin u v) = false.
Proof.
  intro H. unfold fmin. destruct (v <? u)%fl eqn:E; [|exact H].
  destruct v; try reflexivity. discriminate E.
Qed.

Lemma fmax_not_nan (u v : float) : isnan u = false -> isnan (fmax u v) = false.
Proof.
  intro H. unfold fmax. destruct (u <? v)%fl eqn:E; [|exact H].
  destruct v; try reflexivity. destruct u; discriminate E.
Qed.

Lemma growExtent_not_nan (extent : Extent) (point : Point) :
  Float3.hasNan (fst extent) = false -> Float3.hasNan (snd extent) = false ->
  Float3.hasNan (fst (growExtent extent point)) = false
  /\ Float3.hasNan (snd (growExtent extent point)) = false.
Proof.
  destruct extent as [[a1 a2 a3] [b1 b2 b3]], point as [x y z].
  unfold growExtent, Float3.hasNan. cbn [fst snd Float3.x Float3.y Float3.z].
  intros Ha Hb.
  apply orb_false_iff in Ha. destruct Ha as [Ha Ha3].
  apply orb_false_iff in Ha. destruct Ha as [Ha1 Ha2].
  apply orb_false_iff in Hb. destruct Hb as [Hb Hb3].
  apply orb_false_iff in Hb. destruct Hb as [Hb1 Hb2].
  rewrite (@fmin_not_nan a1 x Ha1), (@fmin_not_nan a2 y Ha2),
    (@fmin_not_nan a3 z Ha3), (@fmax_not_nan b1 x Hb1),
    (@fmax_not_nan b2 y Hb2), (@fmax_not_nan b3 z Hb3).
  split; reflexivity.
Qed.

(** X21. NaN never enters an extent: [std::min] and [std::max] keep
    their first argument against NaN, so the extent that [partitionSpace]
    accumulates over any list of vertices has no NaN component. *)
Theorem extent_never_holds_nan (points : list Point) :
  Float3.hasNan (fst (fold_left growExtent points emptyExtent)) = false
  /\ Float3.hasNan (snd (fold_left growExtent points emptyExtent)) = false.
Proof.
  assert (H : forall extent,
             Float3.hasNan (fst extent) = false ->
             Float3.hasNan (snd extent) = false ->
             Float3.hasNan (fst (fold_left growExtent points extent)) = false
             /\ Float3.hasNan (snd (fold_left growExtent points extent))
                = false).
  { induction points as [|p ps IH]; intros extent Ha Hb.
    - split; assumption.
    - cbn [fold_left].
      destruct (growExtent_not_nan extent p Ha Hb) as [Ha' Hb'].
      apply IH; assumption. }
  apply H; reflexivity.
Qed.

(** X23. The constructor checks the vertex list only: it raises
    [EmptyMesh] when there is no vertex, whatever the faces, and on a
    mesh whose vertex indices are in range it succeeds whatever the
    arity and the shape of the faces, keeps the vertices and the faces,
    and builds the index exactly when there are 32 faces or more. *)
Theorem constructor_checks_only_the_vertex_list (v : Q3) (vs : list Q3)
    (faces : list Face) :
  (forall f, In f faces -> in_range (v :: vs) f) ->
  newImpl (mkMesh [] faces) = Throw EmptyMesh
  /\ exists impl,
       newImpl (mkMesh (map pt (v :: vs)) faces) = Ok impl
       /\ m_vertices impl = map pt (v :: vs)
       /\ m_faces impl = faces
       /\ (m_partitionedSpace impl = None
           <-> (List.length faces < 32)%nat)
       /\ forall root, m_partitionedSpace impl = Some root ->
                       partitionSpace (map pt (v :: vs)) faces = Ok root.
Proof.
  intro Hr. split; [reflexivity|].
  unfold newImpl. cbn [getVertices getFaces map].
  destruct (Z.of_nat (List.length faces) >=? minSpacePartitioningFaces)%Z
    eqn:Hn.
  - destruct (@partitionSpace_inv v vs faces) as (root & _ & _ & _ & E & _).
    { intros f Hf. apply in_range_elementOf, Hr, Hf. }
    cbn [map] in E. rewrite E. cbn [bind]. eexists.
    split; [reflexivity|]. split; [reflexivity|]. split; [reflexivity|].
    cbn [m_partitionedSpace]. split.
    + split; [discriminate|]. intro Hlt. exfalso.
      apply Z.geb_le in Hn. unfold minSpacePartitioningFaces in Hn. lia.
    + intros root' H. injection H as <-. reflexivity.
  - eexists.
    split; [reflexivity|]. split; [reflexivity|]. split; [reflexivity|].
    cbn [m_partitionedSpace]. split.
    + split; [|reflexivity]. intros _.
      assert (Hlt : (Z.of_nat (List.length faces)
                     < minSpacePartitioningFaces)%Z).
      { destruct (Z.ltb_spec (Z.of_nat (List.length faces))
                             minSpacePartitioningFaces) as [H|H];
          [exact H|].
        apply Z.geb_le in H. rewrite H in Hn. discriminate Hn. }
      unfold minSpacePartitioningFaces in Hlt. lia.
    + intros root H. discriminate H.
Qed.

Lemma constructor_checks_only_the_vertex_list_witness :
  newImpl (mkMesh [] farFaces) = Throw EmptyMesh
  /\ exists impl,
       newImpl (mkMesh (map pt farVertices) farFaces) = Ok impl
       /\ m_vertices impl = map pt farVertices
       /\ m_faces impl = farFaces
       /\ (m_partitionedSpace impl = None
           <-> (List.length farFaces < 32)%nat)
       /\ forall root, m_partitionedSpace impl = Some root ->
                       partitionSpace (map pt farVertices) farFaces = Ok root.
Proof.
  apply (@constructor_checks_only_the_vertex_list (q3 0 0 0)
           (tl farVertices) farFaces).
  apply in_range_checked. vm_compute. reflexivity.
Defined.

(** ** The elements of the octree *)

Lemma leads_to_reached (T : Type) (intersects : Intersect T) (maxDepth : Z)
    (valid : T -> Prop) (element : T) (root leaf : OctreeNode T) :
  leads_to intersects element root leaf ->
  forall depth reached,
    tree_inv intersects maxDepth valid depth reached root ->
    In element reached ->
    exists depth' reached',
      tree_inv intersects maxDepth valid depth' reached' leaf
      /\ In element reached'.
Proof.
  induction 1 as [|node child _ IH Hl Hin Hi]; intros depth reached Hinv He.
  - exists depth, reached. split; assumption.
  - destruct (IH depth reached Hinv He) as (d & r & Hn & Hr).
    inversion Hn as [? ? ? c h Hl'|? ? ? c h Hl' Hb Hlen Hd Hnone Hbc Hch];
      subst.
    + rewrite Hl in Hl'. discriminate Hl'.
    + apply In_nth_error in Hin. destruct Hin as [i Hi'].
      exists (d + 1)%Z, (filter (intersects (m_bounds child)) r).
      split; [exact (Hch i child Hi')|].
      apply filter_In. split; assumption.
Qed.

(** X25. After any sequence of insertions into a new node, every
    inserted element is stored in every leaf that one reaches from the
    root through children whose bounds the element intersects.  (An
    element that intersects the bounds of no child of a node is in none
    of the leaves below that node.) *)
Theorem inserted_elements_are_found (T : Type) (intersects : Intersect T)
    (maxDepth : Z) (maxFill : float) (center : Q3) (halfWidth : Q)
    (elements : list T) :
  exists root,
    insertAll intersects maxDepth maxFill elements
              (newOctreeNode (AABCube.make (pt center) (Fin halfWidth)))
    = Ok root
    /\ forall element leaf,
         In element elements ->
         leads_to intersects element root leaf ->
         isLeaf leaf = true ->
         In element (m_elements leaf).
Proof.
  destruct (@insertAll_inv T intersects maxDepth maxFill elements []
              _ (fresh_node_inv intersects maxDepth center halfWidth))
    as (root & E & Hinv & _).
  exists root. split; [exact E|].
  intros element leaf He Hto Hl.
  destruct (leads_to_reached Hto Hinv) as (d & r & Hn & Hr).
  { rewrite app_nil_r. apply in_rev in He. exact He. }
  inversion Hn as [? ? ? c h Hl' Hb Hch Hincl|? ? ? c h Hl']; subst.
  - apply Hincl, Hr.
  - rewrite Hl in Hl'. discriminate Hl'.
Qed.


(** ** Powers of two *)

Lemma pow2_pos (e : Z) : 0 < pow2 e.
Proof. apply Qpower_0_lt. reflexivity. Qed.

Lemma pow2_add (a b : Z) : pow2 (a + b) == pow2 a * pow2 b.
Proof. apply Qpower_plus. discriminate. Qed.

Lemma pow2_le (a b : Z) : (a <= b)%Z -> pow2 a <= pow2 b.
Proof. intros H. apply Qpower_le_compat_l; [exact H | discriminate]. Qed.

Lemma pow2_lt_inv (a b : Z) : pow2 a < pow2 b -> (a < b)%Z.
Proof. intros H. apply Qpower_lt_compat_l_inv with (q := 2); [exact H | reflexivity]. Qed.

Lemma pow2_inject (e : Z) : (0 <= e)%Z -> pow2 e == inject_Z (2 ^ e).
Proof. intros H. unfold pow2. rewrite Zpower_Qpower by exact H. reflexivity. Qed.

(** ** The floor of the binary logarithm *)

Lemma log2_floor_spec (q : Q) :
  0 < q -> pow2 (log2_floor q) <= q /\ q < pow2 (log2_floor q + 1).
Proof.
  intros Hq. unfold log2_floor.
  destruct q as [n d]. cbn [Qnum Qden].
  assert (Hn : (0 < n)%Z).
  { unfold Qlt in Hq. cbn in Hq. lia. }
  set (ln := Z.log2 n). set (ld := Z.log2 (Z.pos d)).
  assert (Hln : (2 ^ ln <= n < 2 ^ (ln + 1))%Z).
  { unfold ln. pose proof (Z.log2_spec n Hn). unfold Z.succ in *. lia. }
  assert (Hld : (2 ^ ld <= Z.pos d < 2 ^ (ld + 1))%Z).
  { unfold ld. pose proof (Z.log2_spec (Z.pos d) eq_refl). unfold Z.succ in *. lia. }
  assert (Hln0 : (0 <= ln)%Z) by apply Z.log2_nonneg.
  assert (Hld0 : (0 <= ld)%Z) by apply Z.log2_nonneg.
  assert (Eq : n # d == inject_Z n / inject_Z (Z.pos d)) by apply Qmake_Qdiv.
  assert (Hd : 0 < inject_Z (Z.pos d)) by reflexivity.
  assert (Ln : pow2 ln <= inject_Z n).
  { rewrite pow2_inject by exact Hln0. rewrite <- Zle_Qle. lia. }
  assert (Un : inject_Z n < pow2 (ln + 1)).
  { rewrite pow2_inject by lia. rewrite <- Zlt_Qlt. lia. }
  assert (Ld : pow2 ld <= inject_Z (Z.pos d)).
  { rewrite pow2_inject by exact Hld0. rewrite <- Zle_Qle. lia. }
  assert (Ud : inject_Z (Z.pos d) < pow2 (ld + 1)).
  { rewrite pow2_inject by lia. rewrite <- Zlt_Qlt. lia. }
  (* q * d = n *)
  assert (Eq' : (n # d) * inject_Z (Z.pos d) == inject_Z n).
  { rewrite Eq. field. intros H. rewrite H in Hd. discriminate. }
  destruct (Qle_bool (pow2 (ln - ld)) (n # d)) eqn:E.
  - apply Qle_bool_iff in E. split; [exact E|].
    (* q < 2^(ln - ld + 1): q * d = n < 2^(ln+1) <= 2^(ln-ld+1) * 2^ld <= .. * d *)
    apply Qnot_le_lt. intros C.
    assert (H1 : pow2 (ln - ld + 1) * pow2 ld <= (n # d) * inject_Z (Z.pos d)).
    { apply Qle_trans with (pow2 (ln - ld + 1) * inject_Z (Z.pos d)).
      - apply Qmult_le_l; [apply pow2_pos | exact Ld].
      - apply Qmult_le_compat_r; [exact C | apply Qlt_le_weak; exact Hd]. }
    rewrite <- pow2_add in H1. rewrite Eq' in H1.
    replace (ln - ld + 1 + ld)%Z with (ln + 1)%Z in H1 by lia.
    apply (Qlt_irrefl (inject_Z n)). eapply Qlt_le_trans; eassumption.
  - assert (E' : n # d < pow2 (ln - ld)).
    { apply Qnot_le_lt. intros C. apply Qle_bool_iff in C. congruence. }
    split.
    + (* 2^(ln-ld-1) <= q : 2^(ln - ld - 1) * d < 2^(ln-ld-1) * 2^(ld+1) = 2^ln <= n = q d *)
      apply Qnot_lt_le. intros C.
      assert (H1 : (n # d) * inject_Z (Z.pos d) < pow2 (ln - ld - 1) * pow2 (ld + 1)).
      { apply Qlt_trans with (pow2 (ln - ld - 1) * inject_Z (Z.pos d)).
        - apply Qmult_lt_compat_r; assumption.
        - apply Qmult_lt_l; [apply pow2_pos | exact Ud]. }
      rewrite <- pow2_add in H1. rewrite Eq' in H1.
      replace (ln - ld - 1 + (ld + 1))%Z with ln in H1 by lia.
      apply (Qlt_irrefl (inject_Z n)). eapply Qlt_le_trans; eassumption.
    + replace (ln - ld - 1 + 1)%Z with (ln - ld)%Z by lia. exact E'.
Qed.

Lemma log2_floor_unique (q : Q) (k : Z) :
  0 < q -> pow2 k <= q -> (k <= log2_floor q)%Z.
Proof.
  intros Hq Hk. destruct (log2_floor_spec Hq) as [_ U].
  assert (H : pow2 k < pow2 (log2_floor q + 1)) by (eapply Qle_lt_trans; eassumption).
  apply pow2_lt_inv in H. lia.
Qed.

Lemma log2_floor_mono (q h : Q) :
  0 < q -> q <= h -> (log2_floor q <= log2_floor h)%Z.
Proof.
  intros Hq Hh. apply log2_floor_unique.
  - eapply Qlt_le_trans; eassumption.
  - destruct (log2_floor_spec Hq) as [L _]. eapply Qle_trans; eassumption.
Qed.

Lemma quantum_mono (q h : Q) : 0 < q -> q <= h -> (quantum q <= quantum h)%Z.
Proof.
  intros Hq Hh. unfold quantum. pose proof (log2_floor_mono Hq Hh). lia.
Qed.

Lemma quantum_min (q : Q) : (-149 <= quantum q)%Z.
Proof. unfold quantum. lia. Qed.

(** ** Rounding to an integer *)

Lemma round_half_even_le (x : Q) (j : Z) :
  x <= inject_Z j -> (round_half_even x <= j)%Z.
Proof.
  intros H. unfold round_half_even.
  pose proof (Qfloor_le x) as L.
  assert (Hf : (Qfloor x <= j)%Z).
  { rewrite Zle_Qle. eapply Qle_trans; eassumption. }
  destruct (Z.eq_dec (Qfloor x) j) as [E | E].
  - assert (C : (x - inject_Z (Qfloor x) ?= 1 # 2) = Lt).
    { rewrite E in *. apply -> Qlt_alt. lra. }
    rewrite C. lia.
  - destruct (x - inject_Z (Qfloor x) ?= 1 # 2); [destruct (Z.even _)| |]; lia.
Qed.

Lemma round_half_even_ge (x : Q) (j : Z) :
  inject_Z j <= x -> (j <= round_half_even x)%Z.
Proof.
  intros H. unfold round_half_even.
  assert (Hf : (j <= Qfloor x)%Z).
  { rewrite <- (Qfloor_Z j). apply Qfloor_resp_le. exact H. }
  destruct (x - inject_Z (Qfloor x) ?= 1 # 2); [destruct (Z.even _)| |]; lia.
Qed.

(** ** Rounding a positive number *)

Lemma on_grid_down (e e' : Z) (h : Q) :
  (e <= e')%Z -> on_grid e' h -> on_grid e h.
Proof.
  intros He [j Hj]. exists (j * 2 ^ (e' - e))%Z.
  rewrite Hj, inject_Z_mult, <- pow2_inject by lia.
  rewrite <- Qmult_assoc, <- pow2_add.
  replace (e' - e + e)%Z with e' by lia. reflexivity.
Qed.

Lemma on_grid_pow2 (e k : Z) : (e <= k)%Z -> on_grid e (pow2 k).
Proof.
  intros H. apply on_grid_down with k; [exact H|].
  exists 1%Z. change (inject_Z 1) with 1. ring.
Qed.

Lemma round_pos_unfold (q : Q) :
  round_pos q =
  let r := inject_Z (round_half_even (q / pow2 (quantum q))) * pow2 (quantum q) in
  if Qle_bool (pow2 128) r then PInf else Fin (Qred r).
Proof. reflexivity. Qed.

Lemma round_pos_le (q h : Q) :
  0 < q -> q <= h -> on_grid (quantum q) h -> h < pow2 128 ->
  exists r, round_pos q = Fin r /\ 0 <= r /\ r <= h.
Proof.
  intros Hq Hh [j Hj] Hmax. rewrite round_pos_unfold. cbv zeta.
  set (e := quantum q) in *.
  pose proof (pow2_pos e) as He.
  assert (Hm : (round_half_even (q / pow2 e) <= j)%Z).
  { apply round_half_even_le. apply Qle_shift_div_r; [exact He|].
    rewrite <- Hj. exact Hh. }
  assert (H0 : (0 <= round_half_even (q / pow2 e))%Z).
  { apply round_half_even_ge. apply Qle_shift_div_l; [exact He|].
    change (inject_Z 0) with 0. lra. }
  set (m := round_half_even (q / pow2 e)) in *.
  assert (Hr : inject_Z m * pow2 e <= h).
  { rewrite Hj. apply Qmult_le_compat_r; [| lra].
    rewrite <- Zle_Qle. exact Hm. }
  assert (E : Qle_bool (pow2 128) (inject_Z m * pow2 e) = false).
  { destruct (Qle_bool _ _) eqn:E; [| reflexivity].
    apply Qle_bool_iff in E. lra. }
  rewrite E. eexists. split; [reflexivity|]. rewrite Qred_correct.
  split; [| exact Hr].
  apply Qmult_le_0_compat; [| lra].
  change 0 with (inject_Z 0). rewrite <- Zle_Qle. exact H0.
Qed.

Lemma round_pos_ge (q h : Q) :
  0 < q -> h <= q -> on_grid (quantum q) h ->
  round_pos q = PInf \/ exists r, round_pos q = Fin r /\ h <= r.
Proof.
  intros Hq Hh [j Hj]. rewrite round_pos_unfold. cbv zeta.
  set (e := quantum q) in *.
  pose proof (pow2_pos e) as He.
  assert (Hm : (j <= round_half_even (q / pow2 e))%Z).
  { apply round_half_even_ge. apply Qle_shift_div_l; [exact He|].
    rewrite <- Hj. exact Hh. }
  set (m := round_half_even (q / pow2 e)) in *.
  destruct (Qle_bool _ _); [left; reflexivity|].
  right. eexists. split; [reflexivity|]. rewrite Qred_correct, Hj.
  apply Qmult_le_compat_r; [| lra].
  rewrite <- Zle_Qle. exact Hm.
Qed.

(** Rounding a positive number gives a number that is not negative, or
    overflows. *)
Lemma round_pos_sign (q : Q) :
  0 < q -> round_pos q = PInf \/ exists r, round_pos q = Fin r /\ 0 <= r.
Proof.
  intros Hq. apply round_pos_ge; [exact Hq | lra |].
  exists 0%Z. change (inject_Z 0) with 0. ring.
Qed.

Lemma round_pos_grid (q r : Q) : round_pos q = Fin r -> on_grid (-149) r.
Proof.
  rewrite round_pos_unfold. cbv zeta.
  set (m := round_half_even (q / pow2 (quantum q))).
  set (r0 := inject_Z m * pow2 (quantum q)).
  destruct (Qle_bool _ _); [discriminate|].
  intros H. assert (E : r = Qred r0) by congruence.
  apply on_grid_down with (quantum q); [apply quantum_min|].
  exists m. rewrite E. apply Qred_correct.
Qed.

(** ** Rounding *)

Lemma Qopp_opp (q : Q) : (- - q)%Q = q.
Proof. destruct q as [n d]. unfold Qopp. cbn. now rewrite Z.opp_involutive. Qed.

Lemma fopp_involutive (u : float) : fopp (fopp u) = u.
Proof. destruct u; cbn; [now rewrite Qopp_opp | reflexivity..]. Qed.

Lemma round32_pos (q : Q) : 0 < q -> round32 q = round_pos q.
Proof.
  intros H. unfold round32.
  assert (E : (q ?= 0) = Gt) by (apply Qgt_alt; exact H).
  now rewrite E.
Qed.

Lemma round32_neg (q : Q) : q < 0 -> round32 q = fopp (round_pos (- q)).
Proof.
  intros H. unfold round32.
  assert (E : (q ?= 0) = Lt) by (apply Qlt_alt; exact H).
  now rewrite E.
Qed.

Lemma round32_zero (q : Q) : q == 0 -> round32 q = Fin 0.
Proof.
  intros H. unfold round32.
  assert (E : (q ?= 0) = Eq) by (apply Qeq_alt; exact H).
  now rewrite E.
Qed.

Lemma round32_opp (q : Q) : round32 (- q) = fopp (round32 q).
Proof.
  destruct (Q_dec q 0) as [[H | H] | H].
  - rewrite (round32_neg H), fopp_involutive. apply round32_pos. lra.
  - rewrite (round32_pos H), round32_neg by lra. now rewrite Qopp_opp.
  - rewrite (round32_zero H), round32_zero by lra. reflexivity.
Qed.

(** The numbers of binary32 lie on the grid of their own quantum, below
    the overflow threshold. *)
Lemma representable_grid (h : Q) :
  0 < h -> representable (Fin h) = true ->
  on_grid (quantum h) h /\ h < pow2 128.
Proof.
  intros Hh. unfold representable. rewrite (round32_pos Hh), round_pos_unfold.
  cbv zeta. destruct (Qle_bool _ _) eqn:E; [discriminate|].
  cbn [feq]. intros R. apply Qeq_bool_iff in R. rewrite Qred_correct in R.
  split.
  - eexists. symmetry. exact R.
  - rewrite <- R. apply Qnot_le_lt. intros C. apply Qle_bool_iff in C. congruence.
Qed.

Lemma round_pos_le_repr (q h : Q) :
  0 < q -> q <= h -> representable (Fin h) = true ->
  exists r, round_pos q = Fin r /\ 0 <= r /\ r <= h.
Proof.
  intros Hq Hh R.
  destruct (@representable_grid h) as [G M]; [lra | exact R |].
  apply round_pos_le; [exact Hq | exact Hh | | exact M].
  apply on_grid_down with (quantum h); [| exact G].
  now apply quantum_mono.
Qed.

Lemma round_pos_ge_repr (q h : Q) :
  0 < h -> h <= q -> representable (Fin h) = true ->
  round_pos q = PInf \/ exists r, round_pos q = Fin r /\ h <= r.
Proof.
  intros Hh Hq R.
  assert (Hq0 : 0 < q) by lra.
  destruct (representable_grid Hh R) as [G M].
  pose proof (quantum_mono Hh Hq) as Q.
  destruct (Z.eq_dec (quantum h) (quantum q)) as [E | E].
  - apply round_pos_ge; [exact Hq0 | exact Hq |]. rewrite <- E. exact G.
  - (* the quantum of [q] is larger: a power of two lies between *)
    assert (K : (quantum q = log2_floor q - 23)%Z).
    { unfold quantum in *. lia. }
    assert (K' : (log2_floor h < log2_floor q)%Z).
    { unfold quantum in *. lia. }
    destruct (log2_floor_spec Hq0) as [L _].
    destruct (log2_floor_spec Hh) as [_ U].
    assert (P : pow2 (log2_floor h + 1) <= pow2 (log2_floor q)).
    { apply pow2_le. lia. }
    destruct (@round_pos_ge q (pow2 (log2_floor q))) as [I | [r [I Hr]]];
      [exact Hq0 | exact L | apply on_grid_pow2; lia | left; exact I |].
    right. exists r. split; [exact I | lra].
Qed.

Lemma representable_zero : representable (Fin 0) = true.
Proof. reflexivity. Qed.

Lemma representable_opp (h : Q) :
  representable (Fin (- h)) = representable (Fin h).
Proof.
  unfold representable. rewrite round32_opp.
  destruct (round32 h) as [q| | |]; cbn; try reflexivity.
  destruct (Qeq_bool (- q) (- h)) eqn:E1, (Qeq_bool q h) eqn:E2; try reflexivity.
  - apply Qeq_bool_iff in E1. apply Qeq_bool_neq in E2. exfalso. apply E2. lra.
  - apply Qeq_bool_iff in E2. apply Qeq_bool_neq in E1. exfalso. apply E1. lra.
Qed.

(** Rounding never crosses a number of binary32. *)
Lemma round32_le (q h : Q) :
  q <= h -> representable (Fin h) = true -> fle (round32 q) (Fin h) = true.
Proof.
  intros Hq R.
  destruct (Q_dec q 0) as [[H | H] | H].
  - rewrite (round32_neg H).
    destruct (Qlt_le_dec h 0) as [Hh | Hh].
    + destruct (@round_pos_ge_repr (- q) (- h)) as [I | [r [I Hr]]];
        [lra | lra | now rewrite representable_opp | |]; rewrite I;
        cbn [fopp]; [reflexivity|].
      destruct (fle_spec (- r) h); [reflexivity | lra].
    + destruct (@round_pos_sign (- q)) as [I | [r [I Hr]]]; [lra | |];
        rewrite I; cbn [fopp]; [reflexivity|].
      destruct (fle_spec (- r) h); [reflexivity | lra].
  - rewrite (round32_pos H).
    destruct (@round_pos_le_repr q h) as [r [I [_ Hr]]];
      [exact H | exact Hq | exact R |].
    rewrite I. destruct (fle_spec r h); [reflexivity | lra].
  - rewrite (round32_zero H).
    destruct (fle_spec 0 h); [reflexivity | lra].
Qed.

Lemma fle_opp (u v : float) : fle (fopp u) (fopp v) = fle v u.
Proof.
  destruct u as [a| | |], v as [b| | |]; try reflexivity.
  cbn [fopp].
  destruct (fle_spec (- a) (- b)), (fle_spec b a); try reflexivity; lra.
Qed.

Lemma round32_ge (q h : Q) :
  h <= q -> representable (Fin h) = true -> fle (Fin h) (round32 q) = true.
Proof.
  intros Hq R.
  rewrite <- (Qopp_opp q), round32_opp, <- (Qopp_opp h).
  change (Fin (- - h)) with (fopp (Fin (- h))).
  rewrite fle_opp. apply round32_le; [lra | now rewrite representable_opp].
Qed.

Lemma round32_grid (q r : Q) : round32 q = Fin r -> on_grid (-149) r.
Proof.
  destruct (Q_dec q 0) as [[H | H] | H].
  - rewrite (round32_neg H). destruct (round_pos (- q)) eqn:E; try discriminate.
    cbn. intros [= <-]. destruct (@round_pos_grid _ _ E) as [j Hj].
    exists (- j)%Z. rewrite Hj, inject_Z_opp. ring.
  - rewrite (round32_pos H). apply round_pos_grid.
  - rewrite (round32_zero H). intros [= <-]. exists 0%Z.
    change (inject_Z 0) with 0. ring.
Qed.

(** ** Comparisons of floats *)

Lemma fle_false_flt (u v : float) :
  isnan u = false -> isnan v = false -> fle u v = false -> flt v u = true.
Proof.
  destruct u as [a| | |], v as [b| | |]; try discriminate; try reflexivity.
  intros _ _. destruct (fle_spec a b); [discriminate|]. intros _.
  destruct (flt_spec b a); [reflexivity | lra].
Qed.

Lemma flt_trans (u v w : float) :
  flt u v = true -> flt v w = true -> flt u w = true.
Proof.
  destruct u as [a| | |], v as [b| | |], w as [c| | |];
    try discriminate; try reflexivity.
  destruct (flt_spec a b); [|discriminate].
  destruct (flt_spec b c); [|discriminate].
  destruct (flt_spec a c); [reflexivity | lra].
Qed.

Lemma fle_trans (u v w : float) :
  fle u v = true -> fle v w = true -> fle u w = true.
Proof.
  destruct u as [a| | |], v as [b| | |], w as [c| | |];
    try discriminate; try reflexivity.
  destruct (fle_spec a b); [|discriminate].
  destruct (fle_spec b c); [|discriminate].
  destruct (fle_spec a c); [reflexivity | lra].
Qed.

Lemma flt_fle_trans (u v w : float) :
  flt u v = true -> fle v w = true -> flt u w = true.
Proof.
  destruct u as [a| | |], v as [b| | |], w as [c| | |];
    try discriminate; try reflexivity.
  destruct (flt_spec a b); [|discriminate].
  destruct (fle_spec b c); [|discriminate].
  destruct (flt_spec a c); [reflexivity | lra].
Qed.

Lemma fle_neq_flt (u v : float) :
  fle u v = true -> feq v u = false -> flt u v = true.
Proof.
  destruct u as [a| | |], v as [b| | |]; try discriminate; try reflexivity.
  destruct (fle_spec a b); [|discriminate].
  destruct (feq_spec b a); [discriminate|].
  destruct (flt_spec a b); [reflexivity | lra].
Qed.

Lemma flt_not_nan (u v : float) :
  flt u v = true -> isnan u = false /\ isnan v = false.
Proof. destruct u, v; try discriminate; split; reflexivity. Qed.

Lemma fle_not_nan (u v : float) :
  fle u v = true -> isnan u = false /\ isnan v = false.
Proof. destruct u, v; try discriminate; split; reflexivity. Qed.

(** ** Rounded operations: NaN, sign and grid *)

Lemma round_pos_not_nan (q : Q) : isnan (round_pos q) = false.
Proof. rewrite round_pos_unfold. cbv zeta. now destruct (Qle_bool _ _). Qed.

Lemma round32_not_nan (q : Q) : isnan (round32 q) = false.
Proof.
  unfold round32. destruct (q ?= 0); [reflexivity | |].
  - pose proof (round_pos_not_nan (- q)). now destruct (round_pos (- q)).
  - apply round_pos_not_nan.
Qed.

Lemma rnd_not_nan (u : float) : isnan u = false -> isnan (rnd u) = false.
Proof. destruct u; cbn [rnd]; auto using round32_not_nan. Qed.

Lemma rnd_nan (u : float) : isnan (rnd u) = isnan u.
Proof. destruct u; cbn [rnd]; auto using round32_not_nan. Qed.

Lemma rnd_gridded (u : float) : gridded (rnd u).
Proof.
  destruct u as [q| | |]; cbn [rnd gridded]; auto.
  destruct (round32 q) as [r| | |] eqn:E; cbn [gridded]; auto.
  exact (@round32_grid _ _ E).
Qed.

(** The sum, and the difference, of a finite float and a float that is
    not NaN is not NaN. *)
Lemma fadd32_not_nan (u v : float) :
  finite u = true -> isnan v = false -> isnan (fadd32 u v) = false.
Proof.
  destruct u; try discriminate. intros _ H. unfold fadd32.
  apply rnd_not_nan. now destruct v.
Qed.

Lemma fadd32_not_nan_r (u v : float) :
  isnan u = false -> finite v = true -> isnan (fadd32 u v) = false.
Proof.
  destruct v; try discriminate. intros H _. unfold fadd32.
  apply rnd_not_nan. now destruct u.
Qed.

Lemma fsub32_not_nan (u v : float) :
  finite u = true -> isnan v = false -> isnan (fsub32 u v) = false.
Proof.
  destruct u; try discriminate. intros _ H. unfold fsub32.
  apply rnd_not_nan. now destruct v.
Qed.

Lemma fsub32_not_nan_r (u v : float) :
  isnan u = false -> finite v = true -> isnan (fsub32 u v) = false.
Proof.
  destruct v; try discriminate. intros H _. unfold fsub32.
  apply rnd_not_nan. now destruct u.
Qed.

Lemma fmul32_finite_not_nan (u v : float) :
  finite u = true -> finite v = true -> isnan (fmul32 u v) = false.
Proof.
  destruct u, v; try discriminate. intros _ _. apply round32_not_nan.
Qed.

Lemma finite_not_nan (u : float) : finite u = true -> isnan u = false.
Proof. now destruct u. Qed.

Lemma representable_min : representable (Fin (pow2 (-149))) = true.
Proof. vm_compute. reflexivity. Qed.

(** The difference of two floats of the grid, the first of which is the
    larger, rounds to a positive float: gradual underflow. *)
Lemma fsub32_pos (u v : float) :
  gridded u -> gridded v -> flt v u = true -> flt (Fin 0) (fsub32 u v) = true.
Proof.
  destruct u as [x| | |], v as [y| | |]; try discriminate; try reflexivity.
  intros [jx Hx] [jy Hy] H. destruct (flt_spec y x) as [L|]; [|discriminate].
  unfold fsub32. cbn [fsub fadd fopp rnd].
  pose proof (pow2_pos (-149)) as Hp.
  assert (Hj : (jy < jx)%Z).
  { rewrite Zlt_Qlt. apply Qmult_lt_r with (pow2 (-149)); [exact Hp|].
    rewrite <- Hx, <- Hy. exact L. }
  assert (Hd : pow2 (-149) <= x + - y).
  { rewrite Hx, Hy.
    assert (E : inject_Z jx * pow2 (-149) + - (inject_Z jy * pow2 (-149))
                == inject_Z (jx - jy) * pow2 (-149)).
    { unfold Z.sub. rewrite inject_Z_plus, inject_Z_opp. ring. }
    rewrite E.
    assert (H1 : 1 <= inject_Z (jx - jy)).
    { change 1 with (inject_Z 1). rewrite <- Zle_Qle. lia. }
    nra. }
  apply flt_fle_trans with (Fin (pow2 (-149))).
  - destruct (flt_spec 0 (pow2 (-149))); [reflexivity | lra].
  - apply round32_ge; [exact Hd | exact representable_min].
Qed.

(** The sum of two floats that are not negative is not negative. *)
Lemma fadd32_nonneg (s t : float) :
  isnan (fadd32 s t) = false -> flt s (Fin 0) = false ->
  flt t (Fin 0) = false -> fle (Fin 0) (fadd32 s t) = true.
Proof.
  unfold fadd32. rewrite rnd_nan.
  destruct s as [x| | |], t as [y| | |]; try discriminate; try reflexivity.
  intros _. destruct (flt_spec x 0); [discriminate|].
  destruct (flt_spec y 0); [discriminate|]. intros _ _.
  cbn [fadd rnd]. apply round32_ge; [lra | reflexivity].
Qed.

(** ** The divisions of the solver on binary32 *)

Lemma safe_det (s t det : float) :
  feq det (Fin 0) = false -> fle (fadd32 s t) det = true ->
  flt s (Fin 0) = false -> flt t (Fin 0) = false ->
  safe_operands (Fin 1) det = true.
Proof.
  intros Hz Hle Hs Ht. unfold safe_operands.
  destruct (fle_not_nan _ _ Hle) as [N _].
  pose proof (fadd32_nonneg _ _ N Hs Ht) as H0.
  rewrite (fle_neq_flt _ _ (fle_trans _ _ _ H0 Hle) Hz). reflexivity.
Qed.

Lemma safe_edge (x y : float) :
  finite x = true -> finite y = true ->
  flt x (Fin 0) = true \/ fge x (Fin 0) = false ->
  fge (fopp x) y = false ->
  safe_operands (fopp x) y = true.
Proof.
  destruct x as [x| | |], y as [y| | |]; try discriminate. intros _ _ Hx Hy.
  unfold safe_operands, fge in *. cbn [fopp] in *.
  assert (L : x < 0).
  { destruct Hx as [Hx | Hx].
    - destruct (flt_spec x 0); [assumption | discriminate].
    - destruct (fle_spec 0 x); [discriminate | lra]. }
  destruct (fle_spec y (- x)); [discriminate|].
  destruct (flt_spec 0 y); [| lra].
  destruct (flt_spec 0 (- x)); [| lra].
  destruct (flt_spec (- x) y); [| lra].
  cbn. apply orb_true_r.
Qed.

Lemma safe_vertex (x y : float) :
  finite x = true -> finite y = true ->
  fle (fadd32 y x) (Fin 0) = false -> fge x (Fin 0) = false ->
  safe_operands (fopp x) y = true.
Proof.
  destruct x as [x| | |], y as [y| | |]; try discriminate. intros _ _ Hs Hx.
  unfold safe_operands, fge in *. cbn [fopp] in *.
  unfold fadd32 in Hs. cbn [fadd rnd] in Hs.
  assert (L : 0 < y + x).
  { apply Qnot_le_lt. intros C.
    rewrite (round32_le C representable_zero) in Hs. discriminate. }
  destruct (fle_spec 0 x); [discriminate|].
  destruct (flt_spec 0 y); [| lra].
  destruct (flt_spec 0 (- x)); [| lra].
  destruct (flt_spec (- x) y); [| lra].
  cbn. apply orb_true_r.
Qed.

Lemma safe_quotient (num denom : float) :
  isnan denom = false -> flt (Fin 0) num = true -> fge num denom = false ->
  safe_operands num denom = true.
Proof.
  intros Nd Hn Hge. unfold safe_operands, fge in *.
  destruct (flt_not_nan _ _ Hn) as [_ Nn].
  pose proof (fle_false_flt _ _ Nd Nn Hge) as L.
  rewrite (flt_trans _ _ _ Hn L), Hn, L. cbn. apply orb_true_r.
Qed.

Lemma denom_not_nan (a b c : float) :
  finite a = true -> finite b = true -> finite c = true ->
  isnan (fadd32 (fsub32 a (fmul32 (Fin 2) b)) c) = false.
Proof.
  intros Ha Hb Hc. apply fadd32_not_nan_r; [| exact Hc].
  apply fsub32_not_nan; [exact Ha|].
  now apply fmul32_finite_not_nan.
Qed.

Lemma num_not_nan (b c d e : float) :
  finite b = true -> finite c = true -> finite d = true -> finite e = true ->
  isnan (fsub32 (fsub32 (fadd32 c e) b) d) = false.
Proof.
  intros Hb Hc Hd He. apply fsub32_not_nan_r; [| exact Hd].
  apply fsub32_not_nan_r; [| exact Hb].
  apply fadd32_not_nan; [exact Hc | now apply finite_not_nan].
Qed.

Lemma triangleParameters_checked32 (a b c d e : float) :
  finite a = true -> finite b = true -> finite c = true ->
  finite d = true -> finite e = true ->
  Binary32.triangleParameters Binary32.checked_divide a b c d e
  = Binary32.triangleParameters Binary32.ieee_divide a b c d e.
Proof.
  intros Ha Hb Hc Hd He.
  pose proof (@denom_not_nan a b c Ha Hb Hc) as Nden.
  pose proof (@num_not_nan b c d e Hb Hc Hd He) as Nnum.
  unfold Binary32.triangleParameters, Binary32.checked_divide,
    Binary32.ieee_divide.
  cbv zeta.
  repeat match goal with
         | |- context [if safe_operands ?n ?m then _ else _] =>
             let H := fresh "S" in
             assert (H : safe_operands n m = true)
               by (first
                     [ eapply safe_det; eassumption
                     | apply safe_edge; auto; fail
                     | apply safe_vertex; auto; fail
                     | apply safe_quotient;
                       [ assumption
                       | first [ apply fsub32_pos;
                                 [apply rnd_gridded | apply rnd_gridded
                                 | assumption ]
                               | apply fle_false_flt;
                                 [assumption | reflexivity | assumption] ]
                       | assumption ] ]);
             rewrite H
         | |- context [if ?c then _ else _] =>
             lazymatch c with
             | safe_operands _ _ => fail
             | _ => destruct c eqn:?
             end
         end;
    reflexivity.
Qed.

Lemma triangleParameters_outcome32 (a b c d e : float) :
  Binary32.triangleParameters Binary32.ieee_divide a b c d e
  = Throw DegenerateTriangle
  \/ exists s t,
       Binary32.triangleParameters Binary32.ieee_divide a b c d e = Ok (s, t).
Proof.
  unfold Binary32.triangleParameters, Binary32.ieee_divide.
  repeat match goal with
         | |- context [if ?c then _ else _] => destruct c
         end;
    cbn [bind];
    first [left; reflexivity | right; eexists; eexists; reflexivity].
Qed.

Lemma triangle_solver_outcome32 (v0 v1 v2 q : Point) :
  query_outcome (Binary32.computeClosestPointOnTriangle v0 v1 v2 q).
Proof.
  unfold Binary32.computeClosestPointOnTriangle,
    Binary32.computeClosestPointOnTriangleWith.
  cbv zeta.
  match goal with
  | |- context [Binary32.triangleParameters _ ?a ?b ?c ?d ?e] =>
      destruct (triangleParameters_outcome32 a b c d e) as [E|(s & t & E)];
      rewrite E
  end.
  - right. right. left. reflexivity.
  - left. eexists. reflexivity.
Qed.

(** C9. On binary32, when none of the five dot products [a], [b], [c],
    [d], [e] of [computeClosestPointOnTriangle] has overflowed, every
    division that the solver executes divides by a strictly positive
    value: the solver run with the checked division, which refuses any
    division other than [1 / den] with [0 < den] or [num / den] with
    [0 < num < den], returns what the program returns.  So [1 / det] is
    executed only with [0 < det], [-d / a] only with [0 < -d < a],
    [-e / c] only with [0 < -e < c], and [num / denom] only with
    [0 < num < denom]. *)
Theorem divisions_are_safe_without_overflow (v0 v1 v2 q : Point) :
  finiteDots (Binary32.dotProducts v0 v1 v2 q) = true ->
  Binary32.computeClosestPointOnTriangleWith Binary32.checked_divide
    v0 v1 v2 q
  = Binary32.computeClosestPointOnTriangle v0 v1 v2 q
  /\ Binary32.computeClosestPointOnTriangle v0 v1 v2 q <> UnsafeDivision.
Proof.
  intros F. split.
  - unfold Binary32.computeClosestPointOnTriangle,
      Binary32.computeClosestPointOnTriangleWith.
    unfold finiteDots, Binary32.dotProducts in F.
    apply andb_prop in F. destruct F as [F He].
    apply andb_prop in F. destruct F as [F Hd].
    apply andb_prop in F. destruct F as [F Hc].
    apply andb_prop in F. destruct F as [Ha Hb].
    cbv zeta.
    rewrite (triangleParameters_checked32 _ _ _ _ _ Ha Hb Hc Hd He).
    reflexivity.
  - destruct (triangle_solver_outcome32 v0 v1 v2 q) as [[r E]|[E|[E|E]]];
      rewrite E; discriminate.
Qed.

(** A witness for C9: the triangle [A B C] and a point above it. *)
Lemma divisions_are_safe_without_overflow_witness :
  Binary32.computeClosestPointOnTriangleWith Binary32.checked_divide
    (pt vertexA) (pt vertexB) (pt vertexC) (pt (q3 (1 # 4) (1 # 4) 1))
  = Binary32.computeClosestPointOnTriangle
      (pt vertexA) (pt vertexB) (pt vertexC) (pt (q3 (1 # 4) (1 # 4) 1))
  /\ Binary32.computeClosestPointOnTriangle
       (pt vertexA) (pt vertexB) (pt vertexC) (pt (q3 (1 # 4) (1 # 4) 1))
     <> UnsafeDivision.
Proof.
  apply (@divisions_are_safe_without_overflow
           (pt vertexA) (pt vertexB) (pt vertexC) (pt (q3 (1 # 4) (1 # 4) 1))).
  vm_compute. reflexivity.
Defined.

(** C9 as stated fails on binary32.  A non-zero determinant does not make
    [a] positive: for [v1 = (2^-75, 0, 0)] and [v2 = (2^40, 1, 0)] the
    square [a = 2^-150] underflows to [0] while the computed determinant
    is [-2^-70], and the solver returns a point.  When dot products
    overflow the determinant is NaN, the guard [det == 0] does not throw,
    and a NaN is divided by a NaN ([v1 = (2^70, 0, 0)],
    [v2 = (2^70, 2^70, 0)]) or by zero ([v1 = v2 = (2^35, 0, 0)],
    [q = (-2^100, 0, 0)], where [a - 2b + c = 0]). *)
Lemma divisions_claim_fails_on_binary32 :
  (let v1 := pt (q3 (pow2 (-75)) 0 0) in
   let v2 := pt (q3 (pow2 40) 1 0) in
   let '(a, b, c, d, e) :=
     Binary32.dotProducts (pt vertexA) v1 v2 (pt (q3 0 1 0)) in
   a = Fin 0
   /\ fsub32 (fmul32 a c) (fmul32 b b) = Fin (- pow2 (-70))
   /\ exists r,
        Binary32.computeClosestPointOnTriangle (pt vertexA) v1 v2
                                               (pt (q3 0 1 0)) = Ok r)
  /\ (let v1 := pt (q3 (pow2 70) 0 0) in
      let v2 := pt (q3 (pow2 70) (pow2 70) 0) in
      Binary32.computeClosestPointOnTriangleWith Binary32.checked_divide
        (pt vertexA) v1 v2 (pt (q3 0 1 0)) = UnsafeDivision
      /\ Binary32.computeClosestPointOnTriangle
           (pt vertexA) v1 v2 (pt (q3 0 1 0))
         = Ok (Float3.splat nan, nan))
  /\ (let v1 := pt (q3 (pow2 35) 0 0) in
      let q := pt (q3 (- pow2 100) 0 0) in
      Binary32.computeClosestPointOnTriangleWith nonzero_divide
        (pt vertexA) v1 v1 q = UnsafeDivision
      /\ Binary32.computeClosestPointOnTriangle (pt vertexA) v1 v1 q
         = Ok (Float3.splat nan, nan)).
Proof.
  split; [|split].
  - vm_compute. split; [reflexivity|]. split; [reflexivity|].
    eexists. reflexivity.
  - split; vm_compute; reflexivity.
  - split; vm_compute; reflexivity.
Qed.

(** ** Region 2 on binary32 *)

Lemma representable_one : representable (Fin 1) = true.
Proof. vm_compute. reflexivity. Qed.

Lemma round32_unit (q : Q) : 0 <= q <= 1 -> in_unit (round32 q) = true.
Proof.
  intros [L U]. unfold in_unit.
  rewrite (round32_ge L representable_zero).
  rewrite (round32_le U representable_one). reflexivity.
Qed.

(** A quotient [num / denom] with [0 < num < denom] rounds into [0, 1]. *)
Lemma fdiv32_unit (num denom : float) :
  flt (Fin 0) num = true -> flt num denom = true ->
  in_unit (fdiv32 num denom) = true.
Proof.
  destruct num as [x| | |], denom as [y| | |]; try discriminate.
  - destruct (flt_spec 0 x) as [Hx|]; [|discriminate].
    destruct (flt_spec x y) as [Hy|]; [|discriminate]. intros _ _.
    unfold fdiv32. rewrite fdiv_Fin by lra. cbn [rnd].
    apply round32_unit.
    assert (E : (x / y) * y == x) by (field; lra).
    set (r := x / y) in *. clearbody r. split; nra.
  - intros _ _. reflexivity.
Qed.

Lemma fsub32_unit (s : float) :
  in_unit s = true -> in_unit (fsub32 (Fin 1) s) = true.
Proof.
  unfold in_unit. intros H. apply andb_prop in H. destruct H as [L U].
  destruct s as [x| | |]; try discriminate.
  destruct (fle_spec 0 x); [|discriminate].
  destruct (fle_spec x 1); [|discriminate].
  unfold fsub32. cbn [fsub fopp fadd rnd]. apply round32_unit. lra.
Qed.

(** C4.  Region 2 of the triangle solver on binary32 (the guard
    [det == 0] has not thrown, [s1 + t1 <= det] is false and [s1 < 0]):
    with [tmp0 = b + d] and [tmp1 = c + e], if [tmp1 > tmp0] then [s] is
    1 if [tmp1 - tmp0 >= a - 2b + c] and [(tmp1 - tmp0) / (a - 2b + c)]
    otherwise, and [t = 1 - s]; otherwise [s = 0], and [t = 1] if
    [tmp1 <= 0], else [t = 0] if [e >= 0], else [t = -e / c], every
    operation rounded.  When the five dot products are finite both
    parameters lie between 0 and 1: nothing is left for a clamp to do. *)
Theorem region2_parameters_on_binary32 (a b c d e : float) :
  inRegion2 a b c d e = true ->
  Binary32.triangleParameters Binary32.ieee_divide a b c d e
  = Ok (region2_on_binary32 a b c d e)
  /\ (finiteDots (a, b, c, d, e) = true ->
      in_unit (fst (region2_on_binary32 a b c d e)) = true
      /\ in_unit (snd (region2_on_binary32 a b c d e)) = true).
Proof.
  unfold inRegion2. cbv zeta. intros H.
  apply andb_prop in H. destruct H as [H Hs].
  apply andb_prop in H. destruct H as [Hdet Hst].
  apply negb_true_iff in Hdet. apply negb_true_iff in Hst.
  split.
  - unfold Binary32.triangleParameters, Binary32.ieee_divide,
      region2_on_binary32.
    cbv zeta. rewrite Hdet, Hst, Hs.
    destruct (fgt (fadd32 c e) (fadd32 b d)).
    + destruct (fge _ _); reflexivity.
    + destruct (fle (fadd32 c e) (Fin 0)); [reflexivity|].
      destruct (fge e (Fin 0)); reflexivity.
  - intros F. unfold finiteDots in F.
    apply andb_prop in F. destruct F as [F He].
    apply andb_prop in F. destruct F as [F Hd].
    apply andb_prop in F. destruct F as [F Hc].
    apply andb_prop in F. destruct F as [Ha Hb].
    unfold region2_on_binary32. cbv zeta.
    destruct (fgt (fadd32 c e) (fadd32 b d)) eqn:Htmp; cbn [fst snd].
    + assert (Hnum : flt (Fin 0) (fsub32 (fadd32 c e) (fadd32 b d)) = true).
      { apply fsub32_pos; [apply rnd_gridded | apply rnd_gridded | exact Htmp]. }
      assert (Hu : in_unit
                     (if fge (fsub32 (fadd32 c e) (fadd32 b d))
                             (fadd32 (fsub32 a (fmul32 (Fin 2) b)) c)
                      then Fin 1
                      else fdiv32 (fsub32 (fadd32 c e) (fadd32 b d))
                                  (fadd32 (fsub32 a (fmul32 (Fin 2) b)) c))
                   = true).
      { destruct (fge _ _) eqn:Hge; [reflexivity|].
        apply fdiv32_unit; [exact Hnum|].
        apply fle_false_flt;
          [ apply denom_not_nan; assumption
          | destruct (flt_not_nan _ _ Hnum) as [_ N]; exact N
          | exact Hge ]. }
      split; [exact Hu | apply fsub32_unit; exact Hu].
    + split; [reflexivity|].
      destruct (fle (fadd32 c e) (Fin 0)) eqn:H1; [reflexivity|].
      destruct (fge e (Fin 0)) eqn:H2; [reflexivity|].
      destruct c as [c| | |], e as [e| | |]; try discriminate.
      unfold fge in H2. destruct (fle_spec 0 e) as [|Hneg]; [discriminate|].
      unfold fadd32 in H1. cbn [fadd rnd] in H1.
      assert (L : 0 < c + e).
      { apply Qnot_le_lt. intros C.
        rewrite (round32_le C representable_zero) in H1. discriminate. }
      cbn [fopp]. apply fdiv32_unit.
      * destruct (flt_spec 0 (- e)); [reflexivity | lra].
      * destruct (flt_spec (- e) c); [reflexivity | lra].
Qed.

(** A witness for C4: dot products of a triangle with integer vertices,
    [v0 = (0, 0, 0)], [v1 = (3194, -6133, 0)], [v2 = (3195, -6134, 0)],
    and [q = (7403, 1462, 1)].  Rounding makes [a - 2b + c = -8] while
    [tmp1 - tmp0 = 3384], and the solver sets [s = 1], [t = 0]. *)
Lemma region2_parameters_on_binary32_witness :
  let a := Fin 47815324 in
  let b := Fin 47824656 in
  let c := Fin 47833980 in
  let d := Fin (-14678736) in
  let e := Fin (-14684676) in
  Binary32.dotProducts (pt (q3 0 0 0)) (pt (q3 3194 (-6133) 0))
                       (pt (q3 3195 (-6134) 0)) (pt (q3 7403 1462 1))
  = (a, b, c, d, e)
  /\ region2_on_binary32 a b c d e = (Fin 1, Fin 0)
  /\ Binary32.triangleParameters Binary32.ieee_divide a b c d e
     = Ok (region2_on_binary32 a b c d e)
  /\ in_unit (fst (region2_on_binary32 a b c d e)) = true
  /\ in_unit (snd (region2_on_binary32 a b c d e)) = true.
Proof.
  cbv zeta.
  destruct (@region2_parameters_on_binary32
              (Fin 47815324) (Fin 47824656) (Fin 47833980)
              (Fin (-14678736)) (Fin (-14684676))) as [E U].
  { vm_compute. reflexivity. }
  destruct U as [U1 U2]; [reflexivity|].
  split; [vm_compute; reflexivity|].
  split; [vm_compute; reflexivity|].
  split; [exact E|]. split; [exact U1 | exact U2].
Defined.

(** ** The distance to a cube on binary32 *)










(** ** A collinear face that the solver does not detect *)

(** C7 fails on binary32.  The four vertices of [lineQuad] are collinear
    and are numbers of binary32; the construction succeeds; the query
    from [(0, 1, 0)] evaluates the face, and returns the point that the
    face solver computes instead of raising [DegenerateTriangle]: the
    dot products [a = 4097^2 + 1], [b = 3a] and [c = 9a] are rounded to
    [16785408], [50356232] and [151068704], and the computed determinant
    is [-2^28], not zero. *)
Theorem collinear_quad_is_not_detected :
  collinear_face lineVertices lineQuad
  /\ forallb binary32Point (map pt lineVertices) = true
  /\ (let '(a, b, c, _, _) :=
        Binary32.dotProducts (pt (q3 0 0 0)) (pt (q3 4097 1 0))
                             (pt (q3 12291 3 0)) (pt (q3 0 1 0)) in
      fsub32 (fmul32 a c) (fmul32 b b) = Fin (- pow2 28))
  /\ exists impl p d,
       Binary32.newImpl (mkMesh (map pt lineVertices) [lineQuad]) = Ok impl
       /\ Binary32.computeClosestPointOnFace lineQuad (map pt lineVertices)
                                             (pt (q3 0 1 0)) = Ok (p, d)
       /\ Binary32.query impl (pt (q3 0 1 0)) (Fin 2) = Ok p
       /\ Float3.hasNan p = false.
Proof.
  split; [|split; [|split]].
  - exists (q3 0 0 0), (q3 4097 1 0). intros id Hid.
    destruct Hid as [<-|[<-|[<-|[<-|[]]]]].
    + exists (q3 0 0 0). split; [reflexivity|]. exists 0.
      vm_compute. repeat split.
    + exists (q3 4097 1 0). split; [reflexivity|]. exists 1.
      vm_compute. repeat split.
    + exists (q3 12291 3 0). split; [reflexivity|]. exists 3.
      vm_compute. repeat split.
    + exists (q3 8194 2 0). split; [reflexivity|]. exists 2.
      vm_compute. repeat split.
  - vm_compute. reflexivity.
  - vm_compute. reflexivity.
  - eexists. eexists. eexists.
    split; [vm_compute; reflexivity|].
    split; [vm_compute; reflexivity|].
    split; vm_compute; reflexivity.
Qed.

(** ** The queries on binary32 *)


Lemma face_solver_outcome32 (face : Face) (vertices : list Point) (q : Point) :
  query_outcome (Binary32.computeClosestPointOnFace face vertices q).
Proof.
  unfold Binary32.computeClosestPointOnFace.
  destruct ((List.length (vertexIds face) <? 3)%nat
            || (4 <? List.length (vertexIds face))%nat);
    [right; left; reflexivity|].
  destruct (at_index_outcome vertices (nth 0 (vertexIds face) 0%Z))
    as [[v0 E0]|E0]; rewrite E0; cbn [bind];
    [|right; right; right; reflexivity].
  destruct (at_index_outcome vertices (nth 1 (vertexIds face) 0%Z))
    as [[v1 E1]|E1]; rewrite E1; cbn [bind];
    [|right; right; right; reflexivity].
  destruct (at_index_outcome vertices (nth 2 (vertexIds face) 0%Z))
    as [[v2 E2]|E2]; rewrite E2; cbn [bind];
    [|right; right; right; reflexivity].
  destruct (triangle_solver_outcome32 v0 v1 v2 q) as [[r1 T1]|[T1|[T1|T1]]];
    rewrite T1; cbn [bind];
    [|right; left; reflexivity | right; right; left; reflexivity
     |right; right; right; reflexivity].
  destruct (List.length (vertexIds face) =? 3)%nat;
    [left; eexists; reflexivity|].
  destruct (at_index_outcome vertices (nth 3 (vertexIds face) 0%Z))
    as [[v3 E3]|E3]; rewrite E3; cbn [bind];
    [|right; right; right; reflexivity].
  destruct (triangle_solver_outcome32 v2 v3 v0 q) as [[r2 T2]|[T2|[T2|T2]]];
    rewrite T2; cbn [bind];
    [|right; left; reflexivity | right; right; left; reflexivity
     |right; right; right; reflexivity].
  left. eexists. reflexivity.
Qed.

(** *** The faces stored in a tree *)

Lemma storedFaces_unfold (node : Node) :
  storedFaces node
  = map fst (m_elements node)
    ++ flat_map storedFaces (presentChildren (m_children node)).
Proof.
  destruct node as [elements children bounds leaf].
  cbn [storedFaces m_elements m_children]. f_equal.
  induction children as [|[child|] rest IH]; cbn; [reflexivity | | exact IH].
  rewrite IH. reflexivity.
Qed.

Lemma storedFaces_incl (node : Node) (F : list Face) :
  incl (storedFaces node) F
  <-> incl (map fst (m_elements node)) F
      /\ forall child, In child (presentChildren (m_children node)) ->
                       incl (storedFaces child) F.
Proof.
  rewrite storedFaces_unfold. split.
  - intros H. split.
    + intros f Hf. apply H, in_or_app. left. exact Hf.
    + intros child Hc f Hf. apply H, in_or_app. right.
      apply in_flat_map. exists child. split; assumption.
  - intros [He Hc] f Hf. apply in_app_or in Hf. destruct Hf as [Hf|Hf].
    + apply He, Hf.
    + apply in_flat_map in Hf. destruct Hf as (child & Hin & Hf).
      exact (Hc child Hin f Hf).
Qed.


Section Stored.

Variable F : list Face.









Section Insert.

Variable intersects : Intersect OctreeElement.
Variable maxDepth : Z.
Variable maxFill : float.





End Insert.

End Stored.



Section Sound.

Variable vertices : list Point.
Variable queryPoint : Point.
Variable sqrMaxDist : float.
Variable F : list Face.
Variable queue : PriorityQueue.
Hypothesis Hqueue : removes_top queue.

Let ok := accepted vertices queryPoint sqrMaxDist F.
Let fine := sound vertices queryPoint F ok.

Lemma reduce_sound (result : ClosestPointSpec) (face : Face) :
  ok result -> In face F ->
  fine (Binary32.reduceClosestPointOnFace vertices queryPoint sqrMaxDist
                                          result face).
Proof.
  intros Hr Hin. unfold Binary32.reduceClosestPointOnFace.
  destruct (face_solver_outcome32 face vertices queryPoint)
    as [[r E]|[E|[E|E]]]; rewrite E; cbn [bind].
  - unfold fine, sound.
    destruct (flt (snd r) sqrMaxDist) eqn:Hs; cbn [andb]; [|exact Hr].
    destruct (flt (snd r) (snd result)); [|exact Hr].
    right. exists face. repeat split; assumption.
  - exists face. split; assumption.
  - exists face. split; assumption.
  - exists face. split; assumption.
Qed.

Lemma scan_sound (faces : list Face) :
  incl faces F ->
  forall acc,
    fine acc ->
    fine (fold_left (fun acc face =>
                       r <- acc ;;
                       Binary32.reduceClosestPointOnFace
                         vertices queryPoint sqrMaxDist r face)
                    faces acc).
Proof.
  induction faces as [|face rest IH]; intros Hin acc Hacc; [exact Hacc|].
  cbn [fold_left]. apply IH; [intros f Hf; apply Hin; right; exact Hf|].
  destruct acc as [r| | | |]; cbn [bind]; try exact Hacc.
  apply reduce_sound; [exact Hacc | apply Hin; left; reflexivity].
Qed.

Lemma acceptElements_scan32 (node : Node) (result : ClosestPointSpec) :
  acceptElements node
    (Binary32.visitElement vertices queryPoint sqrMaxDist) result
  = fold_left (fun acc f =>
                 r <- acc ;;
                 Binary32.reduceClosestPointOnFace
                   vertices queryPoint sqrMaxDist r f)
              (map fst (m_elements node)) (Ok result).
Proof.
  unfold acceptElements. generalize (Ok result) as acc.
  induction (m_elements node) as [|x xs IH]; intro acc; [reflexivity|].
  cbn [fold_left map]. apply IH.
Qed.

Lemma visitChildren_measure32 (result : ClosestPointSpec)
    (children : list Node) :
  forall heap,
    (heapMeasure (fold_left (Binary32.visitChild queryPoint result)
                            children heap)
     <= heapMeasure heap + countAll children)%nat.
Proof.
  induction children as [|c cs IH]; intro heap.
  - unfold countAll. cbn [fold_left fold_right]. rewrite Nat.add_0_r.
    apply Nat.le_refl.
  - cbn [fold_left].
    specialize (IH (Binary32.visitChild queryPoint result heap c)).
    assert (heapMeasure (Binary32.visitChild queryPoint result heap c)
            <= heapMeasure heap + countNodes c)%nat.
    { unfold Binary32.visitChild.
      destruct (flt _ _); unfold heapMeasure, heap_push; cbn; lia. }
    unfold countAll in *. cbn [fold_right]. lia.
Qed.

Lemma visitChildren_within (result : ClosestPointSpec)
    (children : list Node) :
  (forall child, In child children -> incl (storedFaces child) F) ->
  forall heap,
    Forall (fun entry => incl (storedFaces (fst entry)) F) heap ->
    Forall (fun entry => incl (storedFaces (fst entry)) F)
           (fold_left (Binary32.visitChild queryPoint result) children heap).
Proof.
  induction children as [|c cs IH]; intros Hc heap Hh; [exact Hh|].
  cbn [fold_left]. apply IH; [intros x Hx; apply Hc; right; exact Hx|].
  unfold Binary32.visitChild. destruct (flt _ _); [|exact Hh].
  constructor; [|exact Hh]. apply Hc. left. reflexivity.
Qed.

Lemma search_sound (fuel : nat) :
  forall heap result,
    (heapMeasure heap <= fuel)%nat ->
    Forall (fun entry => incl (storedFaces (fst entry)) F) heap ->
    ok result ->
    fine (Binary32.bestFirstSearchWith queue fuel vertices queryPoint
                                       sqrMaxDist heap result).
Proof.
  induction fuel as [|fuel IH]; intros heap result Hm Hh Hr.
  - cbn [Binary32.bestFirstSearchWith].
    pose proof (Hqueue heap) as Hq.
    destruct (queue_top queue heap) as [top|]; [|exact Hr].
    destruct (flt (snd top) (snd result)); [|exact Hr].
    exfalso. rewrite (heapMeasure_perm Hq) in Hm.
    unfold heapMeasure in Hm. cbn [fold_right] in Hm.
    rewrite countNodes_children in Hm. lia.
  - cbn [Binary32.bestFirstSearchWith].
    pose proof (Hqueue heap) as Hq.
    destruct (queue_top queue heap) as [top|]; [|exact Hr].
    destruct (flt (snd top) (snd result)); [|exact Hr].
    cbv zeta.
    assert (Hp : heapMeasure heap
                 = S (countAll (presentChildren (m_children (fst top)))
                      + heapMeasure (queue_pop queue heap))).
    { rewrite (heapMeasure_perm Hq). unfold heapMeasure at 1.
      cbn [fold_right]. rewrite countNodes_children. reflexivity. }
    assert (Hall : Forall (fun entry => incl (storedFaces (fst entry)) F)
                          (top :: queue_pop queue heap)).
    { eapply Permutation_Forall; [exact Hq | exact Hh]. }
    inversion Hall as [|? ? Htop Hpop]; subst.
    apply storedFaces_incl in Htop. destruct Htop as [Hels Hch].
    destruct (isLeaf (fst top)).
    + rewrite acceptElements_scan32.
      pose proof (@scan_sound (map fst (m_elements (fst top))) Hels
                    (Ok result) Hr) as Hs.
      destruct (fold_left _ _ _) as [r| | | |]; cbn [bind]; try exact Hs.
      apply IH; [lia | exact Hpop | exact Hs].
    + apply IH; [| | exact Hr].
      * unfold acceptChildren.
        eapply Nat.le_trans; [apply visitChildren_measure32|]. lia.
      * unfold acceptChildren. apply visitChildren_within; assumption.
Qed.

(** *** The linear scan keeps a least computed distance *)





End Sound.



(** ** The index against the linear scan on binary32 *)

Lemma answers_Ok (o : outcome Point) (p : Point) :
  answers o p = true -> o = Ok p.
Proof.
  destruct o as [p'| | | |]; try discriminate. cbn [answers].
  destruct (Point_eq_dec p' p) as [->|]; [reflexivity | discriminate].
Qed.

(** A search of an index all of whose faces are solved away from a
    point does not return that point, and returns the all-NaN point when
    the squared radius is not above the distances of the faces. *)
Lemma search_away (queue : PriorityQueue) (impl : Impl) (root : Node)
    (queryPoint avoid : Point) (least sqrMaxDist : float) :
  removes_top queue ->
  m_partitionedSpace impl = Some root ->
  Float3.hasNan avoid = false ->
  forallb (solvesAwayFrom (m_vertices impl) queryPoint avoid least)
          (storedFaces root) = true ->
  exists p,
    Binary32.processPartitionedSpaceWith queue impl queryPoint sqrMaxDist
    = Ok p
    /\ p <> avoid
    /\ (fle sqrMaxDist least = true -> p = Float3.splat nan).
Proof.
  intros Hq Er Hav Hall.
  assert (Hf : forall face,
             In face (storedFaces root) ->
             exists p d,
               Binary32.computeClosestPointOnFace
                 face (m_vertices impl) queryPoint = Ok (p, d)
               /\ p <> avoid /\ flt d least = false).
  { intros face Hin.
    pose proof (proj1 (forallb_forall _ _) Hall face Hin) as H.
    unfold solvesAwayFrom in H.
    destruct (Binary32.computeClosestPointOnFace _ _ _)
      as [[p d]| | | |]; try discriminate.
    apply andb_prop in H. destruct H as [H1 H2].
    exists p, d. split; [reflexivity|]. split.
    - destruct (Point_eq_dec p avoid); [discriminate | assumption].
    - now apply negb_true_iff. }
  unfold Binary32.processPartitionedSpaceWith. rewrite Er. cbv zeta.
  pose proof (@search_sound (m_vertices impl) queryPoint sqrMaxDist
                (storedFaces root) queue Hq (countNodes root)
                (heap_push
                   (root, Binary32.computeSqrDistanceToBounds
                            queryPoint (getBounds root)) [])
                noResult) as Hs.
  destruct (Binary32.bestFirstSearchWith _ _ _ _ _ _ _) as [[p d]| e | | |];
    cbn [bind sound fst] in *.
  - exists p. split; [reflexivity|].
    destruct Hs as [E | (face & Hin & E & Hd)].
    + unfold heapMeasure, heap_push. cbn. lia.
    + constructor; [|constructor]. apply incl_refl.
    + left. reflexivity.
    + injection E as -> ->. split; [| reflexivity].
      intros C. rewrite <- C in Hav. discriminate.
    + destruct (Hf face Hin) as (p' & d' & E' & Hp & Hl).
      rewrite E in E'. injection E' as <- <-. cbn [snd] in Hd.
      split; [exact Hp|]. intros Hle. exfalso.
      rewrite (flt_fle_trans _ _ _ Hd Hle) in Hl. discriminate.
  - exfalso. destruct Hs as (face & Hin & E).
    + unfold heapMeasure, heap_push. cbn. lia.
    + constructor; [|constructor]. apply incl_refl.
    + left. reflexivity.
    + destruct (Hf face Hin) as (p' & d' & E' & _). congruence.
  - exfalso. destruct Hs as (face & Hin & E).
    + unfold heapMeasure, heap_push. cbn. lia.
    + constructor; [|constructor]. apply incl_refl.
    + left. reflexivity.
    + destruct (Hf face Hin) as (p' & d' & E' & _). congruence.
  - exfalso. apply Hs.
    + unfold heapMeasure, heap_push. cbn. lia.
    + constructor; [|constructor]. apply incl_refl.
    + left. reflexivity.
  - exfalso. apply Hs.
    + unfold heapMeasure, heap_push. cbn. lia.
    + constructor; [|constructor]. apply incl_refl.
    + left. reflexivity.
Qed.

(** C2 fails on binary32.  The extent of [edgeMesh] is [-1, 1 + 2^-23] in
    [x]; [computeCubicBounds] rounds its width [2 + 2^-23] to [2], and
    the root cube, of centre [x = 2^-24] and half width 1, ends before
    the plane [x = 1 + 2^-23].  The face [edgeFace] of that plane
    intersects no child cube and is dropped when the root is subdivided:
    it is a face of the mesh and is stored nowhere in the index.  For the
    query point [edgePoint], a point of that face, the linear scan
    returns the point itself, at distance 0.  The indexed search,
    whatever entry its priority queue shows first, returns another
    point, every face of the index being farther than [1/4]; with the
    maximum distance [1/8] it returns the all-NaN point.  With the queue
    of the model and the maximum distance 10 it returns [(1, 1/4, 0)]. *)
Theorem index_loses_a_face_on_binary32 :
  forallb binary32Point (edgePoint :: map pt edgeVertices) = true
  /\ exists impl root,
       Binary32.newImpl edgeMesh = Ok impl
       /\ m_partitionedSpace impl = Some root
       /\ In edgeFace (m_faces impl)
       /\ ~ In edgeFace (storedFaces root)
       /\ Binary32.processMesh impl edgePoint (fmul32 (Fin 10) (Fin 10))
          = Ok edgePoint
       /\ Binary32.processMesh impl edgePoint
                               (fmul32 (Fin (1 # 8)) (Fin (1 # 8)))
          = Ok edgePoint
       /\ Binary32.query impl edgePoint (Fin 10) = Ok (pt (q3 1 (1 # 4) 0))
       /\ forall queue,
            removes_top queue ->
            (exists p,
               Binary32.processPartitionedSpaceWith
                 queue impl edgePoint (fmul32 (Fin 10) (Fin 10)) = Ok p
               /\ p <> edgePoint)
            /\ Binary32.processPartitionedSpaceWith
                 queue impl edgePoint (fmul32 (Fin (1 # 8)) (Fin (1 # 8)))
               = Ok (Float3.splat nan).
Proof.
  split; [vm_compute; reflexivity|].
  assert (Hi : match Binary32.newImpl edgeMesh with
               | Ok impl =>
                   match m_partitionedSpace impl with
                   | Some root =>
                       (if in_dec Face_eq_dec edgeFace (m_faces impl)
                        then true else false)
                       && (if in_dec Face_eq_dec edgeFace (storedFaces root)
                           then false else true)
                       && answers (Binary32.processMesh
                                     impl edgePoint
                                     (fmul32 (Fin 10) (Fin 10))) edgePoint
                       && answers (Binary32.processMesh
                                     impl edgePoint
                                     (fmul32 (Fin (1 # 8)) (Fin (1 # 8))))
                                  edgePoint
                       && answers (Binary32.query impl edgePoint (Fin 10))
                                  (pt (q3 1 (1 # 4) 0))
                       && forallb (solvesAwayFrom (m_vertices impl) edgePoint
                                                  edgePoint (Fin (1 # 16)))
                                  (storedFaces root)
                   | None => false
                   end
               | _ => false
               end = true)
    by (vm_compute; reflexivity).
  revert Hi.
  destruct (Binary32.newImpl edgeMesh) as [impl| | | |]; try discriminate.
  destruct (m_partitionedSpace impl) as [root|] eqn:Er; [|discriminate].
  intros Hi. exists impl, root.
  repeat (apply andb_prop in Hi; destruct Hi as [Hi ?]).
  destruct (in_dec Face_eq_dec edgeFace (m_faces impl)); [|discriminate].
  destruct (in_dec Face_eq_dec edgeFace (storedFaces root)); [discriminate|].
  repeat split; try assumption; try reflexivity; try (now apply answers_Ok).
  - destruct (@search_away queue impl root edgePoint edgePoint
                (Fin (1 # 16)) (fmul32 (Fin 10) (Fin 10)))
      as (p & E & Hp & _); try assumption; [reflexivity|].
    exists p. split; assumption.
  - destruct (@search_away queue impl root edgePoint edgePoint
                (Fin (1 # 16)) (fmul32 (Fin (1 # 8)) (Fin (1 # 8))))
      as (p & E & _ & Hn); try assumption; [reflexivity|].
    rewrite E, Hn; [reflexivity|]. vm_compute. reflexivity.
Qed.

(** ** The guard of the solver on binary32 *)

